(** * api-tester-extension: endpoint discovery and environment manager

    A shallow embedding of [src/services/EndpointDiscovery.ts],
    [src/services/EnvironmentManager.ts] and
    [src/services/RequestHistory.ts], with the properties of the
    specification proved (or refuted) over it, followed by further
    properties of the code.

    Conventions of the embedding.
    - A JavaScript string is a list of code units, [list ascii]; the
      embedding covers text whose code units are below 256.
      [toLowerCase] and [toUpperCase] map the letters of that range;
      the upper-case forms of the code units 181 and 255 lie above 255
      and are outside the embedding.  The [i] flag of the patterns,
      which have ASCII characters only, folds the letters a-z.
    - A [Record<string, string>] used as a dictionary is a plain
      object: its own properties are a finite map
      [gmap jsstring jsstring], and it inherits the properties of
      [Object.prototype].
    - A regular expression literal is a term of [regex], run by a
      backtracking matcher that follows the ECMAScript priorities
      (greedy quantifiers, leftmost alternative first, an empty
      iteration of a quantifier is rejected).
    - [Date.now()] and [Math.random()] are inputs of the operations
      that call them. *)

From Stdlib Require Import ZArith Lia List Ascii String Bool Arith DecimalString.
From stdpp Require Import base option list gmap strings.

Local Open Scope nat_scope.
Local Open Scope list_scope.

(** ** JavaScript strings *)

Module JS.

Abbreviation jsstring := (list ascii) (only parsing).

Definition str (s : string) : jsstring := list_ascii_of_string s.

Definition code (a : ascii) : nat := nat_of_ascii a.

(** WhiteSpace and LineTerminator code units below 256: TAB, LF, VT,
    FF, CR, SP and NBSP.  This is the set of [String.prototype.trim]
    and of the class escape [\s]. *)
Definition white_codes : list nat := [9; 10; 11; 12; 13; 32; 160].

Definition whitespace : list ascii := map ascii_of_nat white_codes.

Definition isWhite (a : ascii) : bool :=
  existsb (Nat.eqb (code a)) white_codes.

Definition isUpper (a : ascii) : bool := (65 <=? code a) && (code a <=? 90).
Definition isLower (a : ascii) : bool := (97 <=? code a) && (code a <=? 122).

(** The case folding of the [i] flag, for patterns of ASCII characters:
    a character outside ASCII never folds to an ASCII one. *)
Definition upChar (a : ascii) : ascii :=
  if isLower a then ascii_of_nat (code a - 32) else a.

(** The letters from 192 to 222 but the multiplication sign, and those
    from 224 to 254 but the division sign, are the upper-case and the
    lower-case letters above ASCII. *)
Definition isUpper1 (a : ascii) : bool :=
  (192 <=? code a) && (code a <=? 222) && negb (code a =? 215).
Definition isLower1 (a : ascii) : bool :=
  (224 <=? code a) && (code a <=? 254) && negb (code a =? 247).

Definition lowChar (a : ascii) : ascii :=
  if isUpper a || isUpper1 a then ascii_of_nat (code a + 32) else a.

(** The upper-case form of a code unit: the sharp s, 223, becomes two
    letters.  The forms of the micro sign, 181, and of the y with
    diaeresis, 255, are code units above 255: these two are left as
    they are, and [upperClosed] excludes them where it matters. *)
Definition upString (a : ascii) : list ascii :=
  if isLower a || isLower1 a then [ascii_of_nat (code a - 32)]
  else if code a =? 223 then ["S"; "S"]%char
  else [a].

Definition upperClosed (a : ascii) : bool :=
  negb (code a =? 181) && negb (code a =? 255).

Definition toUpperCase (s : jsstring) : jsstring := flat_map upString s.
Definition toLowerCase (s : jsstring) : jsstring := map lowChar s.

Definition eqc (a b : ascii) : bool := Ascii.eqb a b.

Fixpoint eqs (s t : jsstring) : bool :=
  match s, t with
  | [], [] => true
  | a :: s', b :: t' => eqc a b && eqs s' t'
  | _, _ => false
  end.

Fixpoint startsWith (p s : jsstring) : bool :=
  match p, s with
  | [], _ => true
  | a :: p', b :: s' => eqc a b && startsWith p' s'
  | _ :: _, [] => false
  end.

Definition endsWith (p s : jsstring) : bool :=
  startsWith (rev p) (rev s).

Fixpoint includes (needle hay : jsstring) : bool :=
  startsWith needle hay ||
  match hay with
  | [] => false
  | _ :: hay' => includes needle hay'
  end.

Fixpoint trimStart (s : jsstring) : jsstring :=
  match s with
  | a :: s' => if isWhite a then trimStart s' else s
  | [] => []
  end.

Definition trimEnd (s : jsstring) : jsstring := rev (trimStart (rev s)).

Definition trim (s : jsstring) : jsstring := trimEnd (trimStart s).

(** [s.split(sep)] for a one-character separator; the result is never
    empty: [''.split(sep)] is [['']]. *)
Fixpoint split (sep : ascii) (s : jsstring) : list jsstring :=
  match s with
  | [] => [[]]
  | a :: s' =>
      if eqc a sep then [] :: split sep s'
      else match split sep s' with
           | cur :: rest => (a :: cur) :: rest
           | [] => [[a]]
           end
  end.

(** [s.slice(1)] and [s.slice(1, -1)]. *)
Definition slice1 (s : jsstring) : jsstring := drop 1 s.
Definition slice1m1 (s : jsstring) : jsstring := take (length s - 2) (drop 1 s).

(** [x || d] where [x] is a string or [undefined]: the empty string is
    falsy. *)
Definition orElse (x : option jsstring) (d : jsstring) : jsstring :=
  match x with
  | Some (a :: s) => a :: s
  | _ => d
  end.

(** Truthiness of a string-or-undefined value. *)
Definition truthy (x : option jsstring) : bool :=
  match x with
  | Some (_ :: _) => true
  | _ => false
  end.

End JS.

Import JS.

(** ** Plain objects used as dictionaries *)

Module Obj.

(** [String(f)] for a built-in function [f]. *)
Definition nativeFunction (name : string) : jsstring :=
  str "function " ++ str name ++ str "() { [native code] }".

(** The properties that a plain object inherits from
    [Object.prototype], each with what [String] gives for its value:
    the text of a built-in function, and [[object Object]] for the
    prototype, which the accessor [__proto__] reads. *)
Definition Object_prototype : list (string * jsstring) :=
  [("constructor", nativeFunction "Object");
   ("__defineGetter__", nativeFunction "__defineGetter__");
   ("__defineSetter__", nativeFunction "__defineSetter__");
   ("hasOwnProperty", nativeFunction "hasOwnProperty");
   ("__lookupGetter__", nativeFunction "__lookupGetter__");
   ("__lookupSetter__", nativeFunction "__lookupSetter__");
   ("isPrototypeOf", nativeFunction "isPrototypeOf");
   ("propertyIsEnumerable", nativeFunction "propertyIsEnumerable");
   ("toString", nativeFunction "toString");
   ("valueOf", nativeFunction "valueOf");
   ("__proto__", str "[object Object]");
   ("toLocaleString", nativeFunction "toLocaleString")]%string.

Definition inherited (key : jsstring) : option jsstring :=
  snd <$> find (fun p => eqs key (str (fst p))) Object_prototype.

(** [String(obj[key])] where [obj[key]] is not [undefined]: an own
    property first, then an inherited one. *)
Definition getProperty (obj : gmap (list ascii) (list ascii)) (key : jsstring)
  : option jsstring :=
  match obj !! key with
  | Some value => Some value
  | None => inherited key
  end.

(** [key in obj] *)
Definition hasProperty (obj : gmap (list ascii) (list ascii)) (key : jsstring) : bool :=
  bool_decide (is_Some (getProperty obj key)).

(** [obj[key] = value] for a string [value].  Where [obj] has no own
    property [__proto__], the assignment to that key runs the setter
    of [Object.prototype], which ignores a value that is not an
    object; any other assignment writes an own property. *)
Definition setProperty (obj : gmap (list ascii) (list ascii)) (key value : jsstring)
  : gmap (list ascii) (list ascii) :=
  if eqs key (str "__proto__") && negb (bool_decide (is_Some (obj !! key))) then obj
  else <[key := value]> obj.

End Obj.

Import Obj.

(** ** Regular expressions *)

Module Regex.

Inductive regex : Type :=
| Eps
| Chr (c : ascii)                    (* a pattern character *)
| Cls (neg : bool) (cs : list ascii) (* [...] and [^...] *)
| Bol                                (* ^ *)
| Eol                                (* $ *)
| Seq (r1 r2 : regex)
| Alt (r1 r2 : regex)
| Star (r : regex)
| Plus (r : regex)
| Opt (r : regex)
| Grp (n : nat) (r : regex).         (* the n-th capturing group *)

(** [\s] and [.] as classes. *)
Definition Space : regex := Cls false whitespace.
Definition Dot : regex := Cls true [ascii_of_nat 10; ascii_of_nat 13].

(** A literal run of pattern characters. *)
Fixpoint lit (s : jsstring) : regex :=
  match s with
  | [] => Eps
  | [a] => Chr a
  | a :: s' => Seq (Chr a) (lit s')
  end.

(** An alternation of literal words, [(?:w1|w2|...)]. *)
Fixpoint words (ws : list string) : regex :=
  match ws with
  | [] => Cls false []
  | [w] => lit (str w)
  | w :: ws' => Alt (lit (str w)) (words ws')
  end.

(** A concatenation, [r1 r2 ... rn]. *)
Fixpoint cat (rs : list regex) : regex :=
  match rs with
  | [] => Eps
  | [r] => r
  | r :: rs' => Seq r (cat rs')
  end.

(** Captures: slot [n] holds the text of group [n], [None] for
    [undefined]. *)
Abbreviation caps := (list (option jsstring)) (only parsing).

(** A continuation receives the current index, the rest of the input
    from that index, and the captures. *)
Abbreviation result := (option (nat * list ascii * list (option (list ascii)))) (only parsing).

Definition cont : Type :=
  nat -> jsstring -> caps -> result.

(** Canonicalize of the [i] flag. *)
Definition canon (ic : bool) (a : ascii) : ascii :=
  if ic then upChar a else a.

Definition chr_ok (ic : bool) (c a : ascii) : bool :=
  eqc (canon ic c) (canon ic a).

Definition cls_ok (ic neg : bool) (cs : list ascii) (a : ascii) : bool :=
  xorb neg (existsb (fun c => chr_ok ic c a) cs).

(** The capturing groups inside a regex, cleared when a quantifier
    starts an iteration of it. *)
Fixpoint groups_of (r : regex) : list nat :=
  match r with
  | Seq a b | Alt a b => groups_of a ++ groups_of b
  | Star a | Plus a | Opt a => groups_of a
  | Grp n a => n :: groups_of a
  | _ => []
  end.

Definition clear (ns : list nat) (c : caps) : caps :=
  fold_right (fun n c => <[n := None]> c) c ns.

(** RepeatMatcher with min = 0 and no upper bound.  An iteration that
    consumes nothing is rejected, so [fuel], the length of the input
    that is left, bounds the number of iterations. *)
Fixpoint star_loop (step : nat -> jsstring -> caps -> cont -> result)
    (fuel : nat) (i : nat) (s : jsstring) (c : caps) (k : cont) : result :=
  match fuel with
  | 0 => k i s c
  | S f =>
      match step i s c
              (fun i' s' c' =>
                 if i' =? i then None else star_loop step f i' s' c' k) with
      | Some x => Some x
      | None => k i s c
      end
  end.

Fixpoint run (ic : bool) (r : regex) {struct r}
  : nat -> jsstring -> caps -> cont -> result :=
  fun i s c k =>
  match r with
  | Eps => k i s c
  | Chr x =>
      match s with
      | a :: s' => if chr_ok ic x a then k (S i) s' c else None
      | [] => None
      end
  | Cls neg cs =>
      match s with
      | a :: s' => if cls_ok ic neg cs a then k (S i) s' c else None
      | [] => None
      end
  | Bol => if i =? 0 then k i s c else None
  | Eol => match s with [] => k i s c | _ :: _ => None end
  | Seq r1 r2 => run ic r1 i s c (fun i' s' c' => run ic r2 i' s' c' k)
  | Alt r1 r2 =>
      match run ic r1 i s c k with
      | Some x => Some x
      | None => run ic r2 i s c k
      end
  | Star r1 =>
      star_loop (fun i s c k => run ic r1 i s (clear (groups_of r1) c) k)
                (length s) i s c k
  | Plus r1 =>
      run ic r1 i s (clear (groups_of r1) c)
        (fun i' s' c' =>
           star_loop (fun i s c k => run ic r1 i s (clear (groups_of r1) c) k)
                     (length s') i' s' c' k)
  | Opt r1 =>
      match run ic r1 i s (clear (groups_of r1) c)
              (fun i' s' c' => if i' =? i then None else k i' s' c') with
      | Some x => Some x
      | None => k i s c
      end
  | Grp n r1 =>
      run ic r1 i s c
        (fun i' s' c' => k i' s' (<[n := Some (take (i' - i) s)]> c'))
  end.

(** A RegExp object: the pattern, the [i] flag and the number of
    capturing groups.  The [g] flag is in the operation that uses it. *)
Record RegExp : Type := mkRegExp {
  source : regex;
  ignoreCase : bool;
  ngroups : nat;
}.

(** A match: [index], the end of the match with the input that follows
    it, and the array [match[0]], [match[1]], ... *)
Record Match : Type := mkMatch {
  index : nat;
  lastIndex : nat;
  after : jsstring;
  arr : list (option jsstring);
}.

(** [match[n]] *)
Definition grp (m : Match) (n : nat) : option jsstring :=
  mjoin (arr m !! n).

Definition whole (m : Match) : jsstring := orElse (grp m 0) [].

(** The pattern matched at index [i], [s] being the input from [i]. *)
Definition match_at (re : RegExp) (i : nat) (s : jsstring) : option Match :=
  match run (ignoreCase re) (source re) i s
          (replicate (S (ngroups re)) None)
          (fun j s' c => Some (j, s', c)) with
  | Some (j, s', c) =>
      Some (mkMatch i j s' (<[0 := Some (take (j - i) s)]> c))
  | None => None
  end.

(** The leftmost match at an index [>= i]. *)
Fixpoint search (re : RegExp) (i : nat) (s : jsstring) : option Match :=
  match match_at re i s with
  | Some m => Some m
  | None =>
      match s with
      | [] => None
      | _ :: s' => search re (S i) s'
      end
  end.

(** [while ((m = re.exec(content)) !== null)] on a global RegExp whose
    [lastIndex] was reset to 0.  [re.exec(content)] with
    [re.lastIndex = i] is [search re i s], [s] being the content from
    [i]; every iteration resumes at the end of the previous match.
    [fuel] bounds the iterations: a pattern that matched the empty
    string would be found again at the same index for ever, which no
    pattern of the table does ([patterns_progress] below). *)
Fixpoint exec_loop (fuel : nat) (re : RegExp) (i : nat) (s : jsstring)
  : list Match :=
  match fuel with
  | 0 => []
  | S f =>
      match search re i s with
      | None => []
      | Some m => m :: exec_loop f re (lastIndex m) (after m)
      end
  end.

Definition execAll (re : RegExp) (content : jsstring) : list Match :=
  exec_loop (S (length content)) re 0 content.

(** The matches enumerated by [String.prototype.match] and
    [String.prototype.replace] with a global RegExp: as above, but
    after an empty match the search resumes one code unit further. *)
Fixpoint global_loop (fuel : nat) (re : RegExp) (i : nat) (s : jsstring)
  : list Match :=
  match fuel with
  | 0 => []
  | S f =>
      match search re i s with
      | None => []
      | Some m =>
          if lastIndex m =? index m then
            match after m with
            | [] => [m]
            | _ :: s' => m :: global_loop f re (S (lastIndex m)) s'
            end
          else m :: global_loop f re (lastIndex m) (after m)
      end
  end.

Definition matches (re : RegExp) (s : jsstring) : list Match :=
  global_loop (S (length s)) re 0 s.

(** [s.match(re)] with the [g] flag: the matched texts ([null] is the
    empty list here). *)
Definition matchG (re : RegExp) (s : jsstring) : list jsstring :=
  map whole (matches re s).

(** [s.match(re)] without the [g] flag. *)
Definition match1 (re : RegExp) (s : jsstring) : option Match :=
  search re 0 s.

(** [s.replace(re, f)] with the [g] flag and a replacer function: the
    text between the matches is kept. *)
Fixpoint splice (f : Match -> jsstring) (i : nat) (s : jsstring)
    (ms : list Match) : jsstring :=
  match ms with
  | [] => s
  | m :: ms' =>
      take (index m - i) s ++ f m ++ splice f (lastIndex m) (after m) ms'
  end.

Definition replaceG (re : RegExp) (f : Match -> jsstring) (s : jsstring)
  : jsstring :=
  splice f 0 s (matches re s).

(** [s.replace(re, rep)] without the [g] flag, [rep] a string free of
    the dollar patterns: the first match only. *)
Definition replace1 (re : RegExp) (rep : jsstring) (s : jsstring) : jsstring :=
  match search re 0 s with
  | None => s
  | Some m => take (index m) s ++ rep ++ after m
  end.

End Regex.

Import Regex.

(** ** EndpointDiscovery.ts *)

Module EndpointDiscovery.

(** [DiscoveredEndpoint]; [line] is a zero-based line number, [params]
    is [None] for [undefined].  The optional fields [queryParams],
    [bodySchema] and [description] are never set by this file. *)
Record DiscoveredEndpoint : Type := mkEndpoint {
  method : jsstring;
  path : jsstring;
  file : jsstring;
  line : nat;
  framework : jsstring;
  params : option (list jsstring);
}.

Definition setLine (ep : DiscoveredEndpoint) (n : nat) : DiscoveredEndpoint :=
  mkEndpoint (method ep) (path ep) (file ep) n (framework ep) (params ep).

(** *** The pattern table *)

Definition quote1 : ascii := ascii_of_nat 39.
Definition quote2 : ascii := ascii_of_nat 34.
Definition backtick : ascii := ascii_of_nat 96.

(** The three quote characters of the JS and Python patterns, and the
    two of the Go, Java, Rust and PHP patterns. *)
Definition q3 : list ascii := [quote1; quote2; backtick].
Definition q2 : list ascii := [quote2; quote1].

Definition ch (s : string) : regex := lit (str s).
Definition ws : regex := Star Space.
Definition ws1 : regex := Plus Space.

Definition gi (r : regex) (n : nat) : RegExp := mkRegExp r true n.
Definition plain (r : regex) (n : nat) : RegExp := mkRegExp r false n.

(** Optional blanks, an opening parenthesis, optional blanks and a
    quoted non-empty literal free of quotes, captured as group [n]
    (any of the three quote characters on either side). *)
Definition call3 (n : nat) : list regex :=
  [ws; ch "("; ws; Cls false q3; Grp n (Plus (Cls true q3)); Cls false q3].

(** The same with the two quote characters. *)
Definition call2 (n : nat) : list regex :=
  [ws; ch "("; ws; Cls false q2; Grp n (Plus (Cls true q2)); Cls false q2].

Definition verbs7 : list string :=
  ["get"; "post"; "put"; "patch"; "delete"; "options"; "head"]%string.
Definition verbs5 : list string :=
  ["get"; "post"; "put"; "patch"; "delete"]%string.
Definition VERBS5 : list string :=
  ["GET"; "POST"; "PUT"; "PATCH"; "DELETE"]%string.
Definition VERBS7 : list string :=
  ["GET"; "POST"; "PUT"; "PATCH"; "DELETE"; "HEAD"; "OPTIONS"]%string.

Definition express : list RegExp :=
  [ gi (cat ([words ["app"; "router"]%string; ch "."; Grp 1 (words verbs7)]
             ++ call3 2)) 2;
    gi (cat ([words ["app"; "router"]%string; ch ".route"] ++ call3 1
             ++ [ws; ch ")"; ws; ch "."; Grp 2 (words verbs5)])) 2 ].

Definition fastify : list RegExp :=
  [ gi (cat ([ch "fastify."; Grp 1 (words verbs7)] ++ call3 2)) 2;
    gi (cat [ch ".route"; ws; ch "("; ws; ch "{"; ws; ch "method:"; ws;
             Cls false q3; Grp 1 (words VERBS5); Cls false q3; ws; ch ",";
             ws; ch "url:"; ws; Cls false q3; Grp 2 (Plus (Cls true q3));
             Cls false q3]) 2 ].

Definition hono : list RegExp :=
  [ gi (cat ([words ["app"; "hono"]%string; ch "."; Grp 1 (words verbs7)]
             ++ call3 2)) 2 ].

Definition nestjs : list RegExp :=
  [ gi (cat [ch "@";
             Grp 1 (words ["Get"; "Post"; "Put"; "Patch"; "Delete";
                           "Options"; "Head"]%string);
             ws; ch "("; ws; Opt (Cls false q3);
             Opt (Grp 2 (Star (Cls true (q3 ++ [")"%char]))));
             Opt (Cls false q3); ws; ch ")"]) 2;
    gi (cat ([ch "@Controller"] ++ call3 1 ++ [ws; ch ")"])) 1 ].

Definition nextjs : list RegExp :=
  [ gi (cat [ch "export"; ws1; Opt (Seq (ch "async") ws1); ch "function";
             ws1; Grp 1 (words VERBS7)]) 1;
    gi (cat [ch "export"; ws1; ch "const"; ws1; Grp 1 (words VERBS7); ws;
             ch "="]) 1 ].

Definition flask : list RegExp :=
  [ gi (cat ([ch "@"; words ["app"; "blueprint"; "bp"]%string; ch ".route"]
             ++ call3 1
             ++ [Opt (cat [ws; ch ","; ws; ch "methods"; ws; ch "="; ws;
                           ch "["; Grp 2 (Plus (Cls true ["]"%char]));
                           ch "]"])])) 2;
    gi (cat ([ch "@"; words ["app"; "blueprint"; "bp"]%string; ch ".";
              Grp 1 (words verbs5)] ++ call3 2)) 2 ].

Definition fastapi : list RegExp :=
  [ gi (cat ([ch "@"; words ["app"; "router"]%string; ch ".";
              Grp 1 (words verbs7)] ++ call3 2)) 2 ].

Definition django : list RegExp :=
  [ gi (cat ([ch "path"] ++ call3 1 ++ [ws; ch ","])) 1;
    gi (cat [ch "re_path"; ws; ch "("; ws; Opt (ch "r"); Cls false q3;
             Grp 1 (Plus (Cls true q3)); Cls false q3; ws; ch ","]) 1 ].

Definition go : list RegExp :=
  [ gi (cat ([ch "."; Grp 1 (words VERBS7)] ++ call2 2)) 2;
    gi (cat ([ch "HandleFunc"] ++ call2 1)) 1;
    gi (cat ([ch "Handle"] ++ call2 1)) 1;
    gi (cat ([ch "r.Route"] ++ call2 1)) 1 ].

Definition spring : list RegExp :=
  [ gi (cat [ch "@";
             Grp 1 (words ["GetMapping"; "PostMapping"; "PutMapping";
                           "PatchMapping"; "DeleteMapping"]%string);
             ws; ch "("; ws; Opt (cat [ch "value"; ws; ch "="; ws]);
             Opt (Cls false q2);
             Opt (Grp 2 (Plus (Cls true (q2 ++ [")"%char]))));
             Opt (Cls false q2); ws; ch ")"]) 2;
    gi (cat [ch "@RequestMapping"; ws; ch "("; ws;
             Opt (cat [ch "value"; ws; ch "="; ws]);
             Cls false q2; Grp 1 (Plus (Cls true q2)); Cls false q2;
             Opt (cat [ws; ch ","; ws; ch "method"; ws; ch "="; ws;
                       ch "RequestMethod."; Grp 2 (words VERBS5)])]) 2 ].

Definition rust : list RegExp :=
  [ gi (cat ([ch "#["; words verbs5] ++ call2 1 ++ [ws; ch ")]"])) 1;
    gi (cat ([ch ".route"] ++ call2 1
             ++ [ws; ch ","; ws; words verbs5; ws; ch "("])) 1 ].

Definition laravel : list RegExp :=
  [ gi (cat [ch "Route::";
             Grp 1 (words ["get"; "post"; "put"; "patch"; "delete";
                           "options"]%string);
             ws; ch "("; ws; Cls false [quote1; quote2];
             Grp 2 (Plus (Cls true [quote1; quote2]));
             Cls false [quote1; quote2]]) 2;
    gi (cat [ch "->"; words verbs5; ws; ch "("; ws;
             Cls false [quote1; quote2];
             Grp 1 (Plus (Cls true [quote1; quote2]));
             Cls false [quote1; quote2]]) 1 ].

Definition koa : list RegExp :=
  [ gi (cat ([ch "router."; Grp 1 (words verbs7)] ++ call3 2)) 2 ].

Definition isFw (fw : jsstring) (name : string) : bool := eqs fw (str name).

(** [this.patterns[framework]] *)
Definition patterns (fw : jsstring) : option (list RegExp) :=
  if isFw fw "express" then Some express
  else if isFw fw "fastify" then Some fastify
  else if isFw fw "hono" then Some hono
  else if isFw fw "nestjs" then Some nestjs
  else if isFw fw "nextjs" then Some nextjs
  else if isFw fw "flask" then Some flask
  else if isFw fw "fastapi" then Some fastapi
  else if isFw fw "django" then Some django
  else if isFw fw "go" then Some go
  else if isFw fw "spring" then Some spring
  else if isFw fw "rust" then Some rust
  else if isFw fw "laravel" then Some laravel
  else if isFw fw "koa" then Some koa
  else None.

(** *** Node's [path.extname] (POSIX) *)

Fixpoint stripSlashes (r : jsstring) : jsstring :=
  match r with
  | a :: r' => if eqc a "/" then stripSlashes r' else r
  | [] => []
  end.

(** The characters of [r] before its first ["/"]. *)
Fixpoint untilSlash (r : jsstring) : jsstring :=
  match r with
  | a :: r' => if eqc a "/" then [] else a :: untilSlash r'
  | [] => []
  end.

(** The last path component, trailing slashes ignored. *)
Definition basename (p : jsstring) : jsstring :=
  rev (untilSlash (stripSlashes (rev p))).

(** The suffix of [b] from its last dot, when the dot is not the first
    character of [b]; [acc] is [b] read so far, reversed. *)
Fixpoint lastDot (acc b : jsstring) (found : option jsstring) : option jsstring :=
  match b with
  | [] => found
  | a :: b' =>
      lastDot (a :: acc) b'
        (if eqc a "." then
           match acc with [] => None | _ :: _ => Some b end
         else found)
  end.

Definition extname (p : jsstring) : jsstring :=
  let b := basename p in
  if eqs b (str "..") then [] else default [] (lastDot [] b None).

(** *** extractPathParams *)

Definition colonRe : RegExp :=
  mkRegExp (cat [ch ":"; Grp 1 (Plus (Cls true ["/"%char]))]) false 1.
Definition bracketRe : RegExp :=
  mkRegExp (cat [Cls false ["{"; "["]%char;
                 Grp 1 (Plus (Cls true ["]"; "}"]%char));
                 Cls false ["}"; "]"]%char]) false 1.
Definition angleRe : RegExp :=
  mkRegExp (cat [ch "<"; Grp 1 (Plus (Cls true [">"%char])); ch ">"]) false 1.

Definition extractPathParams (routePath : jsstring) : list jsstring :=
  let params := [] in
  (* Express/Fastify style :param *)
  let params := params ++ map slice1 (matchG colonRe routePath) in
  (* Bracket style {param} or [param] *)
  let params := params ++ map slice1m1 (matchG bracketRe routePath) in
  (* Angle bracket style <param> *)
  let params := params ++ map slice1m1 (matchG angleRe routePath) in
  params.

(** *** extractNextJsPath *)

Definition nextPathRe : RegExp :=
  mkRegExp (cat [words ["pages"; "app"]%string;
                 Grp 1 (cat [ch "/api/"; Plus (Cls true ["."%char])])]) false 1.
Definition routeEndRe : RegExp := mkRegExp (cat [ch "/route"; Eol]) false 0.
Definition indexEndRe : RegExp := mkRegExp (cat [ch "/index"; Eol]) false 0.

Definition extractNextJsPath (filePath : jsstring) : jsstring :=
  match match1 nextPathRe filePath with
  | Some m =>
      let routePath := orElse (grp m 1) [] in
      let routePath := replace1 routeEndRe [] routePath in
      let routePath := replace1 indexEndRe [] routePath in
      orElse (Some routePath) (str "/api")
  | None => str "/api"
  end.

(** *** extractEndpointFromMatch *)

Definition quoteEndsRe : RegExp :=
  mkRegExp (Alt (Seq Bol (Cls false q3)) (Seq (Cls false q3) Eol)) false 0.
Definition anyQuoteRe : RegExp :=
  mkRegExp (Cls false [quote1; quote2]) false 0.
Definition verbRe : RegExp := mkRegExp (words verbs5) true 0.

Definition upper (x : option jsstring) : option jsstring := toUpperCase <$> x.

(** The [switch]: the method and the raw route path, or [None] where
    the branch returns [null]. *)
Definition methodAndPath (m : Match) (fw filePath : jsstring)
  : option (jsstring * jsstring) :=
  if isFw fw "express" || isFw fw "fastify" || isFw fw "hono"
     || isFw fw "koa" || isFw fw "fastapi" then
    Some (orElse (upper (grp m 1)) (str "GET"), orElse (grp m 2) (str "/"))
  else if isFw fw "nestjs" then
    let decorator := toLowerCase <$> grp m 1 in
    if bool_decide (decorator = Some (str "controller")) then
      (* Skip controller decorators, we want method decorators *)
      None
    else
      Some (orElse (toUpperCase <$> decorator) (str "GET"),
            orElse (grp m 2) (str "/"))
  else if isFw fw "nextjs" then
    Some (orElse (upper (grp m 1)) (str "GET"), extractNextJsPath filePath)
  else if isFw fw "flask" then
    let method :=
      if truthy (grp m 2) then
        (* Has methods array *)
        let methods :=
          map trim (split "," (replaceG anyQuoteRe (fun _ => [])
                                 (orElse (grp m 2) []))) in
        orElse (upper (head methods)) (str "GET")
      else orElse (upper (grp m 1)) (str "GET") in
    Some (method, orElse (grp m 1) (orElse (grp m 2) (str "/")))
  else if isFw fw "django" then
    Some (str "GET", orElse (grp m 1) (str "/"))
  else if isFw fw "go" then
    if truthy (grp m 1) && negb (startsWith (str "/") (orElse (grp m 1) []))
    then Some (toUpperCase (orElse (grp m 1) []), orElse (grp m 2) (str "/"))
    else Some (str "GET", orElse (grp m 1) (str "/"))
  else if isFw fw "spring" then
    let mapping := toLowerCase <$> grp m 1 in
    let has (v : string) :=
      match mapping with Some s => includes (str v) s | None => false end in
    let method :=
      if has "get" then str "GET"
      else if has "post" then str "POST"
      else if has "put" then str "PUT"
      else if has "patch" then str "PATCH"
      else if has "delete" then str "DELETE"
      else orElse (upper (grp m 3)) (str "GET") in
    Some (method, orElse (grp m 2) (str "/"))
  else if isFw fw "rust" then
    Some (orElse (upper (match1 verbRe (whole m) ≫= fun v => grp v 0))
            (str "GET"),
          orElse (grp m 1) (str "/"))
  else if isFw fw "laravel" then
    Some (orElse (upper (grp m 1)) (str "GET"), orElse (grp m 2) (str "/"))
  else None.

(** Clean up the path. *)
Definition cleanPath (routePath : jsstring) : jsstring :=
  let routePath := trim (replaceG quoteEndsRe (fun _ => []) routePath) in
  if startsWith (str "/") routePath then routePath else str "/" ++ routePath.

Definition extractEndpointFromMatch (m : Match) (fw filePath : jsstring)
  : option DiscoveredEndpoint :=
  match methodAndPath m fw filePath with
  | None => None
  | Some (method, routePath) =>
      let routePath := cleanPath routePath in
      let params := extractPathParams routePath in
      Some {| method := method;
              path := routePath;
              file := filePath;
              line := 0;
              framework := fw;
              params := if 0 <? length params then Some params else None |}
  end.

(** *** detectFrameworks *)

Definition has (content : jsstring) (needle : string) : bool :=
  includes (str needle) content.

Definition when (b : bool) (fw : string) : list jsstring :=
  if b then [str fw] else [].

Definition detectFrameworks (content ext : jsstring) : list jsstring :=
  (if existsb (eqs ext) (map str [".js"; ".ts"; ".jsx"; ".tsx"]%string) then
     when (has content "express" || has content "require('express')"
           || includes (str "from " ++ [quote2] ++ str "express" ++ [quote2])
                       content) "express"
     ++ when (has content "fastify" || has content "require('fastify')")
             "fastify"
     ++ when (has content "hono" || has content "from 'hono'") "hono"
     ++ when (has content "@nestjs" || has content "@Controller"
              || has content "@Get") "nestjs"
     ++ when (has content "export function GET"
              || has content "export const GET"
              || has content "export async function GET") "nextjs"
     ++ when (has content "koa-router" || has content "@koa/router") "koa"
   else [])
  ++ (if eqs ext (str ".py") then
        when (has content "flask" || has content "@app.route"
              || has content "@bp.route") "flask"
        ++ when (has content "fastapi" || has content "FastAPI"
                 || has content "@app.get") "fastapi"
        ++ when (has content "django" || has content "urlpatterns"
                 || has content "path(") "django"
      else [])
  ++ when (eqs ext (str ".go")) "go"
  ++ (if eqs ext (str ".java") then
        when (has content "@GetMapping" || has content "@PostMapping"
              || has content "@RequestMapping"
              || has content "springframework") "spring"
      else [])
  ++ when (eqs ext (str ".rs")) "rust"
  ++ (if eqs ext (str ".php") then
        when (has content "Route::" || has content "Laravel") "laravel"
      else []).

(** *** parseFileForEndpoints *)

(** The line of a match offset: line lengths, each plus one for the
    newline, are added up until the sum exceeds the offset. *)
Fixpoint lineLoop (lines : list jsstring) (i charCount matchIndex : nat) : nat :=
  match lines with
  | [] => 0
  | l :: lines' =>
      let charCount := charCount + (length l + 1) in
      if matchIndex <? charCount then i
      else lineLoop lines' (S i) charCount matchIndex
  end.

Definition newline : ascii := ascii_of_nat 10.

Definition endpointsOfPattern (content filePath fw : jsstring)
    (lines : list jsstring) (pattern : RegExp) : list DiscoveredEndpoint :=
  omap (fun m =>
          match extractEndpointFromMatch m fw filePath with
          | Some endpoint => Some (setLine endpoint (lineLoop lines 0 0 (index m)))
          | None => None
          end)
       (execAll pattern content).

Definition parseFileForEndpoints (content filePath : jsstring)
  : list DiscoveredEndpoint :=
  let lines := split newline content in
  let ext := toLowerCase (extname filePath) in
  let applicableFrameworks := detectFrameworks content ext in
  flat_map (fun fw =>
              match patterns fw with
              | None => []
              | Some frameworkPatterns =>
                  flat_map (endpointsOfPattern content filePath fw lines)
                           frameworkPatterns
              end)
           applicableFrameworks.

(** *** deduplicateEndpoints *)

Definition key (ep : DiscoveredEndpoint) : jsstring :=
  method ep ++ str ":" ++ path ep ++ str ":" ++ file ep.

Fixpoint dedupFilter (seen : gset (list ascii)) (endpoints : list DiscoveredEndpoint)
  : list DiscoveredEndpoint :=
  match endpoints with
  | [] => []
  | ep :: rest =>
      if bool_decide (key ep ∈ seen) then dedupFilter seen rest
      else ep :: dedupFilter ({[key ep]} ∪ seen) rest
  end.

Definition deduplicateEndpoints (endpoints : list DiscoveredEndpoint)
  : list DiscoveredEndpoint :=
  dedupFilter ∅ endpoints.

(** *** discoverEndpoints

    The two directory walks are given by their results: [files] lists
    the source files in the order [getAllSourceFiles] returns them,
    each with its content ([None] where reading it throws, which is
    caught and logged), and [nextjsEndpoints] is what
    [discoverNextJsRoutes] returns. *)
Definition discoverEndpoints (files : list (jsstring * option jsstring))
    (nextjsEndpoints : list DiscoveredEndpoint) : list DiscoveredEndpoint :=
  let endpoints :=
    flat_map (fun f =>
                match snd f with
                | Some content => parseFileForEndpoints content (fst f)
                | None => []
                end)
             files in
  (* Handle Next.js file-based routing *)
  let endpoints := endpoints ++ nextjsEndpoints in
  deduplicateEndpoints endpoints.

(** *** findEndpointAtPosition *)

(** A [vscode.TextDocument], as far as this file reads it. *)
Record TextDocument : Type := mkDocument {
  getText : jsstring;
  fsPath : jsstring;
}.

Definition findEndpointsInDocument (document : TextDocument)
  : list DiscoveredEndpoint :=
  parseFileForEndpoints (getText document) (fsPath document).

(** The loop state: [closestEndpoint] ([None] for [null]) and
    [closestDistance] ([None] for [Infinity]). *)
Definition closest : Type := (option DiscoveredEndpoint * option nat)%type.

Definition below (distance : nat) (closestDistance : option nat) : bool :=
  match closestDistance with
  | None => true
  | Some d => distance <? d
  end.

Definition closer (cursor : nat) (st : closest) (endpoint : DiscoveredEndpoint)
  : closest :=
  if line endpoint <=? cursor then
    let distance := cursor - line endpoint in
    if below distance (snd st) then (Some endpoint, Some distance) else st
  else st.

(** The lookup over the endpoints of the document. *)
Definition lookupAt (endpoints : list DiscoveredEndpoint) (cursor : nat)
  : option DiscoveredEndpoint :=
  match fold_left (closer cursor) endpoints (None, None) with
  | (Some closestEndpoint, Some closestDistance) =>
      (* Only return if within 10 lines of the endpoint definition *)
      if closestDistance <=? 10 then Some closestEndpoint else None
  | _ => None
  end.

Definition findEndpointAtPosition (document : TextDocument) (positionLine : nat)
  : option DiscoveredEndpoint :=
  lookupAt (findEndpointsInDocument document) positionLine.

End EndpointDiscovery.

(** ** EnvironmentManager.ts *)

Module EnvironmentManager.

(** [Environment].  The types of [name] and [variables] are parameters:
    the interface declares a string and a [Record<string, string>],
    while [importEnvironment] stores whatever [JSON.parse] produced. *)
Record Environment (N V : Type) : Type := mkEnv {
  id : jsstring;
  name : N;
  variables : V;
  isActive : bool;
  createdAt : Z;
  updatedAt : Z;
}.
Arguments mkEnv {N V}.
Arguments id {N V}.
Arguments name {N V}.
Arguments variables {N V}.
Arguments isActive {N V}.
Arguments createdAt {N V}.
Arguments updatedAt {N V}.

(** [Partial<Environment>]: [None] for an absent property. *)
Record Updates (N V : Type) : Type := mkUpdates {
  new_id : option jsstring;
  new_name : option N;
  new_variables : option V;
  new_isActive : option bool;
  new_createdAt : option Z;
  new_updatedAt : option Z;
}.
Arguments mkUpdates {N V}.
Arguments new_id {N V}.
Arguments new_name {N V}.
Arguments new_variables {N V}.
Arguments new_isActive {N V}.
Arguments new_createdAt {N V}.
Arguments new_updatedAt {N V}.

(** The state the class works on.

    [memory] is the value held by [context.globalState] under
    [STORAGE_KEY], an array of environment objects ([[]] stands for a
    missing key, for which [get] returns the default [[]]).
    [globalState.get] hands out this array itself, not a copy: an
    assignment through the array that [getEnvironments] returned, or
    through one of its elements, is an assignment to [memory].
    [saved] is the last value passed to [globalState.update].
    [time] and [draws] count the calls of [Date.now()] and
    [Math.random()] so far. *)
Record World (N V : Type) : Type := mkWorld {
  memory : list (Environment N V);
  saved : list (Environment N V);
  time : nat;
  draws : nat;
}.
Arguments mkWorld {N V}.
Arguments memory {N V}.
Arguments saved {N V}.
Arguments time {N V}.
Arguments draws {N V}.

Definition setIsActive {N V} (env : Environment N V) (b : bool) : Environment N V :=
  mkEnv (id env) (name env) (variables env) b (createdAt env) (updatedAt env).

Definition findIndex {A} (p : A -> bool) (l : list A) : option nat :=
  fst <$> list_find (fun x => p x = true) l.

(** [Date.now()] printed in a template literal. *)
Definition decimal (z : Z) : jsstring :=
  str (NilZero.string_of_int (Z.to_int z)).

(** The operations are functions of the state, run one at a time. *)
Definition St (N V A : Type) : Type := World N V -> A * World N V.

#[export] Instance St_ret {N V} : MRet (St N V) := fun A x w => (x, w).
#[export] Instance St_bind {N V} : MBind (St N V) :=
  fun A B f m w => let (x, w') := m w in f x w'.

Section Store.

Context {N V : Type}.

(** The readings of the clock and the strings
    [Math.random().toString(36).substr(2, 9)], in the order of the
    calls. *)
Variable clock : nat -> Z.
Variable random : nat -> jsstring.

Abbreviation M := (St N V).

Definition Date_now : M Z :=
  fun w => (clock (time w),
            mkWorld (memory w) (saved w) (S (time w)) (draws w)).

Definition Math_random : M jsstring :=
  fun w => (random (draws w),
            mkWorld (memory w) (saved w) (time w) (S (draws w))).

(** [this.context.globalState.get(STORAGE_KEY, [])] *)
Definition globalState_get : M (list (Environment N V)) :=
  fun w => (memory w, w).

(** An assignment through the array returned by [globalState_get]. *)
Definition assign (f : list (Environment N V) -> list (Environment N V)) : M unit :=
  fun w => (tt, mkWorld (f (memory w)) (saved w) (time w) (draws w)).

(** [this.context.globalState.update(STORAGE_KEY, environments)] *)
Definition globalState_update (environments : list (Environment N V)) : M unit :=
  fun w => (tt, mkWorld environments environments (time w) (draws w)).

Definition getEnvironments : M (list (Environment N V)) := globalState_get.

Definition getActiveEnvironment : M (option (Environment N V)) :=
  environments ← getEnvironments;
  mret (find isActive environments).

Definition generateId : M jsstring :=
  now ← Date_now;
  r ← Math_random;
  mret (str "env-" ++ decimal now ++ str "-" ++ r).

Definition createEnvironment (name : N) (variables : V) : M (Environment N V) :=
  environments ← getEnvironments;
  now ← Date_now;
  newId ← generateId;
  let newEnv :=
    {| id := newId;
       name := name;
       variables := variables;
       isActive := length environments =? 0; (* First env is active by default *)
       createdAt := now;
       updatedAt := now |} in
  assign (fun environments => environments ++ [newEnv]);;
  environments ← getEnvironments;
  globalState_update environments;;
  mret newEnv.

(** [{ ...env, ...updates, updatedAt: now }] *)
Definition merge (env : Environment N V) (updates : Updates N V) (now : Z)
  : Environment N V :=
  {| id := default (id env) (new_id updates);
     name := default (name env) (new_name updates);
     variables := default (variables env) (new_variables updates);
     isActive := default (isActive env) (new_isActive updates);
     createdAt := default (createdAt env) (new_createdAt updates);
     updatedAt := now |}.

Definition updateEnvironment (id' : jsstring) (updates : Updates N V)
  : M (option (Environment N V)) :=
  environments ← getEnvironments;
  match findIndex (fun e => eqs (id e) id') environments with
  | None => mret None
  | Some index =>
      match environments !! index with
      | None => mret None
      | Some env =>
          now ← Date_now;
          let env' := merge env updates now in
          assign (fun environments => <[index := env']> environments);;
          environments ← getEnvironments;
          globalState_update environments;;
          mret (Some env')
      end
  end.

Definition setActiveEnvironment (id' : jsstring) : M bool :=
  environments ← getEnvironments;
  let found := existsb (fun env => eqs (id env) id') environments in
  (* the loop: env.isActive is assigned on every element *)
  assign (map (fun env => setIsActive env (eqs (id env) id')));;
  if found then
    environments ← getEnvironments;
    globalState_update environments;;
    mret true
  else mret false.

Definition activateFirst (filtered : list (Environment N V))
  : list (Environment N V) :=
  match filtered with
  | [] => []
  | e :: rest => setIsActive e true :: rest
  end.

Definition deleteEnvironment (id' : jsstring) : M bool :=
  environments ← getEnvironments;
  let filtered := filter (fun e => negb (eqs (id e) id') = true) environments in
  if length filtered =? length environments then mret false
  else
    (* If we deleted the active environment, activate the first one *)
    let filtered :=
      if negb (existsb isActive filtered) && (0 <? length filtered)
      then activateFirst filtered else filtered in
    globalState_update filtered;;
    mret true.

End Store.

(** *** The declared types: a string name, a dictionary of strings *)

Abbreviation Record_ := (gmap (list ascii) (list ascii)) (only parsing).
Abbreviation Env := (Environment (list ascii) (gmap (list ascii) (list ascii))) (only parsing).

(** [parseEnvFile] *)

Definition envLineRe : RegExp :=
  mkRegExp (cat
              [Bol; Grp 1 (Plus (Cls true ["="%char])); Chr "=";
               Grp 2 (Star Dot); Eol]) false 2.

Definition isQuoted (q : ascii) (value : jsstring) : bool :=
  startsWith [q] value && endsWith [q] value.

Definition parseLine (variables : gmap (list ascii) (list ascii)) (line : jsstring)
  : gmap (list ascii) (list ascii) :=
  (* Skip comments and empty lines *)
  let trimmed := trim line in
  if negb (truthy (Some trimmed)) || startsWith (str "#") trimmed then variables
  else
    (* Parse KEY=VALUE *)
    match match1 envLineRe trimmed with
    | Some m =>
        let key := trim (orElse (grp m 1) []) in
        let value := trim (orElse (grp m 2) []) in
        (* Remove quotes if present *)
        let value :=
          if isQuoted EndpointDiscovery.quote2 value
             || isQuoted EndpointDiscovery.quote1 value
          then slice1m1 value else value in
        setProperty variables key value
    | None => variables
    end.

Definition parseEnvFile (content : jsstring) : gmap (list ascii) (list ascii) :=
  fold_left parseLine (split EndpointDiscovery.newline content) ∅.

(** [s.replace(pat, rep)] with a string pattern: the first occurrence. *)
Fixpoint replaceStr (pat rep s : jsstring) : jsstring :=
  if startsWith pat s then rep ++ drop (length pat) s
  else match s with
       | [] => []
       | a :: s' => a :: replaceStr pat rep s'
       end.

Definition envFiles : list string :=
  [".env"; ".env.local"; ".env.development"; ".env.staging";
   ".env.production"; ".env.test"]%string.

Definition mapping : list (string * string) :=
  [(".env", "Default"); (".env.local", "Local");
   (".env.development", "Development"); (".env.staging", "Staging");
   (".env.production", "Production"); (".env.test", "Test")]%string.

Definition getEnvNameFromFile (filename : jsstring) : jsstring :=
  orElse (str <$> (snd <$> find (fun p => eqs (str (fst p)) filename) mapping))
         (replaceStr (str ".env") (str "Default")
            (replaceStr (str ".env.") [] filename)).

Section Typed.

Variable clock : nat -> Z.
Variable random : nat -> jsstring.

Definition fileTag (name : jsstring) : jsstring := str "[File] " ++ name.

Definition createOrUpdateFromFile (name : jsstring)
    (variables : gmap (list ascii) (list ascii)) (sourceFile : jsstring)
  : St (list ascii) (gmap (list ascii) (list ascii)) unit :=
  environments ← getEnvironments;
  match findIndex (fun e => eqs (EnvironmentManager.name e) (fileTag name))
                  environments with
  | Some index =>
      now ← Date_now clock;
      assign (alter (fun existing =>
                       mkEnv (id existing) (EnvironmentManager.name existing)
                             variables (isActive existing)
                             (createdAt existing) now) index)
  | None =>
      t ← Date_now clock;
      created ← Date_now clock;
      updated ← Date_now clock;
      assign (fun environments =>
                environments ++
                [ {| id := str "file-" ++ sourceFile ++ str "-" ++ decimal t;
                     name := fileTag name;
                     variables := variables;
                     isActive := false;
                     createdAt := created;
                     updatedAt := updated |} ])
  end;;
  environments ← getEnvironments;
  globalState_update environments.

(** A workspace folder, as far as [loadFromEnvFiles] reads it: the
    content of each file of [envFiles] that exists and can be read. *)
Definition Folder : Type := jsstring -> option jsstring.

Definition loadFolder (folder : Folder)
  : St (list ascii) (gmap (list ascii) (list ascii)) unit :=
  fold_right
    (fun envFile rest =>
       match folder (str envFile) with
       | Some content =>
           let variables := parseEnvFile content in
           (* Create or update environment from file *)
           let envName := getEnvNameFromFile (str envFile) in
           createOrUpdateFromFile envName variables (str envFile);; rest
       | None => rest
       end)
    (mret tt) envFiles.

Definition loadFromEnvFiles (workspaceFolders : option (list Folder))
  : St (list ascii) (gmap (list ascii) (list ascii)) unit :=
  match workspaceFolders with
  | None => mret tt
  | Some folders => fold_right (fun folder rest => loadFolder folder;; rest)
                               (mret tt) folders
  end.

Definition setVars (env : Environment (list ascii) (gmap (list ascii) (list ascii)))
    (vars : gmap (list ascii) (list ascii)) (now : Z)
  : Environment (list ascii) (gmap (list ascii) (list ascii)) :=
  mkEnv (id env) (name env) vars (isActive env) (createdAt env) now.

Definition setVariable (envId key value : jsstring)
  : St (list ascii) (gmap (list ascii) (list ascii)) bool :=
  environments ← getEnvironments;
  match findIndex (fun e => eqs (id e) envId) environments with
  | None => mret false
  | Some index =>
      now ← Date_now clock;
      assign (alter (fun env => setVars env (setProperty (variables env) key value) now)
                    index);;
      environments ← getEnvironments;
      globalState_update environments;;
      mret true
  end.

Definition deleteVariable (envId key : jsstring)
  : St (list ascii) (gmap (list ascii) (list ascii)) bool :=
  environments ← getEnvironments;
  match list_find (fun e => eqs (id e) envId = true) environments with
  | None => mret false
  | Some (index, env) =>
      if negb (hasProperty (variables env) key) then mret false
      else
        now ← Date_now clock;
        assign (alter (fun env => setVars env (delete key (variables env)) now)
                      index);;
        environments ← getEnvironments;
        globalState_update environments;;
        mret true
  end.

End Typed.

(** [interpolate] *)

Definition placeholderRe : RegExp :=
  mkRegExp (Alt (cat
                   [Chr "{"; Chr "{"; Grp 1 (Plus (Cls true ["}"%char]));
                    Chr "}"; Chr "}"])
                (cat
                   [Chr "$"; Chr "{"; Grp 2 (Plus (Cls true ["}"%char]));
                    Chr "}"])) false 2.

Definition interpolate
    (w : World (list ascii) (gmap (list ascii) (list ascii)))
    (text : jsstring) (additionalVars : gmap (list ascii) (list ascii))
  : jsstring :=
  (* Get active environment variables *)
  let environments := memory w in
  let activeEnv := find isActive environments in
  let variables : gmap (list ascii) (list ascii) :=
    additionalVars ∪ default ∅ (EnvironmentManager.variables <$> activeEnv) in
  (* Replace {{variable}} and ${variable} patterns *)
  replaceG placeholderRe
    (fun m =>
       let varName := trim (orElse (grp m 1) (orElse (grp m 2) [])) in
       default (whole m) (getProperty variables varName))
    text.

(** [importEnvironment] *)

(** The values [JSON.parse] returns; a number is [m * 10 ^ e]. *)
#[local] Unset Elimination Schemes.
Inductive json : Type :=
| JNull
| JBool (b : bool)
| JNumber (m e : Z)
| JString (s : jsstring)
| JArray (items : list json)
| JObject (fields : list (jsstring * json)).
#[local] Set Elimination Schemes.

(** [data.key] for [data] other than [null]: an own property of an
    object, [undefined] otherwise. *)
Definition prop (data : json) (key : string) : option json :=
  match data with
  | JObject fields => snd <$> find (fun p => eqs (fst p) (str key)) fields
  | _ => None
  end.

Definition truthyJson (v : option json) : bool :=
  match v with
  | None | Some JNull => false
  | Some (JBool b) => b
  | Some (JNumber m _) => negb (m =? 0)%Z
  | Some (JString s) => truthy (Some s)
  | Some (JArray _) | Some (JObject _) => true
  end.

Section ImportJson.

Variable clock : nat -> Z.
Variable random : nat -> jsstring.

(** [JSON.parse]: [None] where it throws a SyntaxError. *)
Variable JSON_parse : jsstring -> option json.

Definition importEnvironment (jsonData : jsstring)
  : St json json (option (Environment json json)) :=
  match JSON_parse jsonData with
  | None => mret None
  | Some JNull => mret None (* reading a property of null throws *)
  | Some data =>
      match prop data "name", prop data "variables" with
      | Some name, Some variables =>
          if negb (truthyJson (Some name)) || negb (truthyJson (Some variables))
          then mret None
          else env ← createEnvironment clock random name variables;
               mret (Some env)
      | _, _ => mret None
      end
  end.

End ImportJson.

End EnvironmentManager.

(** ** EndpointDiscovery.ts: the walks over the file system *)

Module FileWalk.

Import EndpointDiscovery.

(** What [fs.readdirSync(path, { withFileTypes: true })] lists: a
    file with what [fs.readFileSync] gives for it, a directory with
    its own entries ([None] where reading throws), or an entry that
    is neither a file nor a directory. *)
#[local] Unset Elimination Schemes.
Inductive Dirent : Type :=
| FileEntry (name : jsstring) (content : option jsstring)
| DirEntry (name : jsstring) (entries : option (list Dirent))
| OtherEntry (name : jsstring).
#[local] Set Elimination Schemes.

Definition extensions : list jsstring :=
  map str [".js"; ".ts"; ".jsx"; ".tsx"; ".py"; ".go"; ".java"; ".rs"; ".php"]%string.
Definition ignoreDirs : list jsstring :=
  map str ["node_modules"; ".git"; "dist"; "build"; "__pycache__"; "vendor";
           "target"]%string.

Definition routeFileRe : RegExp :=
  mkRegExp (cat [Bol; ch "route."; Grp 1 (words ["js"; "ts"; "jsx"; "tsx"]%string); Eol])
           false 1.
Definition routeEndingRe : RegExp :=
  mkRegExp (cat [ch "/route."; Cls false ["j"; "t"]%char; ch "s"; Opt (ch "x"); Eol])
           false 0.

(** [re.test(s)] for a RegExp without the [g] flag. *)
Definition test (re : RegExp) (s : jsstring) : bool :=
  bool_decide (is_Some (search re 0 s)).

Definition methods : list jsstring :=
  map str ["GET"; "POST"; "PUT"; "PATCH"; "DELETE"; "HEAD"; "OPTIONS"]%string.

Section Walks.

(** [path.join(currentPath, entry.name)] *)
Variable join : jsstring -> jsstring -> jsstring.

(** [walkDir] of [getAllSourceFiles]: the files pushed while the
    directory [currentPath] is read, [entries] being what
    [readdirSync] lists for it. *)
Fixpoint walkEntry (currentPath : jsstring) (entry : Dirent) {struct entry}
  : list jsstring :=
  let fullPath := join currentPath
                    (match entry with
                     | FileEntry name _ | DirEntry name _ | OtherEntry name => name
                     end) in
  match entry with
  | DirEntry name entries =>
      if negb (existsb (eqs name) ignoreDirs) && negb (startsWith (str ".") name) then
        match entries with
        | Some entries =>
            (fix walk (entries : list Dirent) : list jsstring :=
               match entries with
               | [] => []
               | entry :: rest => walkEntry fullPath entry ++ walk rest
               end) entries
        | None => [] (* the error is caught and logged *)
        end
      else []
  | FileEntry name _ =>
      let ext := toLowerCase (extname name) in
      if existsb (eqs ext) extensions then [fullPath] else []
  | OtherEntry _ => []
  end.

Definition walkDir (currentPath : jsstring) (entries : option (list Dirent))
  : list jsstring :=
  match entries with
  | Some entries => flat_map (walkEntry currentPath) entries
  | None => []
  end.

Definition getAllSourceFiles (dirPath : jsstring) (entries : option (list Dirent))
  : list jsstring :=
  walkDir dirPath entries.

(** [walkNextJsApiDir].  The loop over the entries of a directory
    runs inside one [try]: when reading a route file throws, the
    endpoints found so far in this directory are returned and the
    entries that follow are not visited. *)
Definition routeEndpoints (basePath fullPath content : jsstring)
  : list DiscoveredEndpoint :=
  let relativePath :=
    replace1 routeEndingRe [] (EnvironmentManager.replaceStr basePath [] fullPath) in
  let apiPath := str "/api" ++ orElse (Some relativePath) [] in
  flat_map
    (fun method =>
       if includes (str "export function " ++ method) content
          || includes (str "export async function " ++ method) content
          || includes (str "export const " ++ method) content
       then [ {| method := method;
                 path := apiPath;
                 file := fullPath;
                 line := 0;
                 framework := str "nextjs";
                 params := Some (extractPathParams apiPath) |} ]
       else [])
    methods.

Fixpoint walkNextJsEntry (basePath currentPath : jsstring) (entry : Dirent)
    {struct entry} : option (list DiscoveredEndpoint) :=
  let fullPath := join currentPath
                    (match entry with
                     | FileEntry name _ | DirEntry name _ | OtherEntry name => name
                     end) in
  match entry with
  | DirEntry name entries =>
      Some
        match entries with
        | Some entries =>
            (fix walk (entries : list Dirent) : list DiscoveredEndpoint :=
               match entries with
               | [] => []
               | entry :: rest =>
                   match walkNextJsEntry basePath fullPath entry with
                   | Some endpoints => endpoints ++ walk rest
                   | None => []
                   end
               end) entries
        | None => []
        end
  | FileEntry name content =>
      if test routeFileRe name then
        match content with
        | Some content => Some (routeEndpoints basePath fullPath content)
        | None => None (* readFileSync throws *)
        end
      else Some []
  | OtherEntry _ => Some []
  end.

Fixpoint walkEntries (basePath currentPath : jsstring) (entries : list Dirent)
  : list DiscoveredEndpoint :=
  match entries with
  | [] => []
  | entry :: rest =>
      match walkNextJsEntry basePath currentPath entry with
      | Some endpoints => endpoints ++ walkEntries basePath currentPath rest
      | None => []
      end
  end.

Definition walkNextJsApiDir (basePath currentPath : jsstring)
    (entries : option (list Dirent)) : list DiscoveredEndpoint :=
  match entries with
  | Some entries => walkEntries basePath currentPath entries
  | None => []
  end.

End Walks.

End FileWalk.

(** ** RequestHistory.ts *)

Module RequestHistory.

Import EnvironmentManager.

(** [SavedRequest].  [others] holds the own properties other than
    [id], [method], [url], [createdAt] and [updatedAt] ([name],
    [headers], [body], [bodyType], [auth], [response],
    [collectionId]), whatever their values. *)
Record SavedRequest (V : Type) : Type := mkRequest {
  r_id : jsstring;
  r_method : jsstring;
  r_url : jsstring;
  r_createdAt : Z;
  r_updatedAt : Z;
  r_others : gmap (list ascii) V;
}.
Arguments mkRequest {V}.
Arguments r_id {V}.
Arguments r_method {V}.
Arguments r_url {V}.
Arguments r_createdAt {V}.
Arguments r_updatedAt {V}.
Arguments r_others {V}.

(** [Omit<SavedRequest, 'id' | 'createdAt' | 'updatedAt'>] *)
Record RequestInput (V : Type) : Type := mkInput {
  in_method : jsstring;
  in_url : jsstring;
  in_others : gmap (list ascii) V;
}.
Arguments mkInput {V}.
Arguments in_method {V}.
Arguments in_url {V}.
Arguments in_others {V}.

(** [Partial<SavedRequest>]: [None] for an absent property. *)
Record RequestUpdates (V : Type) : Type := mkRequestUpdates {
  u_id : option jsstring;
  u_method : option jsstring;
  u_url : option jsstring;
  u_createdAt : option Z;
  u_updatedAt : option Z;
  u_others : gmap (list ascii) V;
}.
Arguments mkRequestUpdates {V}.
Arguments u_id {V}.
Arguments u_method {V}.
Arguments u_url {V}.
Arguments u_createdAt {V}.
Arguments u_updatedAt {V}.
Arguments u_others {V}.

(** [RequestCollection]; [description] is [None] for [undefined]. *)
Record RequestCollection : Type := mkCollection {
  c_id : jsstring;
  c_name : jsstring;
  c_description : option jsstring;
  c_requests : list jsstring; (* Request IDs *)
  c_createdAt : Z;
  c_updatedAt : Z;
}.

(** [RequestHistoryEntry]; [h_entry] holds the properties given by
    the caller ([request], [response]). *)
Record RequestHistoryEntry (E : Type) : Type := mkEntry {
  h_id : jsstring;
  h_timestamp : Z;
  h_entry : E;
}.
Arguments mkEntry {E}.
Arguments h_id {E}.
Arguments h_timestamp {E}.
Arguments h_entry {E}.

(** The values held by [context.globalState] under the three storage
    keys ([[]] for a missing key), and the numbers of calls of
    [Date.now()] and [Math.random()] so far.  Every operation that
    changes an array it got from [globalState.get] passes it to
    [globalState.update] before it returns. *)
Record Store (V E : Type) : Type := mkStore {
  REQUESTS : list (SavedRequest V);
  COLLECTIONS : list RequestCollection;
  HISTORY : list (RequestHistoryEntry E);
  now_calls : nat;
  random_calls : nat;
}.
Arguments mkStore {V E}.
Arguments REQUESTS {V E}.
Arguments COLLECTIONS {V E}.
Arguments HISTORY {V E}.
Arguments now_calls {V E}.
Arguments random_calls {V E}.

Definition Op (V E A : Type) : Type := Store V E -> A * Store V E.

#[export] Instance Op_ret {V E} : MRet (Op V E) := fun A x s => (x, s).
#[export] Instance Op_bind {V E} : MBind (Op V E) :=
  fun A B f m s => let (x, s') := m s in f x s'.

Section Operations.

Context {V E : Type}.
Variable clock : nat -> Z.
Variable random : nat -> jsstring.

Definition now : Op V E Z :=
  fun s => (clock (now_calls s),
            mkStore (REQUESTS s) (COLLECTIONS s) (HISTORY s)
                    (S (now_calls s)) (random_calls s)).

Definition draw : Op V E jsstring :=
  fun s => (random (random_calls s),
            mkStore (REQUESTS s) (COLLECTIONS s) (HISTORY s)
                    (now_calls s) (S (random_calls s))).

Definition updateRequests (requests : list (SavedRequest V)) : Op V E unit :=
  fun s => (tt, mkStore requests (COLLECTIONS s) (HISTORY s)
                        (now_calls s) (random_calls s)).

Definition updateCollections (collections : list RequestCollection) : Op V E unit :=
  fun s => (tt, mkStore (REQUESTS s) collections (HISTORY s)
                        (now_calls s) (random_calls s)).

Definition updateHistory (history : list (RequestHistoryEntry E)) : Op V E unit :=
  fun s => (tt, mkStore (REQUESTS s) (COLLECTIONS s) history
                        (now_calls s) (random_calls s)).

Definition generateId : Op V E jsstring :=
  t ← now;
  r ← draw;
  mret (decimal t ++ str "-" ++ r).

(** *** Saved Requests *)

Definition getSavedRequests : Op V E (list (SavedRequest V)) :=
  fun s => (REQUESTS s, s).

Definition sameRequest (request : RequestInput V) (r : SavedRequest V) : bool :=
  eqs (r_method r) (in_method request) && eqs (r_url r) (in_url request).

Definition saveRequest (request : RequestInput V) : Op V E (SavedRequest V) :=
  requests ← getSavedRequests;
  t ← now;
  (* Check if request with same method and URL already exists *)
  match list_find (fun r => sameRequest request r = true) requests with
  | Some (existingIndex, existing) =>
      (* Update existing request *)
      let updated :=
        {| r_id := r_id existing; (* Keep the same ID *)
           r_method := in_method request;
           r_url := in_url request;
           r_createdAt := r_createdAt existing; (* Keep original creation time *)
           r_updatedAt := t;
           r_others := in_others request ∪ r_others existing |} in
      updateRequests (<[existingIndex := updated]> requests);;
      mret updated
  | None =>
      (* Create new request *)
      newId ← generateId;
      let newRequest :=
        {| r_id := newId;
           r_method := in_method request;
           r_url := in_url request;
           r_createdAt := t;
           r_updatedAt := t;
           r_others := in_others request |} in
      updateRequests (requests ++ [newRequest]);;
      mret newRequest
  end.

Definition updateRequest (id : jsstring) (updates : RequestUpdates V)
  : Op V E (option (SavedRequest V)) :=
  requests ← getSavedRequests;
  match list_find (fun r => eqs (r_id r) id = true) requests with
  | None => mret None
  | Some (index, r) =>
      t ← now;
      let updated :=
        {| r_id := default (r_id r) (u_id updates);
           r_method := default (r_method r) (u_method updates);
           r_url := default (r_url r) (u_url updates);
           r_createdAt := default (r_createdAt r) (u_createdAt updates);
           r_updatedAt := t;
           r_others := u_others updates ∪ r_others r |} in
      updateRequests (<[index := updated]> requests);;
      mret (Some updated)
  end.

Definition deleteRequest (id : jsstring) : Op V E bool :=
  requests ← getSavedRequests;
  let filtered := filter (fun r => negb (eqs (r_id r) id) = true) requests in
  if length filtered =? length requests then mret false
  else updateRequests filtered;; mret true.

(** *** Collections *)

Definition getCollections : Op V E (list RequestCollection) :=
  fun s => (COLLECTIONS s, s).

Definition createCollection (name : jsstring) (description : option jsstring)
  : Op V E RequestCollection :=
  collections ← getCollections;
  t ← now;
  newId ← generateId;
  let newCollection :=
    {| c_id := newId;
       c_name := name;
       c_description := description;
       c_requests := [];
       c_createdAt := t;
       c_updatedAt := t |} in
  updateCollections (collections ++ [newCollection]);;
  mret newCollection.

Definition addToCollection (collectionId requestId : jsstring) : Op V E bool :=
  collections ← getCollections;
  match list_find (fun c => eqs (c_id c) collectionId = true) collections with
  | None => mret false
  | Some (index, collection) =>
      if negb (existsb (eqs requestId) (c_requests collection)) then
        t ← now;
        let collection :=
          {| c_id := c_id collection;
             c_name := c_name collection;
             c_description := c_description collection;
             c_requests := c_requests collection ++ [requestId];
             c_createdAt := c_createdAt collection;
             c_updatedAt := t |} in
        updateCollections (<[index := collection]> collections);;
        mret true
      else mret true
  end.

Definition removeFromCollection (collectionId requestId : jsstring) : Op V E bool :=
  collections ← getCollections;
  match list_find (fun c => eqs (c_id c) collectionId = true) collections with
  | None => mret false
  | Some (index, collection) =>
      t ← now;
      let collection :=
        {| c_id := c_id collection;
           c_name := c_name collection;
           c_description := c_description collection;
           c_requests :=
             filter (fun id => negb (eqs id requestId) = true) (c_requests collection);
           c_createdAt := c_createdAt collection;
           c_updatedAt := t |} in
      updateCollections (<[index := collection]> collections);;
      mret true
  end.

Definition deleteCollection (id : jsstring) : Op V E bool :=
  collections ← getCollections;
  let filtered := filter (fun c => negb (eqs (c_id c) id) = true) collections in
  if length filtered =? length collections then mret false
  else updateCollections filtered;; mret true.

(** *** History *)

(** [history.slice(0, limit)] for an integer [limit]: a negative
    [limit] counts from the end. *)
Definition slice0 {A} (l : list A) (limit : Z) : list A :=
  if (limit <? 0)%Z then take (length l - Z.to_nat (- limit)) l
  else take (Z.to_nat limit) l.

(** [getHistory(limit)]; [None] stands for a call without argument,
    for which [limit] is 50. *)
Definition getHistory (limit : option Z) : Op V E (list (RequestHistoryEntry E)) :=
  fun s => (slice0 (HISTORY s) (default 50%Z limit), s).

Definition addToHistory (entry : E) : Op V E (RequestHistoryEntry E) :=
  history ← getHistory (Some 100%Z);
  newId ← generateId;
  timestamp ← now;
  let newEntry := {| h_id := newId; h_timestamp := timestamp; h_entry := entry |} in
  (* Add to beginning (most recent first) *)
  let history := newEntry :: history in
  (* Keep only last 100 entries *)
  let trimmed := slice0 history 100 in
  updateHistory trimmed;;
  mret newEntry.

Definition clearHistory : Op V E unit := updateHistory [].

Definition deleteHistoryEntry (id : jsstring) : Op V E bool :=
  history ← getHistory (Some 100%Z);
  let filtered := filter (fun h => negb (eqs (h_id h) id) = true) history in
  if length filtered =? length history then mret false
  else updateHistory filtered;; mret true.

End Operations.

End RequestHistory.

(** * Properties *)

(** ** Notions used in the statements and proofs *)

Module Aux.

(** A continuation is reached from index [i] with input [s] when it is
    called at some index [i' >= i] on the input from [i']. *)
Definition reaches (i : nat) (s : jsstring) (k : cont)
    (res : nat * list ascii * list (option (list ascii))) : Prop :=
  exists i' c', i <= i' /\ i' - i <= length s
                /\ k i' (drop (i' - i) s) c' = Some res.

(** The least number of characters a match of [r] consumes. *)
Fixpoint min_len (r : regex) : nat :=
  match r with
  | Eps | Bol | Eol | Star _ | Opt _ => 0
  | Chr _ | Cls _ _ => 1
  | Seq a b => min_len a + min_len b
  | Alt a b => Nat.min (min_len a) (min_len b)
  | Plus a | Grp _ a => min_len a
  end.

(** A continuation is reached from index [i] with input [s], at least
    [n] characters further, when it is called at some index
    [i' >= i + n] on the input from [i']. *)
Definition advances (n i : nat) (s : list ascii) (k : cont)
    (res : nat * list ascii * list (option (list ascii))) : Prop :=
  exists i' c', i + n <= i' /\ i' - i <= length s
                /\ k i' (drop (i' - i) s) c' = Some res.

(** Patterns without [^]. *)
Fixpoint bol_free (r : regex) : bool :=
  match r with
  | Bol => false
  | Seq a b | Alt a b => bol_free a && bol_free b
  | Star a | Plus a | Opt a | Grp _ a => bol_free a
  | _ => true
  end.

Definition shiftr (d : nat)
    (res : option (nat * list ascii * list (option (list ascii))))
  : option (nat * list ascii * list (option (list ascii))) :=
  match res with
  | Some (j, s, c) => Some (d + j, s, c)
  | None => None
  end.

Definition shifted (d : nat) (k k' : cont) : Prop :=
  forall j s c, k' (d + j) s c = shiftr d (k j s c).

(** A match moved [d] code units to the right. *)
Definition shiftm (d : nat) (m : Match) : Match :=
  mkMatch (d + index m) (d + lastIndex m) (after m) (arr m).

(** The length of the longest prefix of [s] whose characters satisfy [p]. *)
Fixpoint spanLen (p : ascii -> bool) (s : jsstring) : nat :=
  match s with
  | a :: s' => if p a then S (spanLen p s') else 0
  | [] => 0
  end.

(** A continuation that fails in front of every character satisfying
    [p], or that never fails: after a greedy run of [p], only the
    longest run is ever accepted. *)
Definition settles (p : ascii -> bool) (k : cont) : Prop :=
  (forall i a s c, p a = true -> k i (a :: s) c = None)
  \/ (forall i s c, k i s c <> None).

(** Patterns of the shape [openers (class+) closers], where every
    opener and closer is a test on one character and the run of the
    class is the capturing group [n]. *)
Inductive atom : Type :=
| AChr (x : ascii)
| ACls (neg : bool) (cs : list ascii).

Definition atom_re (a : atom) : regex :=
  match a with
  | AChr x => Chr x
  | ACls neg cs => Cls neg cs
  end.

Definition atom_ok (ic : bool) (a : atom) (x : ascii) : bool :=
  match a with
  | AChr y => chr_ok ic y x
  | ACls neg cs => cls_ok ic neg cs x
  end.

(** The input left when the characters of [s] pass the tests [ats] one
    by one. *)
Fixpoint atoms_ok (ic : bool) (ats : list atom) (s : jsstring) : option jsstring :=
  match ats with
  | [] => Some s
  | a :: ats' =>
      match s with
      | x :: s' => if atom_ok ic a x then atoms_ok ic ats' s' else None
      | [] => None
      end
  end.

Definition delimited (openers : list atom) (n : nat) (neg : bool)
    (cs : list ascii) (closers : list atom) : regex :=
  cat
    (map atom_re openers ++ Grp n (Plus (Cls neg cs)) :: map atom_re closers).

(** The closers cannot start inside the run. *)
Definition closes (ic neg : bool) (cs : list ascii) (closers : list atom) : Prop :=
  match closers with
  | [] => True
  | a :: _ => forall x, cls_ok ic neg cs x = true -> atom_ok ic a x = false
  end.

End Aux.

Import Aux.

(** ** Keys of endpoints *)

Module DedupSpec.

Import EndpointDiscovery.

Definition triple (ep : DiscoveredEndpoint) : list ascii * list ascii * list ascii :=
  (method ep, path ep, file ep).

(** Neither the method nor the file name contains a colon. *)
Definition colonFree (ep : DiscoveredEndpoint) : bool :=
  negb (existsb (eqc ":") (method ep)) && negb (existsb (eqc ":") (file ep)).

(** Two endpoints of different files whose key strings coincide. *)
Definition routeWithColon : DiscoveredEndpoint :=
  mkEndpoint (str "GET") (str "/a:/w/b") (str "/w/x.js") 0 (str "express") None.
Definition fileWithColon : DiscoveredEndpoint :=
  mkEndpoint (str "GET") (str "/a") (str "/w/b:/w/x.js") 0 (str "express") None.

End DedupSpec.

(** ** Route paths made of segments

    A path is a sequence of segments, each after a slash: plain text,
    or one parameter in one of the syntaxes; words and names are free
    of the characters that delimit parameters. *)

Module PathSpec.

Inductive segment : Type :=
| Plain (w : list ascii)
| Colon (n : list ascii)
| Curly (n : list ascii)
| Square (n : list ascii)
| Angle (n : list ascii).

Definition special : list ascii := str "/:{}[]<>".

Definition isPlain (a : ascii) : bool := negb (existsb (eqc a) special).

Definition word (w : list ascii) : bool := forallb isPlain w.

Definition wf (s : segment) : bool :=
  match s with
  | Plain w => word w
  | Colon n | Curly n | Square n | Angle n => word n && (0 <? length n)
  end.

Definition render (s : segment) : list ascii :=
  match s with
  | Plain w => w
  | Colon n => str ":" ++ n
  | Curly n => str "{" ++ n ++ str "}"
  | Square n => str "[" ++ n ++ str "]"
  | Angle n => str "<" ++ n ++ str ">"
  end.

Definition renderPath (segs : list segment) : list ascii :=
  flat_map (fun s => str "/" ++ render s) segs.

Definition colonNames (segs : list segment) : list (list ascii) :=
  omap (fun s => match s with Colon n => Some n | _ => None end) segs.
Definition bracketNames (segs : list segment) : list (list ascii) :=
  omap (fun s => match s with Curly n | Square n => Some n | _ => None end) segs.
Definition angleNames (segs : list segment) : list (list ascii) :=
  omap (fun s => match s with Angle n => Some n | _ => None end) segs.

(** The names in their order of appearance. *)
Definition paramNames (segs : list segment) : list (list ascii) :=
  omap (fun s => match s with
                 | Plain _ => None
                 | Colon n | Curly n | Square n | Angle n => Some n
                 end) segs.

Definition bracketTexts (segs : list segment) : list (list ascii) :=
  omap (fun s => match s with
                 | Curly n => Some (str "{" ++ n ++ str "}")
                 | Square n => Some (str "[" ++ n ++ str "]")
                 | _ => None end) segs.

End PathSpec.
Import PathSpec.

(** ** Fixtures *)

Module Fixtures.

Import EndpointDiscovery PathSpec.

(** The fields compared by the claim. *)
Definition summary (ep : DiscoveredEndpoint) : string * string * string :=
  (string_of_list_ascii (method ep), string_of_list_ascii (path ep),
   string_of_list_ascii (framework ep)).

Definition dq : list ascii := [quote2].

Definition flaskInline : list ascii := str "@app.get('/users')".

(** A path that mixes two syntaxes. *)
Definition mixed : list segment :=
  [Plain (str "users"); Curly (str "id"); Plain (str "posts"); Colon (str "postId")].

(** The same route found in two files, once more in the first. *)
Definition getUsers (file : string) (line : nat) : DiscoveredEndpoint :=
  mkEndpoint (str "GET") (str "/users/:id") (str file) line (str "express") None.

(** A line of an environment file with a quoted value. *)
Definition keyLine : list ascii :=
  str "KEY=" ++ dq ++ str "value with spaces" ++ dq.

End Fixtures.

(** ** Notions about the environment store and its texts *)

Module EnvSpec.

Import EnvironmentManager.

Section StoreSpec.
Context {N V : Type}.

Fixpoint activeCount (envs : list (Environment N V)) : nat :=
  match envs with
  | [] => 0
  | e :: rest => (if isActive e then 1 else 0) + activeCount rest
  end.

Definition ids (envs : list (Environment N V)) : list (list ascii) := id <$> envs.
End StoreSpec.

(** Two environments, the first one active. *)
Definition envA : Environment (list ascii) (gmap (list ascii) (list ascii)) :=
  mkEnv (str "a") (str "Local") {[ str "BASE_URL" := str "http://x" ]} true 0 0.
Definition envB : Environment (list ascii) (gmap (list ascii) (list ascii)) :=
  mkEnv (str "b") (str "Staging") ∅ false 0 0.
Definition twoEnvs : World (list ascii) (gmap (list ascii) (list ascii)) :=
  mkWorld [envA; envB] [envA; envB] 0 0.
Definition activate : Updates (list ascii) (gmap (list ascii) (list ascii)) :=
  mkUpdates None None None (Some true) None None.

(** [JSON.parse] on the inputs used below. *)
Definition quoted (s : string) : list ascii :=
  [EndpointDiscovery.quote2] ++ str s ++ [EndpointDiscovery.quote2].

Definition emptyNameText : list ascii :=
  str "{" ++ quoted "name" ++ str ":" ++ quoted "" ++ str ","
  ++ quoted "variables" ++ str ":{}}".
Definition emptyNameData : json :=
  JObject [(str "name", JString []); (str "variables", JObject [])].

Definition devText : list ascii :=
  str "{" ++ quoted "name" ++ str ":" ++ quoted "Dev" ++ str ","
  ++ quoted "variables" ++ str ":{" ++ quoted "K" ++ str ":" ++ quoted "v" ++ str "}}".
Definition devData : json :=
  JObject [(str "name", JString (str "Dev"));
           (str "variables", JObject [(str "K", JString (str "v"))])].

Definition parseSamples (text : list ascii) : option json :=
  if eqs text emptyNameText then Some emptyNameData
  else if eqs text devText then Some devData
  else if eqs text (str "null") then Some JNull
  else None.

Definition emptyWorld : World json json := mkWorld [] [] 0 0.

Definition notEq (a : ascii) : bool := cls_ok false true ["="%char] a.
Definition inLine (a : ascii) : bool := cls_ok false true [ascii_of_nat 10; ascii_of_nat 13] a.

Definition LF : ascii := ascii_of_nat 10.
Definition CR : ascii := ascii_of_nat 13.

Definition curly (inner : list ascii) : list ascii := str "{{" ++ inner ++ str "}}".
Definition dollar (inner : list ascii) : list ascii := str "${" ++ inner ++ str "}".

(** A placeholder starts at the head of [s]. *)
Definition opens (s : list ascii) : Prop :=
  exists inner rest, inner <> [] /\ ("}"%char ∉ inner)
                     /\ (s = curly inner ++ rest \/ s = dollar inner ++ rest).

Definition curlyRe : RegExp :=
  mkRegExp (delimited [AChr "{"; AChr "{"] 1 true ["}"%char] [AChr "}"; AChr "}"]) false 2.
Definition dollarRe : RegExp :=
  mkRegExp (delimited [AChr "$"; AChr "{"] 2 true ["}"%char] [AChr "}"]) false 2.

End EnvSpec.

(** ** Notions for the lines of a file and the frameworks looked for *)

Module LineSpec.
Import EndpointDiscovery.

(** The number of newline characters among the first [i] code units. *)
Fixpoint newlinesBefore (content : list ascii) (i : nat) : nat :=
  match i, content with
  | S i', a :: content' =>
      (if eqc a newline then 1 else 0) + newlinesBefore content' i'
  | _, _ => 0
  end.

End LineSpec.

Module DetectSpec.
Import EndpointDiscovery.

(** The extensions of the files in which frameworks are looked for. *)
Definition sourceExtensions : list (list ascii) :=
  map str [".js"; ".ts"; ".jsx"; ".tsx"; ".py"; ".go"; ".java"; ".rs"; ".php"]%string.

(** The extensions of the files in which a framework is looked for. *)
Definition extensionsOf (fw : list ascii) : list (list ascii) :=
  if existsb (isFw fw) ["express"; "fastify"; "hono"; "nestjs"; "nextjs"; "koa"]%string
  then map str [".js"; ".ts"; ".jsx"; ".tsx"]%string
  else if existsb (isFw fw) ["flask"; "fastapi"; "django"]%string then [str ".py"]
  else if isFw fw "go" then [str ".go"]
  else if isFw fw "spring" then [str ".java"]
  else if isFw fw "rust" then [str ".rs"]
  else if isFw fw "laravel" then [str ".php"]
  else [].

(** The endpoints of the files that could be read, file after file. *)
Definition parsed (files : list (list ascii * option (list ascii)))
  : list DiscoveredEndpoint :=
  flat_map (fun f => match snd f with
                     | Some content => parseFileForEndpoints content (fst f)
                     | None => []
                     end) files.

End DetectSpec.

(** ** Notions for the routes of the Next.js routers *)

Module NextSpec.
Import EndpointDiscovery.

Definition notDot (a : ascii) : bool := cls_ok false true ["."%char] a.

(** The route found after a directory name: [/api/] and the characters
    up to the first dot, at least one. *)
Definition apiRoute (s : list ascii) : option (list ascii) :=
  if startsWith (str "/api/") s then
    match spanLen notDot (drop 5 s) with
    | 0 => None
    | S n => Some (take (5 + S n) s)
    end
  else None.

(** The group of [nextPathRe]. *)
Definition apiGroup : regex :=
  Grp 1 (cat [ch "/api/"; Plus (Cls true ["."%char])]).

(** A pattern [w$] for a literal [w]. *)
Definition suffixRe (w : list ascii) : RegExp := mkRegExp (cat [lit w; Eol]) false 0.

(** [s] without its suffix [w], [s] itself when it does not end with [w]. *)
Definition removeSuffix (w s : list ascii) : list ascii :=
  if endsWith w s then take (length s - length w) s else s.

End NextSpec.

(** ** Notions for the walks over the file system *)

Module WalkSpec.
Import EndpointDiscovery FileWalk.

(** The file [name], for which reading gives [content], is held by
    the directories [dirs], one inside the other, each of them
    readable, the first of them an entry of [entries]. *)
Inductive Holds
  : list Dirent -> list (list ascii) -> list ascii -> option (list ascii) -> Prop :=
| holds_file entries name content :
    FileEntry name content ∈ entries -> Holds entries [] name content
| holds_dir entries dir inner dirs name content :
    DirEntry dir (Some inner) ∈ entries -> Holds inner dirs name content ->
    Holds entries (dir :: dirs) name content.

(** The path of [name] in the directories [dirs] below [root], as the
    walks build it. *)
Definition joined (join : list ascii -> list ascii -> list ascii)
    (root : list ascii) (dirs : list (list ascii)) (name : list ascii) : list ascii :=
  join (fold_left join dirs root) name.

(** The directories [dirs] written as a path. *)
Definition segments (dirs : list (list ascii)) : list ascii :=
  concat ((fun d => str "/" ++ d) <$> dirs).

(** [dirs] and [name] below [root], written as a path. *)
Definition below (root : list ascii) (dirs : list (list ascii)) (name : list ascii)
  : list ascii :=
  root ++ segments dirs ++ str "/" ++ name.

(** A directory that the walk over the source files enters. *)
Definition visited (dir : list ascii) : Prop :=
  (dir ∉ ignoreDirs) /\ startsWith (str ".") dir = false.

(** The names of the route files. *)
Definition routeNames : list (list ascii) :=
  map str ["route.js"; "route.ts"; "route.jsx"; "route.tsx"]%string.

Definition routeEndings : list (list ascii) := map (fun n => str "/" ++ n) routeNames.

(** The file exports a handler of the method. *)
Definition exports (content method : list ascii) : bool :=
  includes (str "export function " ++ method) content
  || includes (str "export async function " ++ method) content
  || includes (str "export const " ++ method) content.

(** The endpoint reported for a handler of [method] in the route
    file [name] of the directories [dirs] below [basePath]. *)
Definition routeOf (basePath : list ascii) (dirs : list (list ascii))
    (name method : list ascii) : DiscoveredEndpoint :=
  {| method := method;
     path := str "/api" ++ segments dirs;
     file := below basePath dirs name;
     line := 0;
     framework := str "nextjs";
     params := Some (extractPathParams (str "/api" ++ segments dirs)) |}.

(** [path.join] as a slash put between its arguments. *)
Definition slashJoin (currentPath name : list ascii) : list ascii :=
  currentPath ++ str "/" ++ name.

(** The entries of an [api] directory: [users/route.ts] with a handler
    of [GET]. *)
Definition usersRoute : list Dirent :=
  [DirEntry (str "users")
     (Some [FileEntry (str "route.ts") (Some (str "export async function GET() {}"))])].

(** Induction over a directory tree, with the property known for the
    entries of a directory. *)
Section Ind.
Variable P : Dirent -> Prop.
Hypothesis Hfile : forall name content, P (FileEntry name content).
Hypothesis Hdir : forall name entries, Forall P entries -> P (DirEntry name (Some entries)).
Hypothesis Hnone : forall name, P (DirEntry name None).
Hypothesis Hother : forall name, P (OtherEntry name).

Fixpoint Dirent_nested_ind (entry : Dirent) : P entry :=
  match entry with
  | FileEntry name content => Hfile name content
  | DirEntry name (Some entries) =>
      Hdir name entries
        ((fix go (entries : list Dirent) : Forall P entries :=
            match entries with
            | [] => @List.Forall_nil Dirent P
            | e :: rest => @List.Forall_cons Dirent P e rest (Dirent_nested_ind e) (go rest)
            end) entries)
  | DirEntry name None => Hnone name
  | OtherEntry name => Hother name
  end.
End Ind.

End WalkSpec.

(** ** Notions for the environments of the files and their variables *)

Module LoadSpec.
Import EnvironmentManager.

(** Some stored environment has the name [tag] and the variables [vars]. *)
Definition bound (envs : list (Environment (list ascii) (gmap (list ascii) (list ascii))))
    (tag : list ascii) (vars : gmap (list ascii) (list ascii)) : Prop :=
  exists env, env ∈ envs /\ name env = tag /\ variables env = vars.

(** What a synchronisation with the files and an operation on the
    variables leave alone. *)
Definition shape (env : Environment (list ascii) (gmap (list ascii) (list ascii)))
  : list ascii * list ascii * bool * Z :=
  (id env, name env, isActive env, createdAt env).

(** The name of the environment kept for a file. *)
Definition tagOf (envFile : string) : list ascii :=
  fileTag (getEnvNameFromFile (str envFile)).

(** The environment [e] with the variables [vars], updated at [now]. *)
Definition refresh (vars : gmap (list ascii) (list ascii)) (now : Z)
    (e : Environment (list ascii) (gmap (list ascii) (list ascii)))
  : Environment (list ascii) (gmap (list ascii) (list ascii)) :=
  mkEnv (id e) (name e) vars (isActive e) (createdAt e) now.

(** The loop of [loadFromEnvFiles] over the files [files] of a folder. *)
Definition loadFiles (clock : nat -> Z) (folder : Folder) (files : list string)
  : St (list ascii) (gmap (list ascii) (list ascii)) unit :=
  fold_right
    (fun envFile rest =>
       match folder (str envFile) with
       | Some content =>
           createOrUpdateFromFile clock (getEnvNameFromFile (str envFile))
             (parseEnvFile content) (str envFile);; rest
       | None => rest
       end)
    (mret tt) files.

(** The environments, with [f] applied to the variables of the
    environment [envId], updated at [now]. *)
Definition onVariables (envId : list ascii)
    (f : gmap (list ascii) (list ascii) -> gmap (list ascii) (list ascii))
    (now : Z)
    (e : Environment (list ascii) (gmap (list ascii) (list ascii)))
  : Environment (list ascii) (gmap (list ascii) (list ascii)) :=
  if eqs (id e) envId then setVars e (f (variables e)) now else e.

(** The value of a line, without its quotes when it has them. *)
Definition unquote (value : list ascii) : list ascii :=
  if isQuoted EndpointDiscovery.quote2 value || isQuoted EndpointDiscovery.quote1 value
  then slice1m1 value else value.

(** A folder with the file [.env] only. *)
Definition envOnly : Folder :=
  fun envPath => if eqs envPath (str ".env") then Some (str "A=1") else None.

End LoadSpec.

(** ** Notions for the saved requests *)

Module HistorySpec.
Import RequestHistory.

(** What [saveRequest] compares. *)
Definition methodUrl {V} (r : SavedRequest V) : list ascii * list ascii :=
  (r_method r, r_url r).

(** Two requests of the same method and URL. *)
Definition listUsers : RequestInput (list ascii) :=
  mkInput (str "GET") (str "http://x/users") {[ str "name" := str "users" ]}.
Definition listUsersAgain : RequestInput (list ascii) :=
  mkInput (str "GET") (str "http://x/users") {[ str "name" := str "all users" ]}.

Definition nothingStored : Store (list ascii) unit := mkStore [] [] [] 0 0.

(** A collection that holds the request [r1], and a history of one
    entry. *)
Definition mine : RequestCollection :=
  mkCollection (str "c1") (str "Mine") None [str "r1"] 0 0.
Definition oneCollection : Store (list ascii) unit := mkStore [] [mine] [] 0 0.
Definition oneEntry : Store (list ascii) unit :=
  mkStore [] [] [mkEntry (str "h1") 5 tt] 0 0.

End HistorySpec.

(** ** The matcher *)

Module RegexFacts.

Lemma run_cat_cons ic r rs i s c k :
  run ic (cat (r :: rs)) i s c k
  = run ic r i s c (fun i' s' c' => run ic (cat rs) i' s' c' k).
Proof. destruct rs; reflexivity. Qed.

Lemma advances_here i s k c res : k i s c = Some res -> advances 0 i s k res.
Proof.
  intros H. exists i, c. rewrite Nat.sub_diag. simpl. repeat split; [lia | lia | done].
Qed.

Lemma advances_step n i a s k res :
  advances n (S i) s k res -> advances (S n) i (a :: s) k res.
Proof.
  intros (i' & c' & Hle & Hlen & Hk). exists i', c'. repeat split; [lia | simpl; lia |].
  replace (i' - i) with (S (i' - S i)) by lia. exact Hk.
Qed.

Lemma advances_weaken n m i s k res :
  m <= n -> advances n i s k res -> advances m i s k res.
Proof.
  intros Hm (i' & c' & Hle & Hlen & Hk). exists i', c'. repeat split; [lia | lia | exact Hk].
Qed.

Lemma advances_trans n m i s k1 k res :
  advances n i s k1 res ->
  (forall i' s' c', k1 i' s' c' = Some res -> advances m i' s' k res) ->
  advances (n + m) i s k res.
Proof.
  intros (i' & c' & Hle & Hlen & Hk) H.
  destruct (H _ _ _ Hk) as (i'' & c'' & Hle' & Hlen' & Hk').
  rewrite length_drop in Hlen'.
  exists i'', c''. repeat split; [lia | lia |].
  rewrite drop_drop in Hk'. replace (i'' - i) with (i' - i + (i'' - i')) by lia. exact Hk'.
Qed.

Lemma star_loop_advances step :
  (forall i s c k res, step i s c k = Some res -> advances 0 i s k res) ->
  forall fuel i s c k res, star_loop step fuel i s c k = Some res -> advances 0 i s k res.
Proof.
  intros Hstep. induction fuel as [|f IH]; intros i s c k res H; simpl in H.
  - exact (advances_here _ _ _ _ _ H).
  - destruct (step i s c _) as [x|] eqn:E.
    + injection H as ->. apply Hstep in E.
      apply (advances_trans 0 0 i s _ k res E).
      intros i' s' c' H'. simpl in H'. destruct (i' =? i); [discriminate|]. eauto.
    + exact (advances_here _ _ _ _ _ H).
Qed.

Lemma run_advances ic r : forall i s c k res,
  run ic r i s c k = Some res -> advances (min_len r) i s k res.
Proof.
  induction r as [|x|neg cs| | |r1 IHr1 r2 IHr2|r1 IHr1 r2 IHr2|r IHr|r IHr|r IHr|n r IHr];
    intros i s c k res H; simpl in H; cbn [min_len].
  - exact (advances_here _ _ _ _ _ H).
  - destruct s as [|a s]; [discriminate|]. destruct (chr_ok ic x a); [|discriminate].
    apply advances_step. exact (advances_here _ _ _ _ _ H).
  - destruct s as [|a s]; [discriminate|]. destruct (cls_ok ic neg cs a); [|discriminate].
    apply advances_step. exact (advances_here _ _ _ _ _ H).
  - destruct (i =? 0); [|discriminate]. exact (advances_here _ _ _ _ _ H).
  - destruct s; [|discriminate]. exact (advances_here _ _ _ _ _ H).
  - apply IHr1 in H. eapply advances_trans; [exact H|]. intros i' s' c' H'.
    eapply IHr2. exact H'.
  - destruct (run ic r1 i s c k) eqn:E.
    + injection H as <-. apply IHr1 in E. eapply advances_weaken; [|exact E]. lia.
    + apply IHr2 in H. eapply advances_weaken; [|exact H]. lia.
  - eapply star_loop_advances; [|exact H]. intros i0 s0 c0 k0 res0 H0.
    eapply advances_weaken; [|eapply IHr; exact H0]. lia.
  - apply IHr in H. rewrite <- (Nat.add_0_r (min_len r)).
    eapply advances_trans; [exact H|]. intros i' s' c' H'.
    eapply star_loop_advances; [|exact H']. intros i0 s0 c0 k0 res0 H0.
    eapply advances_weaken; [|eapply IHr; exact H0]. lia.
  - destruct (run ic r i s _ _) eqn:E.
    + injection H as <-. apply IHr in E.
      eapply advances_weaken; [|eapply (advances_trans _ 0); [exact E|]]; [lia|].
      intros i' s' c' H'. simpl in H'. destruct (i' =? i); [discriminate|].
      exact (advances_here _ _ _ _ _ H').
    + exact (advances_here _ _ _ _ _ H).
  - apply IHr in H. rewrite <- (Nat.add_0_r (min_len r)).
    eapply advances_trans; [exact H|]. intros i' s' c' H'.
    simpl in H'. exact (advances_here _ _ k _ _ H').
Qed.

Lemma run_reaches ic r i s c k res :
  run ic r i s c k = Some res -> reaches i s k res.
Proof.
  intros H. apply run_advances in H. destruct H as (i' & c' & Hle & Hlen & Hk).
  exists i', c'. repeat split; [lia | lia | exact Hk].
Qed.


(** Index shift: without [^], a match does not depend on the index. *)
Lemma star_loop_shift d step step' :
  (forall i s c k k', shifted d k k' -> step' (d + i) s c k' = shiftr d (step i s c k)) ->
  forall fuel i s c k k', shifted d k k' ->
    star_loop step' fuel (d + i) s c k' = shiftr d (star_loop step fuel i s c k).
Proof.
  intros Hstep. induction fuel as [|f IH]; intros i s c k k' Hk; simpl.
  - apply Hk.
  - rewrite (Hstep i s c
      (fun i' s' c' => if i' =? i then None else star_loop step f i' s' c' k)).
    + destruct (step i s c _) as [[[j s'] c']|]; simpl; [reflexivity | apply Hk].
    + intros j s' c'.
      replace (d + j =? d + i) with (j =? i).
      * destruct (j =? i); [reflexivity | apply IH, Hk].
      * destruct (Nat.eqb_spec j i), (Nat.eqb_spec (d + j) (d + i)); auto; lia.
Qed.

Lemma run_shift ic d r : bol_free r = true ->
  forall i s c k k', shifted d k k' ->
    run ic r (d + i) s c k' = shiftr d (run ic r i s c k).
Proof.
  induction r as [|x|neg cs| | |r1 IHr1 r2 IHr2|r1 IHr1 r2 IHr2|r IHr|r IHr|r IHr|n r IHr];
    intros Hb i s c k k' Hk; simpl in *.
  - apply Hk.
  - destruct s as [|a s]; [reflexivity|]. destruct (chr_ok ic x a); [|reflexivity].
    rewrite <- Hk. f_equal. lia.
  - destruct s as [|a s]; [reflexivity|]. destruct (cls_ok ic neg cs a); [|reflexivity].
    rewrite <- Hk. f_equal. lia.
  - discriminate.
  - destruct s; [apply Hk | reflexivity].
  - apply andb_prop in Hb as [H1 H2]. apply IHr1; [exact H1|].
    intros j s' c'. apply IHr2; assumption.
  - apply andb_prop in Hb as [H1 H2].
    rewrite (IHr1 H1 i s c k k' Hk). destruct (run ic r1 i s c k) as [[[j s'] c']|]; simpl.
    + reflexivity.
    + apply IHr2; assumption.
  - apply star_loop_shift; [|exact Hk]. intros. apply IHr; assumption.
  - apply IHr; [exact Hb|]. intros j s' c'.
    apply star_loop_shift; [|exact Hk]. intros. apply IHr; assumption.
  - rewrite (IHr Hb i s (clear (groups_of r) c)
      (fun i' s' c' => if i' =? i then None else k i' s' c')).
    + destruct (run ic r i s _ _) as [[[j s'] c']|]; simpl; [reflexivity | apply Hk].
    + intros j s' c'. replace (d + j =? d + i) with (j =? i).
      * destruct (j =? i); [reflexivity | apply Hk].
      * destruct (Nat.eqb_spec j i), (Nat.eqb_spec (d + j) (d + i)); auto; lia.
  - apply IHr; [exact Hb|]. intros j s' c'.
    replace (d + j - (d + i)) with (j - i) by lia. apply Hk.
Qed.

(** Greedy runs of a class. *)
Lemma succ_eqb_false i : (S i =? i) = false.
Proof. apply Nat.eqb_neq. lia. Qed.

Lemma star_cls ic neg cs k :
  settles (cls_ok ic neg cs) k ->
  forall fuel i s c, length s <= fuel ->
    star_loop (fun i s c k => run ic (Cls neg cs) i s (clear (groups_of (Cls neg cs)) c) k)
              fuel i s c k
    = k (i + spanLen (cls_ok ic neg cs) s) (drop (spanLen (cls_ok ic neg cs) s) s) c.
Proof.
  intros Hk. induction fuel as [|f IH]; intros i s c Hlen.
  - destruct s; [|simpl in Hlen; lia]. simpl. rewrite Nat.add_0_r. reflexivity.
  - destruct s as [|a s].
    + simpl. rewrite Nat.add_0_r. reflexivity.
    + cbn [star_loop run groups_of clear fold_right spanLen].
      destruct (cls_ok ic neg cs a) eqn:Ea.
      * rewrite succ_eqb_false.
        simpl in Hlen. rewrite IH by lia.
        replace (i + S (spanLen (cls_ok ic neg cs) s))
          with (S i + spanLen (cls_ok ic neg cs) s) by lia.
        cbn [drop].
        destruct (k (S i + _) _ c) eqn:Ek; [reflexivity|].
        destruct Hk as [Hk|Hk].
        -- apply Hk. exact Ea.
        -- destruct (Hk _ _ _ Ek).
      * rewrite Nat.add_0_r. reflexivity.
Qed.

Lemma run_star_cls ic neg cs i s c k :
  settles (cls_ok ic neg cs) k ->
  run ic (Star (Cls neg cs)) i s c k
  = k (i + spanLen (cls_ok ic neg cs) s) (drop (spanLen (cls_ok ic neg cs) s) s) c.
Proof. intros Hk. simpl. apply (star_cls ic neg cs k Hk). lia. Qed.

Lemma run_plus_cls ic neg cs i s c k :
  settles (cls_ok ic neg cs) k ->
  run ic (Plus (Cls neg cs)) i s c k
  = match spanLen (cls_ok ic neg cs) s with
    | 0 => None
    | S _ => k (i + spanLen (cls_ok ic neg cs) s)
               (drop (spanLen (cls_ok ic neg cs) s) s) c
    end.
Proof.
  intros Hk. destruct s as [|a s]; [reflexivity|].
  cbn [run groups_of clear fold_right spanLen].
  destruct (cls_ok ic neg cs a) eqn:Ea; [|reflexivity].
  rewrite (star_cls ic neg cs k Hk) by lia. cbn [drop]. f_equal. lia.
Qed.

Lemma spanLen_app p xs rest :
  Forall (fun a => p a = true) xs ->
  match rest with [] => True | a :: _ => p a = false end ->
  spanLen p (xs ++ rest) = length xs.
Proof.
  intros Hxs Hrest. induction Hxs as [|a xs Ha _ IH]; simpl.
  - destruct rest; [reflexivity|]. simpl. rewrite Hrest. reflexivity.
  - simpl in Ha. rewrite Ha, IH. reflexivity.
Qed.

Lemma spanLen_le p s : spanLen p s <= length s.
Proof. induction s as [|a s IH]; simpl; [lia|]. destruct (p a); simpl; lia. Qed.

Lemma spanLen_take p s : Forall (fun a => p a = true) (take (spanLen p s) s).
Proof.
  induction s as [|a s IH]; simpl; [constructor|].
  destruct (p a) eqn:E; simpl; [constructor; assumption | constructor].
Qed.

Lemma spanLen_drop p s :
  match drop (spanLen p s) s with [] => True | a :: _ => p a = false end.
Proof.
  induction s as [|a s IH]; simpl; [exact I|].
  destruct (p a) eqn:E; simpl; [exact IH | exact E].
Qed.

(** The top-level operations. *)
Lemma match_at_spec re i s m :
  match_at re i s = Some m ->
  index m = i /\ i <= lastIndex m /\ lastIndex m - i <= length s
  /\ after m = drop (lastIndex m - i) s.
Proof.
  unfold match_at. intros H.
  destruct (run _ _ _ _ _ _) as [[[j s'] c]|] eqn:E; [|discriminate].
  injection H as <-. simpl.
  apply run_reaches in E. destruct E as (i' & c' & Hle & Hlen & Hk).
  injection Hk as <- <- <-. auto.
Qed.

Lemma match_at_progress re i s m :
  match_at re i s = Some m -> index m + min_len (source re) <= lastIndex m.
Proof.
  unfold match_at. intros H.
  destruct (run _ _ _ _ _ _) as [[[j s'] c]|] eqn:E; [|discriminate].
  injection H as <-. simpl.
  apply run_advances in E. destruct E as (i' & c' & Hle & Hlen & Hk).
  injection Hk as <- <- <-. exact Hle.
Qed.

Lemma search_spec re : forall s i m,
  search re i s = Some m ->
  i <= index m /\ index m <= lastIndex m /\ lastIndex m - i <= length s
  /\ after m = drop (lastIndex m - i) s.
Proof.
  induction s as [|a s IH]; intros i m H; simpl in H.
  - destruct (match_at re i []) eqn:E; [|discriminate]. injection H as ->.
    apply match_at_spec in E. destruct E as (-> & ? & ? & ?). auto.
  - destruct (match_at re i (a :: s)) eqn:E.
    + injection H as ->. apply match_at_spec in E. destruct E as (-> & ? & ? & ?). auto.
    + apply IH in H. destruct H as (H1 & H2 & H3 & H4). simpl.
      repeat split; [lia | lia | lia |].
      rewrite H4. replace (lastIndex m - i) with (S (lastIndex m - S i)) by lia.
      reflexivity.
Qed.

Lemma match_at_shift re d i s :
  bol_free (source re) = true ->
  match_at re (d + i) s = shiftm d <$> match_at re i s.
Proof.
  intros Hb. unfold match_at.
  rewrite (run_shift (ignoreCase re) d (source re) Hb i s _
             (fun j s' c => Some (j, s', c))) by (intros j s' c; reflexivity).
  destruct (run _ _ i s _ _) as [[[j s'] c]|] eqn:E; simpl; [|reflexivity].
  apply run_reaches in E. destruct E as (i' & c' & Hle & Hlen & Hk).
  injection Hk as <- <- <-.
  unfold shiftm. simpl. replace (d + i' - (d + i)) with (i' - i) by lia. reflexivity.
Qed.

Lemma search_shift re d :
  bol_free (source re) = true ->
  forall s i, search re (d + i) s = shiftm d <$> search re i s.
Proof.
  intros Hb. induction s as [|a s IH]; intros i; simpl.
  - rewrite match_at_shift by exact Hb. destruct (match_at re i []); reflexivity.
  - rewrite match_at_shift by exact Hb. destruct (match_at re i (a :: s)); simpl.
    + reflexivity.
    + replace (S (d + i)) with (d + S i) by lia. apply IH.
Qed.

Lemma global_loop_shift re d :
  bol_free (source re) = true ->
  forall fuel s i,
    global_loop fuel re (d + i) s = map (shiftm d) (global_loop fuel re i s).
Proof.
  intros Hb. induction fuel as [|f IH]; intros s i; simpl; [reflexivity|].
  rewrite search_shift by exact Hb.
  destruct (search re i s) as [m|]; simpl; [|reflexivity].
  replace (d + lastIndex m =? d + index m) with (lastIndex m =? index m).
  - destruct (lastIndex m =? index m).
    + destruct (after m); simpl; [reflexivity|].
      replace (S (d + lastIndex m)) with (d + S (lastIndex m)) by lia.
      rewrite IH. reflexivity.
    + rewrite IH. reflexivity.
  - destruct (Nat.eqb_spec (lastIndex m) (index m)),
             (Nat.eqb_spec (d + lastIndex m) (d + index m)); auto; lia.
Qed.

Lemma global_loop_fuel re : forall f1 f2 s i,
  length s < f1 -> length s < f2 ->
  global_loop f1 re i s = global_loop f2 re i s.
Proof.
  induction f1 as [|f1 IH]; intros f2 s i H1 H2; [lia|].
  destruct f2 as [|f2]; [lia|]. simpl.
  destruct (search re i s) as [m|] eqn:E; [|reflexivity].
  apply search_spec in E. destruct E as (Hi & Hl & Hlen & Ha).
  assert (length (after m) = length s - (lastIndex m - i))
    by (rewrite Ha, length_drop; reflexivity).
  destruct (Nat.eqb_spec (lastIndex m) (index m)).
  - destruct (after m) as [|b s'] eqn:Es; [reflexivity|]. simpl in *.
    f_equal. apply IH; lia.
  - f_equal. apply IH; lia.
Qed.

Lemma search_hit re i s m : match_at re i s = Some m -> search re i s = Some m.
Proof. intros H. destruct s; simpl; rewrite H; reflexivity. Qed.

Lemma search_skip re i a s :
  match_at re i (a :: s) = None -> search re i (a :: s) = search re (S i) s.
Proof. intros H. simpl. rewrite H. reflexivity. Qed.

Lemma search_nil re i : match_at re i [] = None -> search re i [] = None.
Proof. intros H. simpl. rewrite H. reflexivity. Qed.

Section Scan.

Variable re : RegExp.
Hypothesis Hb : bol_free (source re) = true.

Lemma matches_nil : match_at re 0 [] = None -> matches re [] = [].
Proof. intros H. unfold matches. simpl. rewrite H. reflexivity. Qed.

Lemma matches_skip a s :
  match_at re 0 (a :: s) = None ->
  matches re (a :: s) = map (shiftm 1) (matches re s).
Proof.
  intros H. unfold matches.
  rewrite <- (global_loop_shift re 1 Hb (S (length s)) s 0).
  rewrite (global_loop_fuel re (S (length (a :: s))) (S (S (length s))))
    by (simpl; lia).
  change (global_loop (S (S (length s))) re 0 (a :: s))
    with (match search re 0 (a :: s) with
          | None => []
          | Some m =>
              if lastIndex m =? index m then
                match after m with
                | [] => [m]
                | _ :: s' => m :: global_loop (S (length s)) re (S (lastIndex m)) s'
                end
              else m :: global_loop (S (length s)) re (lastIndex m) (after m)
          end).
  rewrite search_skip by exact H.
  change (global_loop (S (length s)) re (1 + 0) s)
    with (match search re 1 s with
          | None => []
          | Some m =>
              if lastIndex m =? index m then
                match after m with
                | [] => [m]
                | _ :: s' => m :: global_loop (length s) re (S (lastIndex m)) s'
                end
              else m :: global_loop (length s) re (lastIndex m) (after m)
          end).
  destruct (search re 1 s) as [m|] eqn:E; [|reflexivity].
  apply search_spec in E. destruct E as (Hi & Hl & Hlen & Ha).
  assert (length (after m) = length s - (lastIndex m - 1))
    by (rewrite Ha, length_drop; reflexivity).
  destruct (Nat.eqb_spec (lastIndex m) (index m)).
  - destruct (after m) as [|b s'] eqn:Es; [reflexivity|]. simpl in H0.
    f_equal. apply global_loop_fuel; lia.
  - f_equal. apply global_loop_fuel; lia.
Qed.

Lemma matches_hit s m :
  match_at re 0 s = Some m -> lastIndex m <> 0 ->
  matches re s = m :: map (shiftm (lastIndex m)) (matches re (after m)).
Proof.
  intros H Hn. unfold matches.
  pose proof (match_at_spec _ _ _ _ H) as (Hi & _ & Hlen & Ha).
  assert (length (after m) = length s - (lastIndex m - 0))
    by (rewrite Ha, length_drop; reflexivity).
  rewrite <- (global_loop_shift re (lastIndex m) Hb (S (length (after m))) (after m) 0).
  set (R := global_loop (S (length (after m))) re (lastIndex m + 0) (after m)).
  cbn [global_loop]. rewrite (search_hit _ _ _ _ H).
  rewrite Hi. destruct (Nat.eqb_spec (lastIndex m) 0) as [|_]; [contradiction|].
  f_equal. subst R.
  rewrite Nat.add_0_r. apply global_loop_fuel; lia.
Qed.

Lemma whole_shiftm d m : whole (shiftm d m) = whole m.
Proof. reflexivity. Qed.

Lemma matchG_nil : match_at re 0 [] = None -> matchG re [] = [].
Proof. intros H. unfold matchG. rewrite matches_nil by exact H. reflexivity. Qed.

Lemma matchG_skip a s :
  match_at re 0 (a :: s) = None -> matchG re (a :: s) = matchG re s.
Proof.
  intros H. unfold matchG. rewrite matches_skip by exact H.
  rewrite map_map. reflexivity.
Qed.

Lemma matchG_hit s m :
  match_at re 0 s = Some m -> lastIndex m <> 0 ->
  matchG re s = whole m :: matchG re (after m).
Proof.
  intros H Hn. unfold matchG. rewrite (matches_hit s m H Hn). simpl.
  rewrite map_map. reflexivity.
Qed.

Variable f : Match -> jsstring.
Hypothesis Hf : forall d m, f (shiftm d m) = f m.

Lemma splice_shift d : forall ms i s,
  splice f (d + i) s (map (shiftm d) ms) = splice f i s ms.
Proof.
  induction ms as [|m ms IH]; intros i s; simpl; [reflexivity|].
  rewrite Hf, IH. replace (d + index m - (d + i)) with (index m - i) by lia.
  reflexivity.
Qed.

Lemma replaceG_nil : match_at re 0 [] = None -> replaceG re f [] = [].
Proof. intros H. unfold replaceG. rewrite matches_nil by exact H. reflexivity. Qed.

Lemma replaceG_skip a s :
  match_at re 0 (a :: s) = None ->
  replaceG re f (a :: s) = a :: replaceG re f s.
Proof.
  intros H. unfold replaceG. rewrite matches_skip by exact H.
  destruct (matches re s) as [|m ms]; simpl; [reflexivity|].
  rewrite Hf, Nat.sub_0_r.
  change (S (lastIndex m)) with (1 + lastIndex m).
  rewrite (splice_shift 1 ms (lastIndex m) (after m)). reflexivity.
Qed.

Lemma replaceG_hit s m :
  match_at re 0 s = Some m -> lastIndex m <> 0 ->
  replaceG re f s = f m ++ replaceG re f (after m).
Proof.
  intros H Hn. unfold replaceG. rewrite (matches_hit s m H Hn). simpl.
  pose proof (match_at_spec _ _ _ _ H) as (Hi & _).
  rewrite Hi. simpl. f_equal.
  rewrite <- (splice_shift (lastIndex m) (matches re (after m)) 0 (after m)).
  rewrite Nat.add_0_r. reflexivity.
Qed.

End Scan.

Lemma run_atoms ic : forall ats rs i s c k,
  run ic (cat (map atom_re ats ++ rs)) i s c k
  = match atoms_ok ic ats s with
    | None => None
    | Some t => run ic (cat rs) (i + length ats) t c k
    end.
Proof.
  induction ats as [|a ats IH]; intros rs i s c k.
  - simpl. rewrite Nat.add_0_r. reflexivity.
  - cbn [map app]. rewrite run_cat_cons.
    destruct s as [|x s]; [destruct a; reflexivity|].
    cbn [atoms_ok length].
    replace (i + S (length ats)) with (S i + length ats) by lia.
    destruct a; cbn [atom_re atom_ok run];
      match goal with |- context [if ?b then _ else _] => destruct b end;
      [apply IH | reflexivity | apply IH | reflexivity].
Qed.

Lemma run_atoms_end ic ats i s c k :
  run ic (cat (map atom_re ats)) i s c k
  = match atoms_ok ic ats s with
    | None => None
    | Some t => k (i + length ats) t c
    end.
Proof.
  pose proof (run_atoms ic ats [] i s c k) as H. rewrite app_nil_r in H. exact H.
Qed.

Lemma atoms_ok_reject ic neg cs closers x s :
  closers <> [] -> closes ic neg cs closers ->
  cls_ok ic neg cs x = true -> atoms_ok ic closers (x :: s) = None.
Proof.
  intros Hne Hc Hx. destruct closers as [|a closers]; [contradiction|].
  simpl in *. rewrite (Hc x Hx). reflexivity.
Qed.

Lemma run_Grp ic n r i s c k :
  run ic (Grp n r) i s c k
  = run ic r i s c (fun i' s' c' => k i' s' (<[n := Some (take (i' - i) s)]> c')).
Proof. reflexivity. Qed.

Lemma run_delimited ic openers n neg cs closers i s c k :
  closes ic neg cs closers ->
  (forall j t c', k j t c' <> None) ->
  run ic (delimited openers n neg cs closers) i s c k
  = match atoms_ok ic openers s with
    | None => None
    | Some t =>
        let m := spanLen (cls_ok ic neg cs) t in
        match m with
        | 0 => None
        | S _ =>
            match atoms_ok ic closers (drop m t) with
            | None => None
            | Some rest =>
                k (i + length openers + m + length closers) rest
                  (<[n := Some (take m t)]> c)
            end
        end
    end.
Proof.
  intros Hc Hk. unfold delimited. rewrite run_atoms.
  destruct (atoms_ok ic openers s) as [t|]; [|reflexivity].
  rewrite run_cat_cons, run_Grp.
  rewrite run_plus_cls.
  - destruct (spanLen (cls_ok ic neg cs) t) as [|m'] eqn:Em; [reflexivity|].
    rewrite run_atoms_end.
    destruct (atoms_ok ic closers (drop (S m') t)); [|reflexivity].
    replace (i + length openers + S m' - (i + length openers)) with (S m') by lia.
    reflexivity.
  - destruct closers as [|a closers].
    + right. intros j t' c'. simpl. apply Hk.
    + left. intros j x t' c' Hx. rewrite run_atoms_end.
      rewrite (atoms_ok_reject ic neg cs (a :: closers) x t'); auto.
Qed.

Lemma bol_free_cat rs : forallb bol_free rs = true -> bol_free (cat rs) = true.
Proof.
  induction rs as [|r rs IH]; intros H; [reflexivity|].
  simpl in H. apply andb_prop in H as [H1 H2].
  destruct rs as [|r' rs]; [exact H1|].
  change (bol_free r && bol_free (cat (r' :: rs)) = true).
  rewrite H1, IH; auto.
Qed.

Lemma bol_free_delimited ops n neg cs cls : bol_free (delimited ops n neg cs cls) = true.
Proof.
  unfold delimited. apply bol_free_cat. rewrite forallb_app. apply andb_true_intro. split.
  - induction ops as [|[] ops IH]; simpl; auto.
  - simpl. induction cls as [|[] cls IH]; simpl; auto.
Qed.

Section Delimited.

Variables (ic : bool) (ops : list atom) (n : nat) (neg : bool) (cs : list ascii)
          (cls : list atom) (g : nat).
Hypothesis Hc : closes ic neg cs cls.

Let re : RegExp := mkRegExp (delimited ops n neg cs cls) ic g.
Let p : ascii -> bool := cls_ok ic neg cs.

Lemma match_at_delimited i s :
  match_at re i s
  = match atoms_ok ic ops s with
    | None => None
    | Some t =>
        match spanLen p t with
        | 0 => None
        | S _ =>
            match atoms_ok ic cls (drop (spanLen p t) t) with
            | None => None
            | Some rest =>
                let e := length ops + spanLen p t + length cls in
                Some (mkMatch i (i + e) rest
                        (<[0 := Some (take e s)]>
                           (<[n := Some (take (spanLen p t) t)]>
                              (replicate (S g) None))))
            end
        end
    end.
Proof.
  unfold match_at, re. cbn [source ignoreCase ngroups].
  rewrite run_delimited by (exact Hc || discriminate).
  destruct (atoms_ok ic ops s) as [t|]; [|reflexivity]. cbv zeta. fold p.
  destruct (spanLen p t) as [|m]; [reflexivity|].
  destruct (atoms_ok ic cls (drop (S m) t)); [|reflexivity].
  f_equal. f_equal; [lia|]. f_equal. f_equal. f_equal. lia.
Qed.

Lemma match_at_delimited_nil i : match_at re i [] = None.
Proof.
  rewrite match_at_delimited. destruct ops; simpl; reflexivity.
Qed.

Lemma match_at_delimited_miss i a s o ops' :
  ops = o :: ops' -> atom_ok ic o a = false -> match_at re i (a :: s) = None.
Proof.
  intros E H. rewrite match_at_delimited. rewrite E. simpl. rewrite H. reflexivity.
Qed.

Lemma matchG_delimited_nil : matchG re [] = [].
Proof.
  apply matchG_nil. apply match_at_delimited_nil.
Qed.

Lemma matchG_delimited_skip o ops' w rest :
  ops = o :: ops' -> Forall (fun a => atom_ok ic o a = false) w ->
  matchG re (w ++ rest) = matchG re rest.
Proof.
  intros E H. induction H as [|a w Ha _ IH]; [reflexivity|].
  simpl. rewrite matchG_skip.
  - exact IH.
  - apply bol_free_delimited.
  - eapply match_at_delimited_miss; eauto.
Qed.

Lemma atoms_ok_app ats : forall o t,
  atoms_ok ic ats o = Some [] -> atoms_ok ic ats (o ++ t) = Some t.
Proof.
  induction ats as [|a ats IH]; intros o t H; simpl in *.
  - injection H as ->. reflexivity.
  - destruct o as [|x o]; [discriminate|]. simpl.
    destruct (atom_ok ic a x); [apply IH; exact H | discriminate].
Qed.

Lemma atoms_ok_length ats : forall o,
  atoms_ok ic ats o = Some [] -> length o = length ats.
Proof.
  induction ats as [|a ats IH]; intros o H; simpl in *.
  - injection H as ->. reflexivity.
  - destruct o as [|x o]; [discriminate|]. simpl.
    destruct (atom_ok ic a x); [f_equal; apply IH; exact H | discriminate].
Qed.

(** A hit: the openers, a run of the class, the closers. *)
Lemma match_at_delimited_hit i o inner c rest :
  atoms_ok ic ops o = Some [] ->
  inner <> [] -> Forall (fun a => p a = true) inner ->
  atoms_ok ic cls c = Some [] ->
  match c ++ rest with [] => True | a :: _ => p a = false end ->
  match_at re i (o ++ inner ++ c ++ rest)
  = Some (mkMatch i (i + length (o ++ inner ++ c)) rest
            (<[0 := Some (o ++ inner ++ c)]>
               (<[n := Some inner]> (replicate (S g) None)))).
Proof.
  intros Ho Hne Hin Hcl Hstop.
  rewrite match_at_delimited.
  rewrite (atoms_ok_app ops o _ Ho).
  rewrite (spanLen_app p inner (c ++ rest) Hin Hstop).
  destruct (length inner) as [|l] eqn:El;
    [apply nil_length_inv in El; contradiction|].
  rewrite <- El. rewrite drop_app_length, take_app_length.
  rewrite (atoms_ok_app cls c _ Hcl). cbv zeta.
  rewrite <- (atoms_ok_length ops o Ho), <- (atoms_ok_length cls c Hcl).
  replace (length o + length inner + length c) with (length (o ++ inner ++ c))
    by (rewrite !length_app; lia).
  replace (o ++ inner ++ c ++ rest) with ((o ++ inner ++ c) ++ rest)
    by (rewrite <- !app_assoc; reflexivity).
  rewrite take_app_length. reflexivity.
Qed.

Lemma whole_insert0 i j r x c : whole (mkMatch i j r (<[0 := Some x]> (<[n := c]> (replicate (S g) None)))) = x.
Proof.
  unfold whole, grp. cbn [arr].
  rewrite list_lookup_insert_eq by (rewrite length_insert, length_replicate; lia).
  simpl. destruct x; reflexivity.
Qed.

Lemma matchG_delimited_hit o inner c rest :
  atoms_ok ic ops o = Some [] ->
  inner <> [] -> Forall (fun a => p a = true) inner ->
  atoms_ok ic cls c = Some [] ->
  match c ++ rest with [] => True | a :: _ => p a = false end ->
  matchG re (o ++ inner ++ c ++ rest) = (o ++ inner ++ c) :: matchG re rest.
Proof.
  intros Ho Hne Hin Hcl Hstop.
  pose proof (match_at_delimited_hit 0 o inner c rest Ho Hne Hin Hcl Hstop) as H.
  rewrite (matchG_hit re (bol_free_delimited _ _ _ _ _) _ _ H).
  - rewrite whole_insert0. reflexivity.
  - cbn [lastIndex]. rewrite !length_app. destruct inner; [contradiction|]. simpl. lia.
Qed.

End Delimited.

End RegexFacts.

Import RegexFacts.

(** ** The loop over the matches of a pattern *)

Lemma search_progress re : forall s i m,
  search re i s = Some m -> index m + min_len (source re) <= lastIndex m.
Proof.
  induction s as [|a s IH]; intros i m H; cbn [search] in H.
  - destruct (match_at re i []) eqn:E; [|discriminate]. injection H as ->.
    apply match_at_progress in E. exact E.
  - destruct (match_at re i (a :: s)) eqn:E.
    + injection H as ->. apply match_at_progress in E. exact E.
    + apply IH in H. exact H.
Qed.

(** The loop over [exec] ends: with a pattern that cannot match the
    empty string every iteration resumes further right, and any fuel
    above the length of the content gives the same matches. *)
Lemma exec_loop_fuel re :
  0 < min_len (source re) ->
  forall f1 f2 s i,
    length s < f1 -> length s < f2 ->
    exec_loop f1 re i s = exec_loop f2 re i s.
Proof.
  intros Hmin. induction f1 as [|f1 IH]; intros f2 s i H1 H2; [lia|].
  destruct f2 as [|f2]; [lia|]. cbn [exec_loop].
  destruct (search re i s) as [m|] eqn:E; [|reflexivity].
  pose proof (search_progress _ _ _ _ E) as Hp.
  apply search_spec in E. destruct E as (Hi & Hl & Hlen & Ha).
  assert (length (after m) = length s - (lastIndex m - i))
    by (rewrite Ha, length_drop; reflexivity).
  f_equal. apply IH; lia.
Qed.

Lemma patterns_progress fw frameworkPatterns :
  EndpointDiscovery.patterns fw = Some frameworkPatterns ->
  Forall (fun pattern => 0 < min_len (source pattern)) frameworkPatterns.
Proof.
  unfold EndpointDiscovery.patterns.
  repeat (destruct (EndpointDiscovery.isFw fw _);
          [intros [= <-]; repeat constructor|]).
  discriminate.
Qed.

Lemma execAll_total fw frameworkPatterns pattern content fuel :
  EndpointDiscovery.patterns fw = Some frameworkPatterns ->
  pattern ∈ frameworkPatterns ->
  length content < fuel ->
  exec_loop fuel pattern 0 content = execAll pattern content.
Proof.
  intros Hp Hin Hfuel. unfold execAll. apply exec_loop_fuel; [|exact Hfuel|lia].
  apply patterns_progress in Hp.
  apply (proj1 (Forall_forall _ _) Hp). exact Hin.
Qed.

(** ** Path parameters *)



Lemma colonRe_delimited :
  EndpointDiscovery.colonRe = mkRegExp (delimited [AChr ":"] 1 true ["/"%char] []) false 1.
Proof. reflexivity. Qed.

Lemma bracketRe_delimited :
  EndpointDiscovery.bracketRe
  = mkRegExp (delimited [ACls false ["{"; "["]%char] 1 true ["]"; "}"]%char
                        [ACls false ["}"; "]"]%char]) false 1.
Proof. reflexivity. Qed.

Lemma angleRe_delimited :
  EndpointDiscovery.angleRe
  = mkRegExp (delimited [AChr "<"] 1 true [">"%char] [AChr ">"]) false 1.
Proof. reflexivity. Qed.

Lemma eqc_eq a b : eqc a b = true <-> a = b.
Proof. apply Ascii.eqb_eq. Qed.

Lemma eqc_sym a b : eqc a b = eqc b a.
Proof. apply Ascii.eqb_sym. Qed.

Lemma isPlain_not x a : isPlain a = true -> In x special -> eqc x a = false.
Proof.
  unfold isPlain. intros H Hx. apply negb_true_iff in H.
  destruct (eqc x a) eqn:E; [|reflexivity].
  apply eqc_eq in E. subst x.
  assert (existsb (eqc a) special = true); [|congruence].
  apply existsb_exists. exists a. split; [exact Hx | apply eqc_eq; reflexivity].
Qed.

Lemma word_Forall w : word w = true -> Forall (fun a => isPlain a = true) w.
Proof. intros H. apply Forall_forall. intros a Ha. apply (proj1 (forallb_forall _ _) H). apply list_elem_of_In. exact Ha. Qed.

Lemma renderPath_head segs :
  match renderPath segs with [] => True | a :: _ => a = "/"%char end.
Proof. destruct segs; simpl; auto. Qed.

Lemma wf_named n : word n && (0 <? length n) = true -> Forall (fun a => isPlain a = true) n /\ n <> [].
Proof.
  intros H. apply andb_prop in H as [H1 H2]. split; [apply word_Forall; exact H1|].
  destruct n; [discriminate | discriminate].
Qed.

Ltac in_special := unfold special; simpl; tauto.

Ltac plain_forall H :=
  eapply Forall_impl; [exact H|]; cbv beta; intros ? ?;
  unfold cls_ok, chr_ok, canon; cbn [existsb xorb negb orb atom_ok];
  repeat (rewrite isPlain_not by (assumption || in_special)); reflexivity.

Lemma cls_neg1 x a : cls_ok false true [x] a = negb (eqc x a).
Proof. unfold cls_ok, chr_ok, canon. cbn [existsb]. rewrite orb_false_r. reflexivity. Qed.

Lemma cls_neg2 x y a : cls_ok false true [x; y] a = negb (eqc x a || eqc y a).
Proof. unfold cls_ok, chr_ok, canon. cbn [existsb]. rewrite orb_false_r. reflexivity. Qed.

Lemma cls_pos2 x y a : cls_ok false false [x; y] a = eqc x a || eqc y a.
Proof. unfold cls_ok, chr_ok, canon. cbn [existsb]. rewrite orb_false_r. reflexivity. Qed.

Lemma chr_plain x a : chr_ok false x a = eqc x a.
Proof. reflexivity. Qed.

Section Colon.
Let re := EndpointDiscovery.colonRe.

Lemma colon_nil : matchG re [] = [].
Proof. apply (matchG_delimited_nil false [AChr ":"] 1 true ["/"%char] [] 1 I). Qed.

Lemma colon_skip w rest :
  Forall (fun a => eqc ":" a = false) w -> matchG re (w ++ rest) = matchG re rest.
Proof.
  intros H.
  apply (matchG_delimited_skip false [AChr ":"] 1 true ["/"%char] [] 1 I (AChr ":") []);
    [reflexivity | exact H].
Qed.

Lemma colon_hit n rest :
  n <> [] -> Forall (fun a => eqc "/" a = false) n ->
  match rest with [] => True | a :: _ => a = "/"%char end ->
  matchG re (str ":" ++ n ++ rest) = (str ":" ++ n) :: matchG re rest.
Proof.
  intros Hne Hn Hrest.
  pose proof (matchG_delimited_hit false [AChr ":"] 1 true ["/"%char] [] 1 I
                (str ":") n [] rest) as H.
  rewrite app_nil_r in H. apply H; auto.
  - eapply Forall_impl; [exact Hn|]. cbv beta. intros a Ha.
    rewrite cls_neg1, Ha. reflexivity.
  - simpl. destruct rest; [exact I|]. subst. reflexivity.
Qed.
End Colon.

Section Bracket.
Let re := EndpointDiscovery.bracketRe.
Let Hc : closes false true ["]"; "}"]%char [ACls false ["}"; "]"]%char].
Proof.
  intros x. cbn [atom_ok]. rewrite cls_neg2, cls_pos2.
  destruct (eqc "]" x), (eqc "}" x); simpl; intros; congruence.
Qed.

Lemma bracket_nil : matchG re [] = [].
Proof.
  apply (matchG_delimited_nil false [ACls false ["{"; "["]%char] 1 true ["]"; "}"]%char
           [ACls false ["}"; "]"]%char] 1 Hc).
Qed.

Lemma bracket_skip w rest :
  Forall (fun a => eqc "{" a = false /\ eqc "[" a = false) w ->
  matchG re (w ++ rest) = matchG re rest.
Proof.
  intros H.
  apply (matchG_delimited_skip false [ACls false ["{"; "["]%char] 1 true ["]"; "}"]%char
           [ACls false ["}"; "]"]%char] 1 Hc (ACls false ["{"; "["]%char) []);
    [reflexivity|].
  eapply Forall_impl; [exact H|]. cbv beta. intros a [H1 H2].
  cbn [atom_ok]. rewrite cls_pos2, H1, H2. reflexivity.
Qed.

Lemma bracket_hit o c n rest :
  o = "{"%char \/ o = "["%char -> c = "}"%char \/ c = "]"%char ->
  n <> [] -> Forall (fun a => eqc "]" a = false /\ eqc "}" a = false) n ->
  matchG re ([o] ++ n ++ [c] ++ rest) = ([o] ++ n ++ [c]) :: matchG re rest.
Proof.
  intros Ho Hcl Hne Hn.
  apply (matchG_delimited_hit false [ACls false ["{"; "["]%char] 1 true ["]"; "}"]%char
           [ACls false ["}"; "]"]%char] 1 Hc [o] n [c] rest); auto.
  - destruct Ho; subst; reflexivity.
  - eapply Forall_impl; [exact Hn|]. cbv beta. intros a [H1 H2].
    rewrite cls_neg2, H1, H2. reflexivity.
  - destruct Hcl; subst; reflexivity.
  - destruct Hcl; subst; reflexivity.
Qed.
End Bracket.

Section AngleRe.
Let re := EndpointDiscovery.angleRe.
Let Hc : closes false true [">"%char] [AChr ">"].
Proof.
  intros x. cbn [atom_ok]. rewrite cls_neg1. unfold chr_ok, canon.
  destruct (eqc ">" x); simpl; intros; congruence.
Qed.

Lemma angle_nil : matchG re [] = [].
Proof. apply (matchG_delimited_nil false [AChr "<"] 1 true [">"%char] [AChr ">"] 1 Hc). Qed.

Lemma angle_skip w rest :
  Forall (fun a => eqc "<" a = false) w -> matchG re (w ++ rest) = matchG re rest.
Proof.
  intros H.
  apply (matchG_delimited_skip false [AChr "<"] 1 true [">"%char] [AChr ">"] 1 Hc (AChr "<") []);
    [reflexivity | exact H].
Qed.

Lemma angle_hit n rest :
  n <> [] -> Forall (fun a => eqc ">" a = false) n ->
  matchG re (str "<" ++ n ++ str ">" ++ rest) = (str "<" ++ n ++ str ">") :: matchG re rest.
Proof.
  intros Hne Hn.
  apply (matchG_delimited_hit false [AChr "<"] 1 true [">"%char] [AChr ">"] 1 Hc
           (str "<") n (str ">") rest); auto.
  - eapply Forall_impl; [exact Hn|]. cbv beta. intros a Ha.
    rewrite cls_neg1, Ha. reflexivity.
  - reflexivity.
Qed.
End AngleRe.

Ltac plain H :=
  eapply Forall_impl; [exact H|]; cbv beta; intros ? ?;
  repeat split; apply isPlain_not; (assumption || in_special).

Ltac one := repeat constructor.

Lemma colon_segs segs :
  forallb wf segs = true ->
  matchG EndpointDiscovery.colonRe (renderPath segs)
  = map (fun n => str ":" ++ n) (colonNames segs).
Proof.
  induction segs as [|seg segs IH]; intros Hwf.
  - apply colon_nil.
  - simpl in Hwf. apply andb_prop in Hwf as [Hseg Hsegs]. specialize (IH Hsegs).
    change (renderPath (seg :: segs)) with (str "/" ++ render seg ++ renderPath segs).
    rewrite colon_skip by one.
    destruct seg as [w|n|n|n|n]; cbn [render wf] in *;
      [ change (colonNames (Plain w :: segs)) with (colonNames segs)
      | change (colonNames (Colon n :: segs)) with (n :: colonNames segs)
      | change (colonNames (Curly n :: segs)) with (colonNames segs)
      | change (colonNames (Square n :: segs)) with (colonNames segs)
      | change (colonNames (Angle n :: segs)) with (colonNames segs) ].
    + apply word_Forall in Hseg. rewrite colon_skip by plain Hseg. exact IH.
    + apply wf_named in Hseg as [Hn Hne]. rewrite <- app_assoc.
      rewrite colon_hit; [| exact Hne | plain Hn | apply renderPath_head].
      rewrite IH. reflexivity.
    + apply wf_named in Hseg as [Hn Hne]. rewrite <- !app_assoc.
      rewrite colon_skip by one. rewrite colon_skip by plain Hn.
      rewrite colon_skip by one. exact IH.
    + apply wf_named in Hseg as [Hn Hne]. rewrite <- !app_assoc.
      rewrite colon_skip by one. rewrite colon_skip by plain Hn.
      rewrite colon_skip by one. exact IH.
    + apply wf_named in Hseg as [Hn Hne]. rewrite <- !app_assoc.
      rewrite colon_skip by one. rewrite colon_skip by plain Hn.
      rewrite colon_skip by one. exact IH.
Qed.

Lemma bracket_segs segs :
  forallb wf segs = true ->
  matchG EndpointDiscovery.bracketRe (renderPath segs) = bracketTexts segs.
Proof.
  induction segs as [|seg segs IH]; intros Hwf.
  - apply bracket_nil.
  - simpl in Hwf. apply andb_prop in Hwf as [Hseg Hsegs]. specialize (IH Hsegs).
    change (renderPath (seg :: segs)) with (str "/" ++ render seg ++ renderPath segs).
    rewrite bracket_skip by one.
    destruct seg as [w|n|n|n|n]; cbn [render wf] in *;
      [ change (bracketTexts (Plain w :: segs)) with (bracketTexts segs)
      | change (bracketTexts (Colon n :: segs)) with (bracketTexts segs)
      | change (bracketTexts (Curly n :: segs))
          with ((str "{" ++ n ++ str "}") :: bracketTexts segs)
      | change (bracketTexts (Square n :: segs))
          with ((str "[" ++ n ++ str "]") :: bracketTexts segs)
      | change (bracketTexts (Angle n :: segs)) with (bracketTexts segs) ].
    + apply word_Forall in Hseg. rewrite bracket_skip by plain Hseg. exact IH.
    + apply wf_named in Hseg as [Hn Hne]. rewrite <- !app_assoc.
      rewrite bracket_skip by one. rewrite bracket_skip by plain Hn. exact IH.
    + apply wf_named in Hseg as [Hn Hne]. rewrite <- !app_assoc.
      change (str "{") with ["{"%char]. change (str "}") with ["}"%char].
      rewrite (bracket_hit "{" "}" n (renderPath segs)); [| auto | auto | exact Hne | plain Hn].
      rewrite IH. reflexivity.
    + apply wf_named in Hseg as [Hn Hne]. rewrite <- !app_assoc.
      change (str "[") with ["["%char]. change (str "]") with ["]"%char].
      rewrite (bracket_hit "[" "]" n (renderPath segs)); [| auto | auto | exact Hne | plain Hn].
      rewrite IH. reflexivity.
    + apply wf_named in Hseg as [Hn Hne]. rewrite <- !app_assoc.
      rewrite bracket_skip by one. rewrite bracket_skip by plain Hn.
      rewrite bracket_skip by one. exact IH.
Qed.

Lemma angle_segs segs :
  forallb wf segs = true ->
  matchG EndpointDiscovery.angleRe (renderPath segs)
  = map (fun n => str "<" ++ n ++ str ">") (angleNames segs).
Proof.
  induction segs as [|seg segs IH]; intros Hwf.
  - apply angle_nil.
  - simpl in Hwf. apply andb_prop in Hwf as [Hseg Hsegs]. specialize (IH Hsegs).
    change (renderPath (seg :: segs)) with (str "/" ++ render seg ++ renderPath segs).
    rewrite angle_skip by one.
    destruct seg as [w|n|n|n|n]; cbn [render wf] in *;
      [ change (angleNames (Plain w :: segs)) with (angleNames segs)
      | change (angleNames (Colon n :: segs)) with (angleNames segs)
      | change (angleNames (Curly n :: segs)) with (angleNames segs)
      | change (angleNames (Square n :: segs)) with (angleNames segs)
      | change (angleNames (Angle n :: segs)) with (n :: angleNames segs) ].
    + apply word_Forall in Hseg. rewrite angle_skip by plain Hseg. exact IH.
    + apply wf_named in Hseg as [Hn Hne]. rewrite <- !app_assoc.
      rewrite angle_skip by one. rewrite angle_skip by plain Hn. exact IH.
    + apply wf_named in Hseg as [Hn Hne]. rewrite <- !app_assoc.
      rewrite angle_skip by one. rewrite angle_skip by plain Hn.
      rewrite angle_skip by one. exact IH.
    + apply wf_named in Hseg as [Hn Hne]. rewrite <- !app_assoc.
      rewrite angle_skip by one. rewrite angle_skip by plain Hn.
      rewrite angle_skip by one. exact IH.
    + apply wf_named in Hseg as [Hn Hne]. rewrite <- !app_assoc.
      rewrite angle_hit; [| exact Hne | plain Hn].
      rewrite IH. reflexivity.
Qed.

Lemma slice1_colon n : slice1 (str ":" ++ n) = n.
Proof. reflexivity. Qed.

Lemma slice1m1_wrap o c n : slice1m1 ([o] ++ n ++ [c]) = n.
Proof.
  unfold slice1m1. simpl. rewrite length_app. simpl.
  replace (length n + 1 - 1) with (length n) by lia.
  apply take_app_length.
Qed.

Lemma bracketTexts_names segs : map slice1m1 (bracketTexts segs) = bracketNames segs.
Proof.
  induction segs as [|seg segs IH]; [reflexivity|].
  destruct seg as [w|n|n|n|n]; try exact IH.
  - change (bracketTexts (Curly n :: segs))
      with ((["{"%char] ++ n ++ ["}"%char]) :: bracketTexts segs).
    change (bracketNames (Curly n :: segs)) with (n :: bracketNames segs).
    cbn [map]. rewrite slice1m1_wrap, IH. reflexivity.
  - change (bracketTexts (Square n :: segs))
      with ((["["%char] ++ n ++ ["]"%char]) :: bracketTexts segs).
    change (bracketNames (Square n :: segs)) with (n :: bracketNames segs).
    cbn [map]. rewrite slice1m1_wrap, IH. reflexivity.
Qed.

(** Claim C4, amended.  On a path made of slash-separated segments,
    each of them a plain text or one parameter written [:name],
    [{name}], [[name]] or [<name>], where the plain texts and the
    names have none of the characters [/ : { } [ ] < >] and the names
    are not empty, parameter extraction returns the names of the
    colon-prefixed parameters in their order of appearance, then those
    of the brace- or bracket-delimited parameters in their order of
    appearance, then those of the angle-bracket-delimited parameters
    in their order of appearance.  For a path that uses one syntax
    this is the order of appearance. *)
Theorem extractPathParams_segments segs :
  forallb wf segs = true ->
  EndpointDiscovery.extractPathParams (renderPath segs)
  = colonNames segs ++ bracketNames segs ++ angleNames segs.
Proof.
  intros Hwf. unfold EndpointDiscovery.extractPathParams. cbn [app].
  rewrite colon_segs, bracket_segs, angle_segs by exact Hwf.
  rewrite <- app_assoc. f_equal; [|f_equal].
  - rewrite map_map. erewrite map_ext; [apply map_id|]. intros n. apply slice1_colon.
  - apply bracketTexts_names.
  - rewrite map_map. erewrite map_ext; [apply map_id|]. intros n.
    apply (slice1m1_wrap "<" ">" n).
Qed.

(** ** Deduplication and cursor lookup *)

Section Endpoints.

Import EndpointDiscovery DedupSpec.

Lemma seen_cons (x : list ascii) (l : list (list ascii)) (seen : gset (list ascii)) :
  list_to_set (x :: l) ∪ seen = list_to_set l ∪ ({[x]} ∪ seen).
Proof.
  rewrite list_to_set_cons, (comm_L (∪) {[x]} (list_to_set l)), <- (assoc_L (∪)).
  reflexivity.
Qed.

Lemma dedupFilter_app seen l1 l2 :
  dedupFilter seen (l1 ++ l2)
  = dedupFilter seen l1 ++ dedupFilter (list_to_set (key <$> l1) ∪ seen) l2.
Proof.
  revert seen. induction l1 as [|ep l1 IH]; intros seen; cbn [app dedupFilter fmap list_fmap].
  - rewrite list_to_set_nil, (left_id_L ∅ (∪)). reflexivity.
  - rewrite seen_cons. case_bool_decide as Hin.
    + assert ({[key ep]} ∪ seen = seen) as ->; [|apply IH].
      apply (subseteq_union_1_L (C := gset (list ascii))).
      apply singleton_subseteq_l. exact Hin.
    + rewrite IH. reflexivity.
Qed.

Lemma dedupFilter_keys seen l ep :
  ep ∈ dedupFilter seen l -> (key ep ∉ seen) /\ ep ∈ l.
Proof.
  revert seen. induction l as [|x l IH]; intros seen H; simpl in H.
  - inversion H.
  - case_bool_decide as Hin.
    + apply IH in H as [H1 H2]. split; [exact H1 | right; exact H2].
    + apply elem_of_cons in H as [->|H].
      * split; [exact Hin | left].
      * apply IH in H as [H1 H2]. split; [|right; exact H2].
        intros Hs. apply H1. apply elem_of_union_r. exact Hs.
Qed.

Lemma dedupFilter_NoDup seen l : NoDup (key <$> dedupFilter seen l).
Proof.
  revert seen. induction l as [|x l IH]; intros seen; simpl.
  - constructor.
  - case_bool_decide as Hin; [apply IH|].
    simpl. constructor; [|apply IH].
    intros H. apply list_elem_of_fmap in H as (y & Hy & Hin').
    apply dedupFilter_keys in Hin' as [Hk _]. apply Hk. rewrite Hy.
    apply elem_of_union_l, elem_of_singleton. reflexivity.
Qed.

Lemma dedupFilter_sublist seen l : sublist (dedupFilter seen l) l.
Proof.
  revert seen. induction l as [|x l IH]; intros seen; simpl.
  - constructor.
  - case_bool_decide; [apply sublist_cons, IH | apply sublist_skip, IH].
Qed.

Lemma dedupFilter_id seen l :
  NoDup (key <$> l) -> (forall ep, ep ∈ l -> key ep ∉ seen) -> dedupFilter seen l = l.
Proof.
  revert seen. induction l as [|x l IH]; intros seen Hnd Hs; simpl; [reflexivity|].
  inversion Hnd as [|? ? Hx Hnd']; subst.
  rewrite bool_decide_eq_false_2 by (apply Hs; left).
  f_equal. apply IH; [exact Hnd'|].
  intros ep Hep Hin. apply elem_of_union in Hin as [Hin|Hin].
  - apply elem_of_singleton in Hin. apply Hx. rewrite <- Hin.
    apply list_elem_of_fmap. exists ep. auto.
  - apply (Hs ep); [right; exact Hep | exact Hin].
Qed.

Lemma deduplicate_snoc l ep :
  deduplicateEndpoints (l ++ [ep])
  = if bool_decide (key ep ∈ key <$> l) then deduplicateEndpoints l
    else deduplicateEndpoints l ++ [ep].
Proof.
  unfold deduplicateEndpoints. rewrite dedupFilter_app. cbn [dedupFilter].
  rewrite (right_id_L ∅ (∪)).
  assert (key ep ∈ (list_to_set (key <$> l) : gset (list ascii)) <-> key ep ∈ key <$> l)
    as Hiff by apply elem_of_list_to_set.
  case_bool_decide as H1; case_bool_decide as H2;
    first [tauto | apply app_nil_r | reflexivity].
Qed.

Lemma deduplicate_idem l :
  deduplicateEndpoints (deduplicateEndpoints l) = deduplicateEndpoints l.
Proof.
  unfold deduplicateEndpoints at 1. apply dedupFilter_id.
  - apply dedupFilter_NoDup.
  - intros ep _. apply not_elem_of_empty.
Qed.

Lemma dedupFilter_seen seen l :
  (forall ep, ep ∈ l -> key ep ∈ seen) -> dedupFilter seen l = [].
Proof.
  intros H. induction l as [|x l IH]; simpl; [reflexivity|].
  rewrite bool_decide_eq_true_2 by (apply H; left).
  apply IH. intros ep Hep. apply H. right. exact Hep.
Qed.

Lemma deduplicate_twice l :
  deduplicateEndpoints (l ++ l) = deduplicateEndpoints l.
Proof.
  unfold deduplicateEndpoints. rewrite dedupFilter_app.
  rewrite (dedupFilter_seen (list_to_set (key <$> l) ∪ ∅) l); [apply app_nil_r|].
  intros ep Hep. apply elem_of_union_l, elem_of_list_to_set, list_elem_of_fmap.
  exists ep. auto.
Qed.

(** The key determines the triple when methods and files have no colon. *)
Lemma split_colon_l (a b c d : list ascii) :
  existsb (eqc ":") a = false -> existsb (eqc ":") c = false ->
  a ++ ":"%char :: b = c ++ ":"%char :: d -> a = c /\ b = d.
Proof.
  revert c. induction a as [|x a IH]; intros c Ha Hc H.
  - destruct c as [|y c]; simpl in *.
    + injection H as ->. auto.
    + injection H as <- _. simpl in Hc. discriminate.
  - destruct c as [|y c]; simpl in *.
    + injection H as -> _. simpl in Ha. discriminate.
    + injection H as -> H. apply orb_false_elim in Ha as [_ Ha].
      apply orb_false_elim in Hc as [_ Hc].
      destruct (IH c Ha Hc H) as [-> ->]. auto.
Qed.

Lemma existsb_rev {A} (p : A -> bool) l : existsb p (rev l) = existsb p l.
Proof.
  induction l as [|x l IH]; [reflexivity|].
  simpl. rewrite existsb_app, IH. simpl. rewrite orb_false_r. apply orb_comm.
Qed.

Lemma split_colon_r (a b c d : list ascii) :
  existsb (eqc ":") b = false -> existsb (eqc ":") d = false ->
  a ++ ":"%char :: b = c ++ ":"%char :: d -> a = c /\ b = d.
Proof.
  intros Hb Hd H.
  assert (rev b ++ ":"%char :: rev a = rev d ++ ":"%char :: rev c) as H'.
  { apply (f_equal (@rev ascii)) in H. rewrite !rev_app_distr in H. simpl in H.
    rewrite <- !app_assoc in H. exact H. }
  apply split_colon_l in H' as [H1 H2].
  - apply (f_equal (@rev ascii)) in H1, H2. rewrite !rev_involutive in H1, H2. auto.
  - rewrite existsb_rev. exact Hb.
  - rewrite existsb_rev. exact Hd.
Qed.

Lemma key_triple e1 e2 :
  colonFree e1 = true -> colonFree e2 = true ->
  (key e1 = key e2 <-> triple e1 = triple e2).
Proof.
  unfold colonFree, key, triple. intros H1 H2.
  apply andb_prop in H1 as [Hm1 Hf1]. apply andb_prop in H2 as [Hm2 Hf2].
  apply negb_true_iff in Hm1, Hf1, Hm2, Hf2.
  split; intros H.
  - change (str ":") with [":"%char] in H. simpl in H.
    apply split_colon_l in H as [Hm H]; [|assumption|assumption].
    apply split_colon_r in H as [Hp Hf]; [|assumption|assumption].
    congruence.
  - injection H as -> -> ->. reflexivity.
Qed.

Lemma triple_key e1 e2 : triple e1 = triple e2 -> key e1 = key e2.
Proof. unfold triple, key. intros H. injection H as -> -> ->. reflexivity. Qed.

Lemma NoDup_fmap_weaken {A B C} (f : A -> B) (g : A -> C) (l : list A) :
  (forall x y, g x = g y -> f x = f y) -> NoDup (f <$> l) -> NoDup (g <$> l).
Proof.
  intros Hfg. induction l as [|x l IH]; simpl; intros H; [constructor|].
  inversion H as [|? ? Hx Hl]; subst. constructor; [|apply IH; exact Hl].
  intros Hin. apply Hx. apply list_elem_of_fmap in Hin as (y & Hy & Hin).
  apply list_elem_of_fmap. exists y. split; [apply Hfg; exact Hy | exact Hin].
Qed.

Lemma elem_of_fmap_triple (l : list DiscoveredEndpoint) ep :
  forallb colonFree l = true -> colonFree ep = true ->
  (key ep ∈ key <$> l <-> triple ep ∈ triple <$> l).
Proof.
  intros Hl Hep. rewrite !list_elem_of_fmap. split; intros (y & Hy & Hin); exists y.
  - split; [|exact Hin]. apply key_triple; auto.
    apply (proj1 (forallb_forall _ _) Hl). apply list_elem_of_In. exact Hin.
  - split; [|exact Hin]. apply triple_key. exact Hy.
Qed.

(** Deduplication keeps, for each key, the first element with that
    key, in first-seen order: an element appended to a list survives
    exactly when no earlier element has its key.  For endpoints whose
    method and file name contain no colon the key determines the
    triple (method, path, file), and the survivors are the first
    elements of each triple.  The result is always a sublist of the
    input with no two endpoints of the same triple. *)
Theorem deduplicate_first_seen (l : list DiscoveredEndpoint) (ep : DiscoveredEndpoint) :
  forallb colonFree (l ++ [ep]) = true ->
  deduplicateEndpoints [] = []
  /\ deduplicateEndpoints (l ++ [ep])
     = (if bool_decide (triple ep ∈ triple <$> l) then deduplicateEndpoints l
        else deduplicateEndpoints l ++ [ep])
  /\ sublist (deduplicateEndpoints (l ++ [ep])) (l ++ [ep])
  /\ NoDup (triple <$> deduplicateEndpoints (l ++ [ep])).
Proof.
  intros H. rewrite forallb_app in H. apply andb_prop in H as [Hl Hep].
  simpl in Hep. rewrite andb_true_r in Hep.
  split; [reflexivity|]. split; [|split].
  - rewrite deduplicate_snoc.
    pose proof (elem_of_fmap_triple l ep Hl Hep) as Hiff.
    case_bool_decide as H1; case_bool_decide as H2; tauto || reflexivity.
  - apply dedupFilter_sublist.
  - apply (NoDup_fmap_weaken key triple); [apply triple_key | apply dedupFilter_NoDup].
Qed.

(** Claim C3.  Deduplication should keep the first endpoint of every
    (method, path, file) triple.  The key it compares is the string
    [method:path:file], which two different triples can share: the
    route [/a:/w/b] of the file [/w/x.js] and the route [/a] of the
    file [/w/b:/w/x.js].  The second endpoint is the first of its
    triple and is dropped. *)
Theorem deduplicate_key_collision :
  triple routeWithColon <> triple fileWithColon
  /\ key routeWithColon = key fileWithColon
  /\ deduplicateEndpoints [routeWithColon; fileWithColon] = [routeWithColon].
Proof.
  split; [discriminate|]. split; [reflexivity|]. vm_compute. reflexivity.
Qed.

(** Claim C7.  For a deduplicated list [s], deduplicating [s ++ s]
    gives [s] back, same elements in the same order; two discovery runs
    over the same files give the same keys, and deduplicating the
    concatenation of their results gives the result of one run. *)
Theorem deduplicate_self_concat :
  (forall l : list DiscoveredEndpoint,
     let s := deduplicateEndpoints l in deduplicateEndpoints (s ++ s) = s)
  /\ (forall files nextjsEndpoints,
        let run1 := discoverEndpoints files nextjsEndpoints in
        let run2 := discoverEndpoints files nextjsEndpoints in
        key <$> run1 = key <$> run2
        /\ deduplicateEndpoints (run1 ++ run2) = run1).
Proof.
  assert (forall l : list DiscoveredEndpoint,
             deduplicateEndpoints (deduplicateEndpoints l ++ deduplicateEndpoints l)
             = deduplicateEndpoints l) as H.
  { intros l. rewrite deduplicate_twice. apply deduplicate_idem. }
  split; [exact H|].
  intros files nextjsEndpoints run1 run2. split; [reflexivity|].
  subst run1 run2. unfold discoverEndpoints. apply H.
Qed.

Lemma deduplicate_fixed_concat (s : list DiscoveredEndpoint) :
  deduplicateEndpoints s = s -> deduplicateEndpoints (s ++ s) = s.
Proof. intros H. rewrite deduplicate_twice. exact H. Qed.

(** The loop of [findEndpointAtPosition]. *)
Lemma closer_fold cursor : forall endpoints st,
  let st' := fold_left (closer cursor) endpoints st in
  (forall e d, st = (Some e, Some d) -> d = cursor - line e /\ line e <= cursor) ->
  (fst st = None <-> snd st = None) ->
  match st' with
  | (Some e, Some d) =>
      d = cursor - line e /\ line e <= cursor
      /\ (e ∈ endpoints \/ fst st = Some e)
      /\ (forall e', e' ∈ endpoints -> line e' <= cursor -> line e' <= line e)
      /\ (forall e0 d0, st = (Some e0, Some d0) -> line e0 <= line e)
  | (None, None) =>
      st = (None, None) /\ forall e', e' ∈ endpoints -> cursor < line e'
  | _ => False
  end.
Proof.
  induction endpoints as [|x l IH]; intros st st' Hst Hnone; subst st'.
  - simpl. destruct st as [[e|] [d|]]; simpl in *.
    + destruct (Hst e d eq_refl) as [-> Hle]. repeat split; auto.
      * intros e' He'. inversion He'.
      * intros e0 d0 H0. injection H0 as <- _. lia.
    + destruct Hnone as [_ H]. specialize (H eq_refl). discriminate.
    + destruct Hnone as [H _]. specialize (H eq_refl). discriminate.
    + split; [reflexivity|]. intros e' He'. inversion He'.
  - cbn [fold_left].
    set (st1 := closer cursor st x).
    assert (forall e d, st1 = (Some e, Some d) -> d = cursor - line e /\ line e <= cursor) as Hst1.
    { intros e d. subst st1. unfold closer.
      destruct (Nat.leb_spec (line x) cursor).
      - destruct (below (cursor - line x) (snd st)).
        + intros H'. injection H' as <- <-. auto.
        + apply Hst.
      - apply Hst. }
    assert (fst st1 = None <-> snd st1 = None) as Hnone1.
    { subst st1. unfold closer. destruct (line x <=? cursor); [|exact Hnone].
      destruct (below (cursor - line x) (snd st)); [|exact Hnone].
      simpl. split; discriminate. }
    specialize (IH st1 Hst1 Hnone1). cbv zeta in IH.
    destruct (fold_left (closer cursor) l st1) as [[e|] [d|]]; try exact IH.
    + destruct IH as (Hd & Hle & Hin & Hmax & Hprev).
      split; [exact Hd|]. split; [exact Hle|].
      assert (line x <= cursor -> line x <= line e) as Hx.
      { intros Hxc. subst st1. unfold closer in *.
        destruct (Nat.leb_spec (line x) cursor); [|lia].
        destruct st as [[e0|] [d0|]]; simpl in *.
        - destruct (Nat.ltb_spec (cursor - line x) d0).
          + apply (Hprev x (cursor - line x) eq_refl).
          + destruct (Hst e0 d0 eq_refl) as [-> Hle0].
            specialize (Hprev e0 (cursor - line e0) eq_refl). lia.
        - destruct Hnone as [_ Hn]. specialize (Hn eq_refl). discriminate.
        - destruct Hnone as [Hn _]. specialize (Hn eq_refl). discriminate.
        - apply (Hprev x (cursor - line x) eq_refl). }
      split; [|split].
      * destruct Hin as [Hin|Hin]; [left; right; exact Hin|].
        subst st1. unfold closer in Hin.
        destruct (line x <=? cursor); [|right; exact Hin].
        destruct (below (cursor - line x) (snd st)); [|right; exact Hin].
        simpl in Hin. injection Hin as ->. left. left.
      * intros e' He' Hle'. apply elem_of_cons in He' as [->|He']; [auto|].
        apply Hmax; assumption.
      * intros e0 d0 H0. subst st. subst st1. unfold closer in Hprev.
        destruct (Nat.leb_spec (line x) cursor).
        -- simpl in Hprev. destruct (Nat.ltb_spec (cursor - line x) d0).
           ++ destruct (Hst e0 d0 eq_refl) as [-> Hle0].
              specialize (Hprev x (cursor - line x) eq_refl). lia.
           ++ apply (Hprev e0 d0 eq_refl).
        -- apply (Hprev e0 d0 eq_refl).
    + destruct IH as [Hs Hall]. subst st1. unfold closer in Hs.
      destruct (Nat.leb_spec (line x) cursor).
      * destruct (below (cursor - line x) (snd st)) eqn:Eb; [discriminate|].
        subst st. discriminate.
      * split; [exact Hs|]. intros e' He'.
        apply elem_of_cons in He' as [->|He']; [lia | apply Hall; exact He'].
Qed.

(** Claim C5.  The cursor lookup returns an endpoint of the list whose
    line is at most the cursor line, is the largest such line, and is
    at most 10 lines before the cursor; it returns nothing exactly when
    every endpoint at or before the cursor is more than 10 lines
    before it, whatever lies after the cursor. *)
Theorem lookupAt_nearest_preceding (endpoints : list DiscoveredEndpoint) (cursor : nat) :
  match lookupAt endpoints cursor with
  | Some e =>
      e ∈ endpoints /\ line e <= cursor /\ cursor - line e <= 10
      /\ (forall e', e' ∈ endpoints -> line e' <= cursor -> line e' <= line e)
  | None =>
      forall e, e ∈ endpoints -> line e <= cursor -> 10 < cursor - line e
  end.
Proof.
  unfold lookupAt.
  pose proof (closer_fold cursor endpoints (None, None)) as H. cbv zeta in H.
  assert (forall (e : DiscoveredEndpoint) (d : nat),
             (None, None) = (Some e, Some d) -> d = cursor - line e /\ line e <= cursor)
    as H1 by (intros; discriminate).
  specialize (H H1 (conj (fun _ => eq_refl) (fun _ => eq_refl))).
  destruct (fold_left (closer cursor) endpoints (None, None)) as [[e|] [d|]];
    try contradiction.
  - destruct H as (Hd & Hle & Hin & Hmax & _).
    destruct Hin as [Hin|Hin]; [|discriminate].
    destruct (Nat.leb_spec d 10).
    + repeat split; auto. lia.
    + intros e' He' Hle'. specialize (Hmax e' He' Hle'). lia.
  - destruct H as [_ H]. intros e He Hle. specialize (H e He). lia.
Qed.

Lemma findEndpointAtPosition_lookupAt document positionLine :
  findEndpointAtPosition document positionLine
  = lookupAt (findEndpointsInDocument document) positionLine.
Proof. reflexivity. Qed.

(** The example of the specification: endpoints at lines 5 and 20. *)
Example lookupAt_example (a b : DiscoveredEndpoint) :
  line a = 5 -> line b = 20 ->
  lookupAt [a; b] 8 = Some a /\ lookupAt [a; b] 35 = None
  /\ lookupAt [a; b] 4 = None /\ lookupAt [a; b] 20 = Some b.
Proof.
  intros Ha Hb. unfold lookupAt, closer. simpl. rewrite Ha, Hb. simpl. auto.
Qed.

End Endpoints.

(** ** The environment store *)

Section Environments.

Import EnvironmentManager EnvSpec.

Lemma eqs_spec s t : eqs s t = true <-> s = t.
Proof.
  revert t. induction s as [|a s IH]; intros [|b t]; simpl; split; intros H;
    try discriminate; try reflexivity.
  - apply andb_prop in H as [H1 H2]. apply Ascii.eqb_eq in H1. apply IH in H2. congruence.
  - injection H as -> ->. apply andb_true_intro. split; [apply Ascii.eqb_refl | apply IH; reflexivity].
Qed.

Lemma eqs_refl s : eqs s s = true.
Proof. apply eqs_spec. reflexivity. Qed.

Lemma eqs_false s t : eqs s t = false <-> s <> t.
Proof.
  split.
  - intros H E. apply eqs_spec in E. congruence.
  - intros H. destruct (eqs s t) eqn:E; [|reflexivity]. apply eqs_spec in E. contradiction.
Qed.

Section StoreFacts.
Context {N V : Type}.
Variable clock : nat -> Z.
Variable random : nat -> list ascii.
Implicit Types (w : World N V) (envs : list (Environment N V)).

Lemma activeCount_app envs1 envs2 :
  activeCount (envs1 ++ envs2) = activeCount envs1 + activeCount envs2.
Proof. induction envs1 as [|e l IH]; simpl; [reflexivity|]. rewrite IH. lia. Qed.

Lemma activeCount_none envs :
  activeCount (map (fun env => setIsActive env false) envs) = 0.
Proof. induction envs as [|e l IH]; simpl; [reflexivity | exact IH]. Qed.

Lemma existsb_id_false i envs :
  existsb (fun env => eqs (id env) i) envs = false <-> i ∉ ids envs.
Proof.
  unfold ids. induction envs as [|e l IH]; simpl.
  - split; [intros _ H; inversion H | reflexivity].
  - rewrite orb_false_iff, IH, eqs_false, not_elem_of_cons. split; intros [H1 H2]; split; auto.
Qed.

Lemma mark_unknown i envs :
  i ∉ ids envs ->
  map (fun env => setIsActive env (eqs (id env) i)) envs
  = map (fun env => setIsActive env false) envs.
Proof.
  unfold ids. induction envs as [|e l IH]; simpl; intros H; [reflexivity|].
  apply not_elem_of_cons in H as [H1 H2].
  rewrite IH by exact H2. f_equal. f_equal. apply eqs_false. congruence.
Qed.

(** A failed lookup: nothing is passed to [globalState.update], but
    the loop has cleared every flag of the array in memory. *)
Lemma setActiveEnvironment_unknown i w :
  i ∉ ids (memory w) ->
  setActiveEnvironment i w
  = (false, mkWorld (map (fun env => setIsActive env false) (memory w))
                    (saved w) (time w) (draws w)).
Proof.
  intros H. unfold setActiveEnvironment, getEnvironments, globalState_get, assign.
  unfold mbind, St_bind, mret, St_ret. cbn [memory saved time draws].
  rewrite (proj2 (existsb_id_false i (memory w)) H).
  rewrite mark_unknown by exact H. reflexivity.
Qed.

Lemma activeCount_mark i envs :
  NoDup (ids envs) ->
  activeCount (map (fun env => setIsActive env (eqs (id env) i)) envs)
  = if existsb (fun env => eqs (id env) i) envs then 1 else 0.
Proof.
  unfold ids. induction envs as [|e l IH]; simpl; intros H; [reflexivity|].
  inversion H as [|? ? Hx Hl]; subst.
  destruct (eqs (id e) i) eqn:E; simpl.
  - apply eqs_spec in E. subst i.
    rewrite mark_unknown by exact Hx. rewrite activeCount_none. reflexivity.
  - apply IH. exact Hl.
Qed.

Lemma setActiveEnvironment_known i w :
  i ∈ ids (memory w) ->
  let marked := map (fun env => setIsActive env (eqs (id env) i)) (memory w) in
  setActiveEnvironment i w = (true, mkWorld marked marked (time w) (draws w)).
Proof.
  intros H marked. unfold setActiveEnvironment, getEnvironments, globalState_get, assign,
    globalState_update.
  unfold mbind, St_bind, mret, St_ret. cbn [memory saved time draws].
  destruct (existsb (fun env => eqs (id env) i) (memory w)) eqn:E; [reflexivity|].
  apply existsb_id_false in E. contradiction.
Qed.

Lemma setActiveEnvironment_one i w :
  NoDup (ids (memory w)) ->
  activeCount (memory (snd (setActiveEnvironment i w))) <= 1.
Proof.
  intros Hnd. destruct (decide (i ∈ ids (memory w))) as [Hin|Hin].
  - rewrite setActiveEnvironment_known by exact Hin. cbn [snd memory].
    rewrite activeCount_mark by exact Hnd. destruct (existsb _ _); lia.
  - rewrite setActiveEnvironment_unknown by exact Hin. cbn [snd memory].
    rewrite activeCount_none. lia.
Qed.

Lemma createEnvironment_spec name variables w :
  let newEnv :=
    mkEnv (str "env-" ++ decimal (clock (S (time w))) ++ str "-" ++ random (draws w))
          name variables (length (memory w) =? 0) (clock (time w)) (clock (time w)) in
  createEnvironment clock random name variables w
  = (newEnv, mkWorld (memory w ++ [newEnv]) (memory w ++ [newEnv])
                     (S (S (time w))) (S (draws w))).
Proof. reflexivity. Qed.

Lemma createEnvironment_one name variables w :
  activeCount (memory w) <= 1 ->
  activeCount (memory (snd (createEnvironment clock random name variables w))) <= 1.
Proof.
  intros H. rewrite createEnvironment_spec. cbn [snd memory].
  rewrite activeCount_app. simpl.
  destruct (memory w) as [|e l]; simpl in *; lia.
Qed.

Lemma activeCount_filter (P : Environment N V -> Prop) `{forall e, Decision (P e)} envs :
  activeCount (filter P envs) <= activeCount envs.
Proof.
  induction envs as [|e l IH]; simpl; [lia|].
  rewrite filter_cons. destruct (decide (P e)); simpl; lia.
Qed.

Lemma activeCount_existsb envs :
  existsb isActive envs = false -> activeCount envs = 0.
Proof.
  induction envs as [|e l IH]; simpl; [reflexivity|].
  intros H. apply orb_false_elim in H as [-> H]. apply IH. exact H.
Qed.

Lemma deleteEnvironment_one i w :
  activeCount (memory w) <= 1 ->
  activeCount (memory (snd (deleteEnvironment i w))) <= 1.
Proof.
  intros H. unfold deleteEnvironment, getEnvironments, globalState_get, globalState_update.
  unfold mbind, St_bind, mret, St_ret. cbn [memory saved time draws].
  set (filtered := filter (fun e => negb (eqs (id e) i) = true) (memory w)).
  destruct (length filtered =? length (memory w)); [exact H|].
  cbn [snd memory].
  pose proof (activeCount_filter (fun e => negb (eqs (id e) i) = true) (memory w)) as Hf.
  fold filtered in Hf.
  destruct (existsb isActive filtered) eqn:E; simpl.
  - lia.
  - apply activeCount_existsb in E.
    destruct filtered as [|e l]; simpl in *; [lia|].
    destruct (isActive e); simpl in *; lia.
Qed.

Lemma activeCount_zero envs : activeCount envs = 0 -> existsb isActive envs = false.
Proof.
  induction envs as [|e l IH]; simpl; [reflexivity|].
  destruct (isActive e); simpl; [lia | exact IH].
Qed.

Lemma delete_active_filtered i envs e :
  find isActive envs = Some e -> id e = i -> activeCount envs <= 1 ->
  let filtered := filter (fun e => negb (eqs (id e) i) = true) envs in
  existsb isActive filtered = false /\ length filtered < length envs.
Proof.
  intros Hfind Hid Hone. cbv zeta.
  induction envs as [|x l IH]; [discriminate|].
  simpl in Hfind, Hone. rewrite filter_cons.
  destruct (isActive x) eqn:Ex.
  - injection Hfind as ->. rewrite Hid, eqs_refl.
    rewrite decide_False by (simpl; discriminate).
    pose proof (activeCount_filter (fun e => negb (eqs (id e) i) = true) l) as Hf.
    pose proof (length_filter (fun e => negb (eqs (id e) i) = true) l) as Hl.
    split; [apply activeCount_zero; lia | simpl; lia].
  - destruct (IH Hfind) as [H1 H2]; [simpl in Hone; lia|].
    destruct (decide _); simpl; [rewrite Ex; simpl|]; split; auto; lia.
Qed.

(** Deleting the active environment promotes the first remaining one. *)
Lemma deleteEnvironment_promotes i w e :
  find isActive (memory w) = Some e -> id e = i ->
  activeCount (memory w) <= 1 ->
  let promoted :=
    activateFirst (filter (fun e => negb (eqs (id e) i) = true) (memory w)) in
  deleteEnvironment i w = (true, mkWorld promoted promoted (time w) (draws w))
  /\ (promoted <> [] -> activeCount promoted = 1).
Proof.
  intros Hfind Hid Hone promoted.
  destruct (delete_active_filtered i (memory w) e Hfind Hid Hone) as [Hnone Hlen].
  split.
  - unfold deleteEnvironment, getEnvironments, globalState_get, globalState_update.
    unfold mbind, St_bind, mret, St_ret. cbn [memory saved time draws].
    rewrite (proj2 (Nat.eqb_neq _ _)) by lia.
    rewrite Hnone. cbn [negb andb].
    destruct (filter _ (memory w)) as [|x l] eqn:Ef; reflexivity.
  - subst promoted. apply activeCount_existsb in Hnone.
    destruct (filter _ (memory w)) as [|x l]; [contradiction|].
    intros _. simpl in *. destruct (isActive x); simpl in *; lia.
Qed.

Lemma activeCount_insert envs : forall index old env,
  envs !! index = Some old -> isActive env = isActive old ->
  activeCount (<[index := env]> envs) = activeCount envs.
Proof.
  induction envs as [|x l IH]; intros [|index] old env Hl He; simpl in *;
    try discriminate.
  - injection Hl as ->. rewrite He. reflexivity.
  - rewrite (IH index old env Hl He). reflexivity.
Qed.

Lemma activeCount_alter (f : Environment N V -> Environment N V) envs index :
  (forall e, isActive (f e) = isActive e) ->
  activeCount (alter f index envs) = activeCount envs.
Proof.
  intros Hf. revert index. induction envs as [|x l IH]; intros [|index]; simpl;
    try reflexivity.
  - rewrite Hf. reflexivity.
  - fold (alter f index l). rewrite IH. reflexivity.
Qed.

(** An update that leaves [isActive] alone keeps the number of active
    environments. *)
Lemma updateEnvironment_count i updates w :
  new_isActive updates = None ->
  activeCount (memory (snd (updateEnvironment clock i updates w)))
  = activeCount (memory w).
Proof.
  intros Hu. unfold updateEnvironment, getEnvironments, globalState_get, assign,
    globalState_update, Date_now.
  unfold mbind, St_bind, mret, St_ret. cbn [memory saved time draws].
  destruct (findIndex _ (memory w)) as [index|]; [|reflexivity].
  destruct (memory w !! index) as [env|] eqn:El; [|reflexivity].
  cbn [snd memory]. apply (activeCount_insert _ index env); [exact El|].
  unfold merge. simpl. rewrite Hu. reflexivity.
Qed.

End StoreFacts.

Section TypedFacts.
Variable clock : nat -> Z.
Implicit Types (w : World (list ascii) (gmap (list ascii) (list ascii))).

Lemma createOrUpdateFromFile_count name variables sourceFile w :
  activeCount (memory (snd (createOrUpdateFromFile clock name variables sourceFile w)))
  = activeCount (memory w).
Proof.
  unfold createOrUpdateFromFile, getEnvironments, globalState_get, assign,
    globalState_update, Date_now.
  unfold mbind, St_bind, mret, St_ret. cbn [memory saved time draws].
  destruct (findIndex _ (memory w)) as [index|]; cbn [snd memory].
  - apply activeCount_alter. reflexivity.
  - rewrite activeCount_app. simpl. lia.
Qed.

Lemma loadFolder_count folder w :
  activeCount (memory (snd (loadFolder clock folder w))) = activeCount (memory w).
Proof.
  unfold loadFolder. revert w.
  induction envFiles as [|f fs IH]; intros w; [reflexivity|].
  cbn [fold_right]. destruct (folder (str f)) as [content|]; [|apply IH].
  unfold mbind, St_bind.
  destruct (createOrUpdateFromFile clock _ _ _ w) as [u w1] eqn:E.
  rewrite IH.
  change w1 with (snd (u, w1)). rewrite <- E. apply createOrUpdateFromFile_count.
Qed.

Lemma loadFromEnvFiles_count folders w :
  activeCount (memory (snd (loadFromEnvFiles clock folders w))) = activeCount (memory w).
Proof.
  destruct folders as [folders|]; [|reflexivity]. simpl. revert w.
  induction folders as [|f fs IH]; intros w; [reflexivity|].
  cbn [fold_right]. unfold mbind, St_bind.
  destruct (loadFolder clock f w) as [u w1] eqn:E.
  rewrite IH. change w1 with (snd (u, w1)). rewrite <- E. apply loadFolder_count.
Qed.

Lemma setVariable_count envId key value w :
  activeCount (memory (snd (setVariable clock envId key value w)))
  = activeCount (memory w).
Proof.
  unfold setVariable, getEnvironments, globalState_get, assign,
    globalState_update, Date_now.
  unfold mbind, St_bind, mret, St_ret. cbn [memory saved time draws].
  destruct (findIndex _ (memory w)) as [index|]; cbn [snd memory]; [|reflexivity].
  apply activeCount_alter. reflexivity.
Qed.

Lemma deleteVariable_count envId key w :
  activeCount (memory (snd (deleteVariable clock envId key w)))
  = activeCount (memory w).
Proof.
  unfold deleteVariable, getEnvironments, globalState_get, assign,
    globalState_update, Date_now.
  unfold mbind, St_bind, mret, St_ret. cbn [memory saved time draws].
  destruct (list_find _ (memory w)) as [[index env]|]; cbn [snd memory]; [|reflexivity].
  destruct (negb _); cbn [snd memory]; [reflexivity|].
  apply activeCount_alter. reflexivity.
Qed.

End TypedFacts.

(** Claim C6.  Every operation should leave at most one environment
    active.  [updateEnvironment] merges whatever [updates] holds: with
    [isActive: true] for an inactive environment while another one is
    active, the store ends with two active environments.  The other
    operations keep the invariant (lemmas above). *)
Theorem updateEnvironment_two_active :
  activeCount (memory twoEnvs) = 1
  /\ NoDup (ids (memory twoEnvs))
  /\ let w' := snd (updateEnvironment (fun _ => 0%Z) (str "b") activate twoEnvs) in
     activeCount (memory w') = 2 /\ activeCount (saved w') = 2
     /\ isActive <$> memory w' = [true; true].
Proof.
  split; [reflexivity|]. split.
  - unfold ids. simpl. apply NoDup_cons. split; [|apply NoDup_singleton].
    intros H. apply list_elem_of_singleton in H. discriminate.
  - vm_compute. auto.
Qed.

(** Claim C10.  A failed lookup should leave every flag as it was.
    The loop assigns [isActive] on every element before [found] is
    tested, and the elements are those of the array that
    [globalState.get] handed out: with an unknown id the call returns
    false and passes nothing to [globalState.update], but the active
    environment is no longer active for the next reader. *)
Theorem setActiveEnvironment_unknown_deactivates :
  let r := setActiveEnvironment (str "missing") twoEnvs in
  (str "missing" ∉ ids (memory twoEnvs))
  /\ getActiveEnvironment twoEnvs = (Some envA, twoEnvs)
  /\ fst r = false
  /\ saved (snd r) = saved twoEnvs
  /\ isActive <$> memory (snd r) = [false; false]
  /\ fst (getActiveEnvironment (snd r)) = None.
Proof.
  split; [|vm_compute; repeat split; reflexivity].
  unfold ids. simpl. intros H. repeat (apply elem_of_cons in H as [H|H]; [discriminate|]).
  inversion H.
Qed.

Section ImportFacts.
Variable clock : nat -> Z.
Variable random : nat -> list ascii.
Variable JSON_parse : list ascii -> option json.

(** Claim C9, amended.  [importEnvironment] returns [null] and leaves
    the state unchanged when the input is not valid JSON or parses to
    a value whose [name] or [variables] is missing or falsy (an empty
    string, zero, false, null); when both are present and truthy it
    returns an environment created with that name and those
    variables, appended to the stored list. *)
Theorem importEnvironment_result (jsonData : list ascii) (w : World json json) :
  (match JSON_parse jsonData with
   | None => True
   | Some data =>
       truthyJson (prop data "name") && truthyJson (prop data "variables") = false
   end ->
   importEnvironment clock random JSON_parse jsonData w = (None, w))
  /\ (forall data name variables,
        JSON_parse jsonData = Some data ->
        prop data "name" = Some name -> prop data "variables" = Some variables ->
        truthyJson (Some name) = true -> truthyJson (Some variables) = true ->
        exists env w',
          importEnvironment clock random JSON_parse jsonData w = (Some env, w')
          /\ EnvironmentManager.name env = name
          /\ EnvironmentManager.variables env = variables
          /\ memory w' = memory w ++ [env]
          /\ saved w' = memory w').
Proof.
  unfold importEnvironment. split.
  - destruct (JSON_parse jsonData) as [data|]; [|reflexivity].
    intros H. destruct data; try reflexivity.
    destruct (prop (JObject fields) "name") as [name|]; [|reflexivity].
    destruct (prop (JObject fields) "variables") as [variables|]; [|reflexivity].
    apply andb_false_iff in H as [H|H]; rewrite H; simpl; [reflexivity|].
    rewrite orb_true_r. reflexivity.
  - intros data name variables Hp Hn Hv Htn Htv. rewrite Hp.
    destruct data; try discriminate.
    rewrite Hn, Hv, Htn, Htv. cbn [negb orb].
    unfold mbind, St_bind. rewrite createEnvironment_spec.
    eexists _, _. split; [reflexivity|]. cbn. auto.
Qed.

End ImportFacts.

Lemma importEnvironment_result_witness :
  importEnvironment (fun _ => 0%Z) (fun _ => str "r") parseSamples (str "{") emptyWorld
  = (None, emptyWorld)
  /\ exists env w',
       importEnvironment (fun _ => 0%Z) (fun _ => str "r") parseSamples devText emptyWorld
       = (Some env, w')
       /\ EnvironmentManager.name env = JString (str "Dev")
       /\ EnvironmentManager.variables env = JObject [(str "K", JString (str "v"))]
       /\ memory w' = memory emptyWorld ++ [env]
       /\ saved w' = memory w'.
Proof.
  split.
  - apply (proj1 (importEnvironment_result (fun _ => 0%Z) (fun _ => str "r")
                    parseSamples (str "{") emptyWorld)).
    exact I.
  - apply (proj2 (importEnvironment_result (fun _ => 0%Z) (fun _ => str "r")
                    parseSamples devText emptyWorld) devData);
      reflexivity.
Defined.

(** Claim C9 as stated fails for a value that has both fields, one of
    them falsy: the JSON text with an empty string as name and the variables
    [{}] parses, has a [name] and a [variables] field, and is
    rejected. *)
Lemma importEnvironment_empty_name :
  parseSamples emptyNameText = Some emptyNameData
  /\ prop emptyNameData "name" = Some (JString [])
  /\ prop emptyNameData "variables" = Some (JObject [])
  /\ importEnvironment (fun _ => 0%Z) (fun _ => str "r") parseSamples emptyNameText
       emptyWorld = (None, emptyWorld).
Proof. repeat split; reflexivity. Qed.

(** ** Environment files *)

Lemma run_Seq ic r1 r2 i s c k :
  run ic (Seq r1 r2) i s c k = run ic r1 i s c (fun i' s' c' => run ic r2 i' s' c' k).
Proof. reflexivity. Qed.

Lemma run_Bol0 ic s c k : run ic Bol 0 s c k = k 0 s c.
Proof. reflexivity. Qed.

Lemma run_Chr_cons ic x i a s c k :
  run ic (Chr x) i (a :: s) c k = if chr_ok ic x a then k (S i) s c else None.
Proof. reflexivity. Qed.

Lemma run_Chr_nil ic x i c k : run ic (Chr x) i [] c k = None.
Proof. reflexivity. Qed.

Lemma run_Eol_nil ic i c k : run ic Eol i [] c k = k i [] c.
Proof. reflexivity. Qed.

Lemma run_Eol_cons ic i a s c k : run ic Eol i (a :: s) c k = None.
Proof. reflexivity. Qed.

Lemma match_at_envLine_pos i t : 0 < i -> match_at envLineRe i t = None.
Proof.
  intros H. unfold match_at, envLineRe. cbn [source ignoreCase ngroups cat].
  rewrite run_Seq. cbn [run]. destruct i; [lia | reflexivity].
Qed.

Lemma search_envLine_pos : forall t i, 0 < i -> search envLineRe i t = None.
Proof.
  induction t as [|a t IH]; intros i H; cbn [search]; rewrite match_at_envLine_pos by exact H.
  - reflexivity.
  - apply IH. lia.
Qed.

Lemma match1_envLine_at t : match1 envLineRe t = match_at envLineRe 0 t.
Proof.
  unfold match1. destruct t as [|a t]; cbn [search].
  - destruct (match_at envLineRe 0 []); reflexivity.
  - destruct (match_at envLineRe 0 (a :: t)); [reflexivity|].
    apply search_envLine_pos. lia.
Qed.

Lemma spanLen_all p s : spanLen p s = length s <-> forallb p s = true.
Proof.
  induction s as [|a s IH]; simpl; [tauto|].
  destruct (p a); simpl.
  - rewrite <- IH. lia.
  - split; [lia | discriminate].
Qed.

Lemma drop_spanLen_nil p s : drop (spanLen p s) s = [] <-> forallb p s = true.
Proof.
  rewrite <- spanLen_all. pose proof (spanLen_le p s) as Hle. split; intros H.
  - apply (f_equal length) in H. rewrite length_drop in H. simpl in H. lia.
  - rewrite H. apply drop_all.
Qed.

Lemma match_at_envLine t :
  match_at envLineRe 0 t
  = match spanLen notEq t with
    | 0 => None
    | S _ =>
        match drop (spanLen notEq t) t with
        | [] => None
        | _ :: v =>
            if forallb inLine v
            then Some (mkMatch 0 (length t) []
                         [Some t; Some (take (spanLen notEq t) t); Some v])
            else None
        end
    end.
Proof.
  unfold match_at, envLineRe. cbn [source ignoreCase ngroups cat].
  rewrite run_Seq, run_Bol0. cbv beta. rewrite run_Seq, run_Grp.
  rewrite run_plus_cls.
  2:{ left. intros i a s c Ha. rewrite run_Seq, run_Chr_cons.
      fold (notEq a) in Ha. unfold notEq in Ha. rewrite cls_neg1 in Ha.
      unfold chr_ok, canon. destruct (eqc "=" a); [discriminate | reflexivity]. }
  change (cls_ok false true ["="%char]) with notEq.
  destruct (spanLen notEq t) as [|n'] eqn:En; [reflexivity|].
  rewrite <- En. clear n' En.
  pose proof (spanLen_drop notEq t) as Hd.
  destruct (drop (spanLen notEq t) t) as [|a v] eqn:Ed.
  - rewrite run_Seq, run_Chr_nil. reflexivity.
  - rewrite run_Seq, run_Chr_cons.
    unfold notEq in Hd. rewrite cls_neg1 in Hd. apply negb_false_iff in Hd.
    unfold chr_ok, canon. rewrite Hd.
    rewrite run_Seq, run_Grp. unfold Dot.
    rewrite run_star_cls.
    2:{ left. intros i x s c _. apply run_Eol_cons. }
    change (cls_ok false true [ascii_of_nat 10; ascii_of_nat 13]) with inLine.
    destruct (forallb inLine v) eqn:Ev.
    + rewrite (proj2 (drop_spanLen_nil inLine v) Ev). rewrite run_Eol_nil.
      apply spanLen_all in Ev. rewrite Ev.
      assert (length t = S (spanLen notEq t + length v)) as Hlen.
      { pose proof (f_equal length Ed) as Hl. rewrite length_drop in Hl. simpl in Hl.
        pose proof (spanLen_le notEq t). lia. }
      rewrite Nat.add_0_l, Nat.sub_0_r.
      replace (S (spanLen notEq t) + length v - S (spanLen notEq t)) with (length v) by lia.
      rewrite (take_ge v) by lia.
      replace (S (spanLen notEq t) + length v - 0) with (length t) by lia.
      rewrite (take_ge t) by lia.
      replace (S (spanLen notEq t) + length v) with (length t) by lia.
      rewrite Nat.sub_0_r. reflexivity.
    + destruct (drop (spanLen inLine v) v) eqn:Ed2; [|rewrite run_Eol_cons; reflexivity].
      apply drop_spanLen_nil in Ed2. congruence.
Qed.

Lemma eqc_false a b : eqc a b = false <-> a <> b.
Proof. apply Ascii.eqb_neq. Qed.

Lemma notEq_spec a : notEq a = true <-> a <> "="%char.
Proof.
  unfold notEq. rewrite cls_neg1, negb_true_iff, eqc_false. split; congruence.
Qed.

Lemma inLine_spec a : inLine a = true <-> a <> LF /\ a <> CR.
Proof.
  unfold inLine. rewrite cls_neg2, negb_true_iff, orb_false_iff, !eqc_false.
  unfold LF, CR. split; intros [H1 H2]; split; congruence.
Qed.

Lemma orElse_some (s : list ascii) : orElse (Some s) [] = s.
Proof. destruct s; reflexivity. Qed.

Lemma match1_envLine_hit k v :
  k <> [] -> "="%char ∉ k -> Forall (fun a => a <> LF /\ a <> CR) v ->
  match1 envLineRe (k ++ str "=" ++ v)
  = Some (mkMatch 0 (length (k ++ str "=" ++ v)) []
            [Some (k ++ str "=" ++ v); Some k; Some v]).
Proof.
  intros Hk Hne Hv. rewrite match1_envLine_at, match_at_envLine.
  assert (spanLen notEq (k ++ str "=" ++ v) = length k) as Hs.
  { apply spanLen_app.
    - apply Forall_forall. intros a Ha. apply notEq_spec. intros ->. contradiction.
    - reflexivity. }
  rewrite Hs. destruct (length k) as [|n] eqn:El;
    [apply nil_length_inv in El; contradiction|].
  rewrite <- El. rewrite drop_app_length, take_app_length.
  change (str "=" ++ v) with ("="%char :: v). cbv iota.
  rewrite (proj2 (forallb_forall inLine v)); [reflexivity|].
  intros a Ha. apply inLine_spec.
  apply (proj1 (Forall_forall _ _) Hv). apply list_elem_of_In. exact Ha.
Qed.

Lemma match1_envLine_inv t m :
  match1 envLineRe t = Some m ->
  exists k v, t = k ++ str "=" ++ v /\ k <> [] /\ ("="%char ∉ k)
              /\ Forall (fun a => a <> LF /\ a <> CR) v.
Proof.
  rewrite match1_envLine_at, match_at_envLine. intros H.
  destruct (spanLen notEq t) as [|n] eqn:En; [discriminate|]. rewrite <- En in H.
  pose proof (spanLen_drop notEq t) as Hd.
  pose proof (spanLen_take notEq t) as Ht.
  destruct (drop (spanLen notEq t) t) as [|a v] eqn:Ed; [discriminate|].
  destruct (forallb inLine v) eqn:Ev; [|discriminate].
  assert (a = "="%char) as ->.
  { destruct (decide (a = "="%char)) as [|Hne]; [assumption|].
    apply notEq_spec in Hne. congruence. }
  exists (take (spanLen notEq t) t), v. repeat split.
  - rewrite <- (take_drop (spanLen notEq t) t) at 1. rewrite Ed. reflexivity.
  - intros E. apply (f_equal length) in E. rewrite length_take in E. simpl in E.
    pose proof (spanLen_le notEq t). lia.
  - intros Hin. apply (proj1 (Forall_forall _ _) Ht) in Hin.
    apply notEq_spec in Hin. contradiction.
  - apply Forall_forall. intros x Hx. apply inLine_spec.
    apply (proj1 (forallb_forall _ _) Ev). apply list_elem_of_In. exact Hx.
Qed.

Lemma isQuoted_spec q value :
  isQuoted q value = true <-> value = [q] \/ exists inner, value = q :: inner ++ [q].
Proof.
  unfold isQuoted, endsWith. cbn [rev app]. split.
  - intros H. apply andb_prop in H as [H1 H2].
    destruct value as [|a value]; [discriminate|].
    simpl in H1. rewrite andb_true_r in H1. apply Ascii.eqb_eq in H1. subst a.
    destruct (rev (q :: value)) as [|b r] eqn:Er; [discriminate|].
    simpl in H2. rewrite andb_true_r in H2. apply Ascii.eqb_eq in H2. subst b.
    destruct value as [|a value]; [left; reflexivity|right].
    apply (f_equal (@rev ascii)) in Er. rewrite rev_involutive in Er. simpl in Er.
    destruct (rev r) as [|c r'] eqn:Er'.
    + simpl in Er. discriminate.
    + simpl in Er. injection Er as <- Hv. exists r'. rewrite Hv. reflexivity.
  - intros [->|[inner ->]].
    + simpl. rewrite Ascii.eqb_refl. reflexivity.
    + apply andb_true_intro. split.
      * simpl. rewrite Ascii.eqb_refl. reflexivity.
      * change (q :: inner ++ [q]) with ((q :: inner) ++ [q]).
        rewrite rev_app_distr. simpl. rewrite Ascii.eqb_refl. reflexivity.
Qed.

Lemma slice1m1_quoted q inner : slice1m1 (q :: inner ++ [q]) = inner.
Proof.
  unfold slice1m1. simpl. rewrite length_app. simpl.
  replace (length inner + 1 - 1) with (length inner) by lia.
  apply take_app_length.
Qed.

Lemma setProperty_plain (vars : gmap (list ascii) (list ascii)) key value :
  key <> str "__proto__" -> setProperty vars key value = <[key := value]> vars.
Proof.
  intros H. unfold setProperty. rewrite (proj2 (eqs_false _ _) H). reflexivity.
Qed.

Lemma setProperty_own (vars : gmap (list ascii) (list ascii)) key value :
  is_Some (vars !! key) -> setProperty vars key value = <[key := value]> vars.
Proof.
  intros H. unfold setProperty. rewrite (bool_decide_eq_true_2 _ H), andb_false_r.
  reflexivity.
Qed.

Lemma hasProperty_own (vars : gmap (list ascii) (list ascii)) key :
  is_Some (vars !! key) -> hasProperty vars key = true.
Proof.
  intros [value H]. unfold hasProperty, getProperty. rewrite H.
  apply bool_decide_eq_true_2. eauto.
Qed.

Lemma setProperty_proto (vars : gmap (list ascii) (list ascii)) value :
  vars !! str "__proto__" = None -> setProperty vars (str "__proto__") value = vars.
Proof.
  intros H. unfold setProperty. rewrite eqs_refl, bool_decide_eq_false_2; [reflexivity|].
  rewrite H. intros [x Hx]. discriminate.
Qed.

(** An environment file is parsed line by line, in order.  A line
    whose trimmed form is empty or starts with [#] binds nothing.  A
    line whose trimmed form is [k=v], with [k] non-empty and free of
    [=] and no line terminator in [v], assigns to the property [k]
    trimmed the value [v] trimmed, from which the first and the last
    character are removed when and only when it starts and ends with
    the same quote character, double or single: this binds the key
    unless it is [__proto__].  Any other line binds nothing. *)
Theorem parseEnvFile_lines :
  (forall content,
     parseEnvFile content
     = fold_left parseLine (split EndpointDiscovery.newline content) ∅)
  /\ (forall vars line,
        trim line = [] \/ startsWith (str "#") (trim line) = true ->
        parseLine vars line = vars)
  /\ (forall vars line k v,
        trim line = k ++ str "=" ++ v ->
        startsWith (str "#") (trim line) = false ->
        k <> [] -> "="%char ∉ k -> Forall (fun a => a <> LF /\ a <> CR) v ->
        parseLine vars line
        = setProperty vars (trim k)
            (if isQuoted EndpointDiscovery.quote2 (trim v)
                || isQuoted EndpointDiscovery.quote1 (trim v)
             then slice1m1 (trim v) else trim v))
  /\ (forall vars key value,
        key <> str "__proto__" -> setProperty vars key value = <[key := value]> vars)
  /\ (forall value, setProperty ∅ (str "__proto__") value = ∅)
  /\ (forall vars line,
        (forall k v, trim line = k ++ str "=" ++ v ->
                     k = [] \/ "="%char ∈ k \/ Exists (fun a => a = LF \/ a = CR) v) ->
        parseLine vars line = vars)
  /\ (forall q value,
        isQuoted q value = true
        <-> value = [q] \/ exists inner, value = q :: inner ++ [q])
  /\ (forall q inner, slice1m1 (q :: inner ++ [q]) = inner)
  /\ slice1m1 [EndpointDiscovery.quote2] = [].
Proof.
  split; [reflexivity|]. split; [|split; [|split; [|split; [|split; [|split; [|split]]]]]].
  - intros vars line [H|H]; unfold parseLine; rewrite H; reflexivity || idtac.
    rewrite orb_true_r. reflexivity.
  - intros vars line k v Ht Hhash Hk Hne Hv. unfold parseLine. rewrite Hhash, Ht.
    destruct k as [|a k]; [contradiction|]. cbn [truthy app negb orb].
    change (a :: k ++ str "=" ++ v) with ((a :: k) ++ str "=" ++ v).
    rewrite match1_envLine_hit by assumption.
    unfold grp. cbn [arr lookup list_lookup mjoin option_join]. simpl mjoin.
    rewrite !orElse_some. reflexivity.
  - intros vars key value Hkey. apply setProperty_plain. exact Hkey.
  - intros value. reflexivity.
  - intros vars line H. unfold parseLine.
    destruct (negb (truthy (Some (trim line))) || startsWith (str "#") (trim line));
      [reflexivity|].
    destruct (match1 envLineRe (trim line)) as [m|] eqn:E; [|reflexivity].
    apply match1_envLine_inv in E as (k & v & Ht & Hk & Hne & Hv).
    destruct (H k v Ht) as [Hk'|[Hin|Hex]]; [contradiction | contradiction |].
    apply Exists_exists in Hex as (x & Hx & Hxt).
    apply (proj1 (Forall_forall _ _) Hv) in Hx. tauto.
  - apply isQuoted_spec.
  - apply slice1m1_quoted.
  - reflexivity.
Qed.

(** Claim C8.  A line [key=value] that is neither blank nor a comment
    should populate a binding.  The parser assigns
    [variables[key] = value] on a plain object: for the key
    [__proto__] this runs the setter of [Object.prototype], which
    ignores a string, and no binding is made.  The file [__proto__=x]
    gives no variable at all, where [KEY=x] gives one; in a longer
    file the line is lost and the other lines are bound. *)
Theorem parseEnvFile_proto_key :
  is_Some (match1 envLineRe (trim (str "__proto__=x")))
  /\ parseEnvFile (str "__proto__=x") = ∅
  /\ parseEnvFile (str "KEY=x") = {[ str "KEY" := str "x" ]}
  /\ parseEnvFile (str "A=1" ++ [EndpointDiscovery.newline] ++ str "__proto__=x")
     = {[ str "A" := str "1" ]}.
Proof.
  split; [vm_compute; eauto|].
  repeat split; vm_compute; reflexivity.
Qed.

(** ** Interpolation *)

Lemma atoms_ok_split ic ats : forall s t,
  atoms_ok ic ats s = Some t -> exists o, s = o ++ t /\ atoms_ok ic ats o = Some [].
Proof.
  induction ats as [|a ats IH]; intros s t H; simpl in H.
  - injection H as ->. exists []. auto.
  - destruct s as [|x s]; [discriminate|].
    destruct (atom_ok ic a x) eqn:E; [|discriminate].
    destruct (IH s t H) as (o & -> & Ho). exists (x :: o). split; [reflexivity|].
    simpl. rewrite E. exact Ho.
Qed.

Lemma atoms_chr w : forall o, atoms_ok false (AChr <$> w) o = Some [] -> o = w.
Proof.
  induction w as [|x w IH]; intros o H; simpl in H.
  - injection H as ->. reflexivity.
  - destruct o as [|y o]; [discriminate|].
    unfold chr_ok, canon in H. destruct (eqc x y) eqn:E; [|discriminate].
    apply Ascii.eqb_eq in E. subst y. f_equal. apply IH. exact H.
Qed.

Lemma atoms_chr_refl w : atoms_ok false (AChr <$> w) w = Some [].
Proof.
  induction w as [|x w IH]; simpl; [reflexivity|].
  unfold chr_ok, canon, eqc. rewrite Ascii.eqb_refl. exact IH.
Qed.

Section DelimitedInv.
Variables (ic : bool) (ops : list atom) (n : nat) (neg : bool) (cs : list ascii)
          (cls : list atom) (g : nat).
Hypothesis Hc : closes ic neg cs cls.

Lemma match_at_delimited_inv i s m :
  match_at (mkRegExp (delimited ops n neg cs cls) ic g) i s = Some m ->
  exists o inner c rest,
    s = o ++ inner ++ c ++ rest
    /\ atoms_ok ic ops o = Some []
    /\ inner <> []
    /\ Forall (fun a => cls_ok ic neg cs a = true) inner
    /\ atoms_ok ic cls c = Some [].
Proof.
  rewrite (match_at_delimited ic ops n neg cs cls g Hc). intros H.
  destruct (atoms_ok ic ops s) as [t|] eqn:Eo; [|discriminate].
  destruct (spanLen (cls_ok ic neg cs) t) as [|l] eqn:El; [discriminate|].
  rewrite <- El in H.
  destruct (atoms_ok ic cls (drop (spanLen (cls_ok ic neg cs) t) t)) as [rest|] eqn:Ec;
    [|discriminate].
  apply atoms_ok_split in Eo as (o & -> & Ho).
  apply atoms_ok_split in Ec as (c & Ec & Hcl).
  exists o, (take (spanLen (cls_ok ic neg cs) t) t), c, rest. repeat split; auto.
  - rewrite <- Ec, take_drop. reflexivity.
  - intros E. apply (f_equal length) in E. rewrite length_take in E. simpl in E.
    pose proof (spanLen_le (cls_ok ic neg cs) t). lia.
  - apply spanLen_take.
Qed.
End DelimitedInv.

Lemma closes_curly : closes false true ["}"%char] [AChr "}"; AChr "}"].
Proof.
  intros x. cbn [atom_ok]. rewrite cls_neg1. unfold chr_ok, canon.
  destruct (eqc "}" x); simpl; intros; congruence.
Qed.

Lemma closes_dollar : closes false true ["}"%char] [AChr "}"].
Proof. exact closes_curly. Qed.

Lemma match_at_placeholder i s :
  match_at placeholderRe i s
  = match match_at curlyRe i s with
    | Some m => Some m
    | None => match_at dollarRe i s
    end.
Proof.
  unfold match_at, placeholderRe, curlyRe, dollarRe. cbn [source ignoreCase ngroups].
  change (run false (Alt ?a ?b) i s ?c ?k)
    with (match run false a i s c k with Some x => Some x | None => run false b i s c k end).
  unfold delimited. cbn [map app atom_re].
  destruct (run false (cat
                         [Chr "{"; Chr "{"; Grp 1 (Plus (Cls true ["}"%char])); Chr "}"; Chr "}"])
              i s (replicate 3 None) (fun j s' c => Some (j, s', c)))
    as [[[j s'] c]|]; reflexivity.
Qed.

Lemma notClose_forall inner :
  "}"%char ∉ inner -> Forall (fun a => cls_ok false true ["}"%char] a = true) inner.
Proof.
  intros H. apply Forall_forall. intros a Ha. rewrite cls_neg1.
  apply negb_true_iff, eqc_false. intros E. subst a. contradiction.
Qed.

Lemma forall_notClose inner :
  Forall (fun a => cls_ok false true ["}"%char] a = true) inner -> "}"%char ∉ inner.
Proof.
  intros H Hin. apply (proj1 (Forall_forall _ _) H) in Hin.
  rewrite cls_neg1 in Hin. apply negb_true_iff, eqc_false in Hin. congruence.
Qed.

Lemma match_at_curly inner rest :
  inner <> [] -> "}"%char ∉ inner ->
  match_at placeholderRe 0 (curly inner ++ rest)
  = Some (mkMatch 0 (length (curly inner)) rest
            [Some (curly inner); Some inner; None]).
Proof.
  intros Hne Hin. rewrite match_at_placeholder.
  unfold curly. rewrite <- !app_assoc.
  pose proof (match_at_delimited_hit false [AChr "{"; AChr "{"] 1 true ["}"%char]
                [AChr "}"; AChr "}"] 2 closes_curly 0 (str "{{") inner (str "}}") rest)
    as H.
  unfold curlyRe. rewrite H; auto using notClose_forall; reflexivity.
Qed.

Lemma match_at_dollar inner rest :
  inner <> [] -> "}"%char ∉ inner ->
  match_at placeholderRe 0 (dollar inner ++ rest)
  = Some (mkMatch 0 (length (dollar inner)) rest
            [Some (dollar inner); None; Some inner]).
Proof.
  intros Hne Hin. rewrite match_at_placeholder.
  unfold dollar. rewrite <- !app_assoc.
  assert (match_at curlyRe 0 (str "${" ++ inner ++ str "}" ++ rest) = None) as ->.
  { unfold curlyRe. rewrite (match_at_delimited _ _ _ _ _ _ _ closes_curly). reflexivity. }
  pose proof (match_at_delimited_hit false [AChr "$"; AChr "{"] 2 true ["}"%char]
                [AChr "}"] 2 closes_dollar 0 (str "${") inner (str "}") rest)
    as H.
  unfold dollarRe. rewrite H; auto using notClose_forall; reflexivity.
Qed.

Lemma match_at_placeholder_none s :
  ~ opens s -> match_at placeholderRe 0 s = None.
Proof.
  intros H. rewrite match_at_placeholder.
  destruct (match_at curlyRe 0 s) as [m|] eqn:E1.
  - exfalso. apply H. unfold curlyRe in E1.
    apply (match_at_delimited_inv _ _ _ _ _ _ _ closes_curly) in E1
      as (o & inner & c & rest & -> & Ho & Hne & Hin & Hcl).
    apply (atoms_chr [_; _]) in Ho. apply (atoms_chr [_; _]) in Hcl. subst o c.
    exists inner, rest. split; [exact Hne|]. split; [apply forall_notClose; exact Hin|].
    left. unfold curly. rewrite <- !app_assoc. reflexivity.
  - destruct (match_at dollarRe 0 s) as [m|] eqn:E2; [|reflexivity].
    exfalso. apply H. unfold dollarRe in E2.
    apply (match_at_delimited_inv _ _ _ _ _ _ _ closes_dollar) in E2
      as (o & inner & c & rest & -> & Ho & Hne & Hin & Hcl).
    apply (atoms_chr [_; _]) in Ho. apply (atoms_chr [_]) in Hcl. subst o c.
    exists inner, rest. split; [exact Hne|]. split; [apply forall_notClose; exact Hin|].
    right. unfold dollar. rewrite <- !app_assoc. reflexivity.
Qed.

(** [interpolate] on every text, read from the left: the empty text
    is unchanged; a placeholder [{{inner}}] or [${inner}] at the head,
    [inner] non-empty and free of the closing brace, is replaced by
    the override bound to [inner] trimmed, else by the variable of the
    active environment bound to it, else by the text of the property
    of [Object.prototype] of that name, else is kept as it is, and the
    rest of the text is interpolated in the same way; a character at
    which no placeholder starts is kept. *)
Theorem interpolate_placeholders
    (w : World (list ascii) (gmap (list ascii) (list ascii)))
    (overrides : gmap (list ascii) (list ascii)) :
  let vars : gmap (list ascii) (list ascii) :=
    match find isActive (memory w) with
    | Some activeEnv => variables activeEnv
    | None => ∅
    end in
  let value (inner original : list ascii) : list ascii :=
    match overrides !! trim inner with
    | Some v => v
    | None => match vars !! trim inner with
              | Some v => v
              | None => default original (inherited (trim inner))
              end
    end in
  interpolate w [] overrides = []
  /\ (forall inner rest,
        inner <> [] -> "}"%char ∉ inner ->
        interpolate w (curly inner ++ rest) overrides
        = value inner (curly inner) ++ interpolate w rest overrides)
  /\ (forall inner rest,
        inner <> [] -> "}"%char ∉ inner ->
        interpolate w (dollar inner ++ rest) overrides
        = value inner (dollar inner) ++ interpolate w rest overrides)
  /\ (forall a text,
        ~ opens (a :: text) ->
        interpolate w (a :: text) overrides = a :: interpolate w text overrides).
Proof.
  intros vars value. unfold interpolate.
  assert (default ∅ (variables <$> find isActive (memory w)) = vars) as ->
    by (subst vars; destruct (find isActive (memory w)); reflexivity).
  set (f := fun m : Match =>
              default (whole m)
                (getProperty (overrides ∪ vars)
                   (trim (orElse (grp m 1) (orElse (grp m 2) []))))).
  assert (bol_free (source placeholderRe) = true) as Hb by reflexivity.
  assert (forall d m, f (shiftm d m) = f m) as Hf by reflexivity.
  assert (forall inner original,
             default original (getProperty (overrides ∪ vars) (trim inner))
             = value inner original)
    as Hval.
  { intros inner original. subst value. cbv beta. unfold getProperty.
    rewrite lookup_union.
    destruct (overrides !! trim inner), (vars !! trim inner); reflexivity. }
  split; [|split; [|split]].
  - apply replaceG_nil. reflexivity.
  - intros inner rest Hne Hin.
    rewrite (replaceG_hit _ Hb f Hf _ _ (match_at_curly inner rest Hne Hin)).
    + cbn [after]. f_equal. destruct inner as [|x inner]; [contradiction|].
      exact (Hval (x :: inner) (curly (x :: inner))).
    + cbn [lastIndex]. unfold curly. rewrite !length_app. simpl. lia.
  - intros inner rest Hne Hin.
    rewrite (replaceG_hit _ Hb f Hf _ _ (match_at_dollar inner rest Hne Hin)).
    + cbn [after]. f_equal. destruct inner as [|x inner]; [contradiction|].
      exact (Hval (x :: inner) (dollar (x :: inner))).
    + cbn [lastIndex]. unfold dollar. rewrite !length_app. simpl. lia.
  - intros a text Hno.
    apply (replaceG_skip _ Hb f Hf). apply match_at_placeholder_none. exact Hno.
Qed.

(** Claim C2.  A placeholder whose name has no binding should be left
    as it is.  The lookup [variables[varName] ?? match] reads a plain
    object, which inherits the properties of [Object.prototype]: with
    no variable named [constructor], [toString] or [__proto__] in the
    active environment and none given to the call, the placeholders
    [{{constructor}}], [${toString}] and [{{__proto__}}] are replaced
    by the text of the inherited value, where [{{FOO}}] is kept and
    [{{BASE_URL}}], which is bound, gets its value. *)
Theorem interpolate_inherited_name :
  find isActive (memory twoEnvs) = Some envA
  /\ variables envA !! str "constructor" = None
  /\ variables envA !! str "toString" = None
  /\ variables envA !! str "__proto__" = None
  /\ variables envA !! str "FOO" = None
  /\ interpolate twoEnvs (str "{{constructor}}") ∅
     = str "function Object() { [native code] }"
  /\ interpolate twoEnvs (str "${toString}") ∅
     = str "function toString() { [native code] }"
  /\ interpolate twoEnvs (str "{{__proto__}}") ∅ = str "[object Object]"
  /\ interpolate twoEnvs (str "{{FOO}}") ∅ = str "{{FOO}}"
  /\ interpolate twoEnvs (str "{{BASE_URL}}") ∅ = str "http://x".
Proof.
  split; [reflexivity|].
  repeat split; vm_compute; reflexivity.
Qed.

End Environments.

(** ** Fixtures of the framework families *)

Section FixtureFacts.
Import EndpointDiscovery DedupSpec PathSpec Fixtures.

(** Claim C1.  The one-line fixture [@app.get('/users')] of the Flask
    inline-verb syntax should give exactly one endpoint
    (GET, /users, flask).  The inline-verb pattern does capture the
    verb and the path, but the flask branch of the extractor reads
    group 2, here the path, as the methods list and group 1, here the
    verb, as the path: it returns (/USERS, /get, flask).  On the line
    alone the flask family is not even selected and the endpoint found
    is (GET, /users, fastapi); in a file that names flask the line
    gives two endpoints. *)
Theorem flask_inline_verb :
  (* the inline-verb pattern of the flask family matches the call *)
  (fun m => (grp m 1, grp m 2)) <$> execAll (nth 1 flask (gi Eps 0)) flaskInline
  = [(Some (str "get"), Some (str "/users"))]
  (* the flask extractor on that match *)
  /\ omap (fun m => summary <$> extractEndpointFromMatch m (str "flask") (str "app.py"))
          (execAll (nth 1 flask (gi Eps 0)) flaskInline)
     = [("/USERS", "/get", "flask")%string]
  (* discovery on the one-line file *)
  /\ detectFrameworks flaskInline (str ".py") = [str "fastapi"]
  /\ summary <$> parseFileForEndpoints flaskInline (str "app.py")
     = [("GET", "/users", "fastapi")%string]
  /\ summary <$> discoverEndpoints [(str "app.py", Some flaskInline)] []
     = [("GET", "/users", "fastapi")%string]
  (* the same line in a file that names flask *)
  /\ summary <$> parseFileForEndpoints (flaskInline ++ str "  # flask") (str "app.py")
     = [("/USERS", "/get", "flask"); ("GET", "/users", "fastapi")]%string.
Proof. vm_compute. repeat split; reflexivity. Qed.

(** One-line fixtures of the other families. *)
Example canonical_fixtures :
  summary <$> parseFileForEndpoints
                (str "require('express')(); app.get('/users', h)") (str "a.js")
  = [("GET", "/users", "express")%string]
  /\ summary <$> parseFileForEndpoints (str "fastify.post('/users', h)") (str "a.ts")
     = [("POST", "/users", "fastify")%string]
  /\ summary <$> parseFileForEndpoints (str "hono.put('users', h)") (str "a.ts")
     = [("PUT", "/users", "hono")%string]
  /\ summary <$> parseFileForEndpoints (str "@Get('users')") (str "a.ts")
     = [("GET", "/users", "nestjs")%string]
  /\ summary <$> parseFileForEndpoints (str "export async function GET(request) {}")
                   (str "/w/app/api/users/route.ts")
     = [("GET", "/api/users", "nextjs")%string]
  /\ summary <$> parseFileForEndpoints (str "@router.delete('/users/{id}')  # fastapi")
                   (str "a.py")
     = [("DELETE", "/users/{id}", "fastapi")%string]
  /\ summary <$> parseFileForEndpoints (str "path('users/', views.users),") (str "urls.py")
     = [("GET", "/users/", "django")%string]
  /\ summary <$> parseFileForEndpoints
                   (str "r.GET(" ++ dq ++ str "/users" ++ dq ++ str ", h)") (str "main.go")
     = [("GET", "/users", "go")%string]
  /\ summary <$> parseFileForEndpoints
                   (str "@PostMapping(" ++ dq ++ str "/users" ++ dq ++ str ")")
                   (str "A.java")
     = [("POST", "/users", "spring")%string]
  /\ summary <$> parseFileForEndpoints
                   (str "#[get(" ++ dq ++ str "/users" ++ dq ++ str ")]") (str "a.rs")
     = [("GET", "/users", "rust")%string]
  /\ summary <$> parseFileForEndpoints (str "Route::get('/users', f);") (str "a.php")
     = [("GET", "/users", "laravel")%string]
  /\ summary <$> parseFileForEndpoints
                   (str "require('koa-router'); router.get('/users', h)") (str "a.js")
     = [("GET", "/users", "koa")%string]
  /\ summary <$> parseFileForEndpoints
                   (str "@app.route('/users', methods=['POST'])") (str "a.py")
     = [("POST", "/users", "flask")%string].
Proof. vm_compute. repeat split; reflexivity. Qed.

(** Claim C4 as stated fails on a path that mixes syntaxes: in
    [/users/{id}/posts/:postId] the names appear as id, postId and are
    returned as postId, id. *)
Lemma extractPathParams_not_in_order :
  forallb wf mixed = true
  /\ renderPath mixed = str "/users/{id}/posts/:postId"
  /\ paramNames mixed = [str "id"; str "postId"]
  /\ extractPathParams (renderPath mixed) = [str "postId"; str "id"].
Proof. vm_compute. repeat split; reflexivity. Qed.

(** A name that holds one of the characters of the three syntaxes is
    outside the amended claim: in [/u/<int:id>] the colon pass reads
    [id>] and the angle-bracket pass reads [int:id]. *)
Example extractPathParams_converter :
  wf (Angle (str "int:id")) = false
  /\ renderPath [Plain (str "u"); Angle (str "int:id")] = str "/u/<int:id>"
  /\ extractPathParams (str "/u/<int:id>") = [str "id>"; str "int:id"].
Proof. vm_compute. repeat split; reflexivity. Qed.

Example extractPathParams_examples :
  extractPathParams (str "/users/:id/posts/:postId") = [str "id"; str "postId"]
  /\ extractPathParams (str "/users/{id}") = [str "id"]
  /\ extractPathParams (str "/users/[id]") = [str "id"]
  /\ extractPathParams (str "/users/<id>") = [str "id"].
Proof. vm_compute. repeat split; reflexivity. Qed.

End FixtureFacts.

(** ** Instances *)

Section Witnesses.
Import EndpointDiscovery DedupSpec PathSpec Fixtures EnvironmentManager EnvSpec.

Lemma extractPathParams_segments_witness :
  let segs := [Plain (str "users"); Angle (str "id"); Plain (str "posts");
               Curly (str "post"); Square (str "tag"); Colon (str "rev")] in
  forallb wf segs = true
  /\ renderPath segs = str "/users/<id>/posts/{post}/[tag]/:rev"
  /\ extractPathParams (renderPath segs)
     = [str "rev"; str "post"; str "tag"; str "id"].
Proof.
  split; [reflexivity|]. split; [reflexivity|].
  apply (extractPathParams_segments
           [Plain (str "users"); Angle (str "id"); Plain (str "posts");
            Curly (str "post"); Square (str "tag"); Colon (str "rev")]).
  reflexivity.
Defined.

Lemma deduplicate_first_seen_witness :
  let l := [getUsers "/w/a.js" 3; getUsers "/w/b.js" 7] in
  let ep := getUsers "/w/a.js" 12 in
  forallb colonFree (l ++ [ep]) = true
  /\ deduplicateEndpoints (l ++ [ep])
     = (if bool_decide (triple ep ∈ triple <$> l) then deduplicateEndpoints l
        else deduplicateEndpoints l ++ [ep]).
Proof.
  split; [reflexivity|].
  apply (deduplicate_first_seen [getUsers "/w/a.js" 3; getUsers "/w/b.js" 7]
           (getUsers "/w/a.js" 12)).
  reflexivity.
Defined.

Lemma parseEnvFile_lines_witness :
  parseLine ∅ keyLine = <[str "KEY" := str "value with spaces"]> ∅
  /\ parseLine ∅ (str "# KEY=1") = ∅.
Proof.
  destruct parseEnvFile_lines as (_ & Hskip & Hbind & _).
  split.
  - apply (Hbind ∅ keyLine (str "KEY") (dq ++ str "value with spaces" ++ dq)).
    + reflexivity.
    + reflexivity.
    + discriminate.
    + intros H. apply list_elem_of_In in H. simpl in H. intuition discriminate.
    + apply Forall_forall. intros a Ha. apply list_elem_of_In in Ha. simpl in Ha.
      intuition (subst; discriminate).
  - apply Hskip. right. reflexivity.
Defined.

Example parseEnvFile_example :
  parseEnvFile (keyLine ++ [newline] ++ str "# comment" ++ [newline] ++ [newline]
                ++ str " A = 'x' " ++ [newline] ++ str "B=1" ++ [newline] ++ str "B=2")
  = {[ str "KEY" := str "value with spaces"; str "A" := str "x"; str "B" := str "2" ]}.
Proof. vm_compute. reflexivity. Qed.

Lemma interpolate_placeholders_witness :
  interpolate twoEnvs (curly (str "BASE_URL") ++ str "/api") ∅
  = str "http://x" ++ interpolate twoEnvs (str "/api") ∅
  /\ interpolate twoEnvs (str "/api") ∅ = str "/" ++ interpolate twoEnvs (str "api") ∅.
Proof.
  destruct (interpolate_placeholders twoEnvs ∅) as (_ & Hcurly & _ & Hskip).
  split.
  - apply (Hcurly (str "BASE_URL") (str "/api")).
    + discriminate.
    + intros H. apply list_elem_of_In in H. simpl in H. intuition discriminate.
  - apply (Hskip "/"%char (str "api")).
    intros (inner & rest & _ & _ & [H|H]); discriminate.
Defined.

Example interpolate_examples :
  interpolate twoEnvs (str "{{BASE_URL}}/api") ∅ = str "http://x/api"
  /\ interpolate twoEnvs (str "{{FOO}}") ∅ = str "{{FOO}}"
  /\ interpolate twoEnvs (str "${ BASE_URL }") {[ str "BASE_URL" := str "http://y" ]}
     = str "http://y"
  /\ interpolate twoEnvs (str "a ${FOO} {{ BASE_URL }} {{}}") ∅
     = str "a ${FOO} http://x {{}}".
Proof. vm_compute. repeat split; reflexivity. Qed.

End Witnesses.

(** * Further properties of the code

    The functions of the three services that the properties above do
    not reach. *)

(** ** The line of a match *)

Section Lines.
Import EndpointDiscovery LineSpec.

Lemma split_cons sep s : exists cur rest, split sep s = cur :: rest.
Proof.
  induction s as [|a s (cur & rest & IH)]; simpl; [eauto|].
  destruct (eqc a sep); [eauto|]. rewrite IH. eauto.
Qed.

Lemma lineLoop_shift lines : forall i cc m,
  lineLoop lines i (S cc) (S m) = lineLoop lines i cc m.
Proof.
  induction lines as [|l lines IH]; intros i cc m; simpl; [reflexivity|].
  rewrite IH. reflexivity.
Qed.

Lemma lineLoop_head l lines i cc : lineLoop (l :: lines) i cc cc = i.
Proof.
  simpl. rewrite (proj2 (Nat.ltb_lt _ _)) by lia. reflexivity.
Qed.

Lemma lineLoop_grow a cur rest i cc j :
  lineLoop ((a :: cur) :: rest) i cc (cc + S j) = lineLoop (cur :: rest) i cc (cc + j).
Proof.
  cbn [lineLoop length].
  destruct (Nat.ltb_spec (cc + S j) (cc + (S (length cur) + 1)));
    destruct (Nat.ltb_spec (cc + j) (cc + (length cur + 1))); try lia; try reflexivity.
  replace (cc + (S (length cur) + 1)) with (S (cc + (length cur + 1))) by lia.
  replace (cc + S j) with (S (cc + j)) by lia. apply lineLoop_shift.
Qed.

Lemma lineLoop_split content : forall i cc j,
  j <= length content ->
  lineLoop (split newline content) i cc (cc + j) = i + newlinesBefore content j.
Proof.
  induction content as [|a s IH]; intros i cc j Hj.
  - simpl in Hj. assert (j = 0) as -> by lia. rewrite Nat.add_0_r.
    simpl split. rewrite lineLoop_head. simpl. lia.
  - destruct j as [|j].
    + rewrite Nat.add_0_r. destruct (split_cons newline (a :: s)) as (cur & rest & ->).
      rewrite lineLoop_head. simpl. lia.
    + simpl in Hj. cbn [split newlinesBefore].
      destruct (eqc a newline).
      * cbn [lineLoop length].
        rewrite (proj2 (Nat.ltb_ge _ _)) by lia.
        replace (cc + S j) with (cc + (0 + 1) + j) by lia.
        rewrite IH by lia. lia.
      * destruct (split_cons newline s) as (cur & rest & E). rewrite E.
        rewrite lineLoop_grow, <- E, IH by lia. lia.
Qed.

Lemma lineLoop_past lines : forall i cc m,
  cc + length (concat lines) + length lines <= m -> lineLoop lines i cc m = 0.
Proof.
  induction lines as [|l lines IH]; intros i cc m H; simpl; [reflexivity|].
  simpl in H. rewrite length_app in H.
  rewrite (proj2 (Nat.ltb_ge _ _)) by lia. apply IH. lia.
Qed.

Lemma split_length sep s :
  length (concat (split sep s)) + length (split sep s) = S (length s).
Proof.
  induction s as [|a s IH]; simpl; [reflexivity|].
  destruct (eqc a sep); simpl; [lia|].
  destruct (split_cons sep s) as (cur & rest & E). rewrite E in *. simpl in *.
  rewrite !length_app in *. simpl. lia.
Qed.

Lemma newlinesBefore_lines content : forall j,
  newlinesBefore content j < length (split newline content).
Proof.
  induction content as [|a s IH]; intros [|j]; simpl; try lia.
  - destruct (eqc a newline); simpl; [lia|].
    destruct (split_cons newline s) as (cur & rest & ->). simpl. lia.
  - specialize (IH j). destruct (eqc a newline); simpl; [lia|].
    destruct (split_cons newline s) as (cur & rest & E). rewrite E in *. simpl in *. lia.
Qed.

Lemma lineLoop_inside content matchIndex :
  matchIndex <= length content ->
  lineLoop (split newline content) 0 0 matchIndex = newlinesBefore content matchIndex.
Proof. intros H. apply (lineLoop_split content 0 0 matchIndex H). Qed.

(** The line number that [parseFileForEndpoints] gives to a match at
    the index [matchIndex] of [content] is the number of newline
    characters before that index, so the lines are counted from 0; it
    is always the index of one of the lines of [content].  For an
    index beyond the end of [content], which [exec] never returns, the
    loop over the lines ends without a hit and the line is 0. *)
Theorem lineLoop_counts_newlines (content : list ascii) (matchIndex : nat) :
  (matchIndex <= length content ->
   lineLoop (split newline content) 0 0 matchIndex = newlinesBefore content matchIndex)
  /\ (length content < matchIndex ->
      lineLoop (split newline content) 0 0 matchIndex = 0)
  /\ lineLoop (split newline content) 0 0 matchIndex < length (split newline content).
Proof.
  assert (length content < matchIndex ->
          lineLoop (split newline content) 0 0 matchIndex = 0) as H2.
  { intros H. apply lineLoop_past. pose proof (split_length newline content). lia. }
  split; [apply lineLoop_inside|]. split; [exact H2|].
  destruct (Nat.le_gt_cases matchIndex (length content)) as [H|H].
  - rewrite lineLoop_inside by exact H. apply newlinesBefore_lines.
  - rewrite H2 by exact H. destruct (split_cons newline content) as (c & r & ->). simpl. lia.
Qed.

End Lines.

(** ** The loop over the matches of a pattern *)

Section Parse.
Import EndpointDiscovery LineSpec DetectSpec.

Lemma exec_loop_bounds re : forall fuel s i m,
  m ∈ exec_loop fuel re i s ->
  i <= index m /\ index m + min_len (source re) <= lastIndex m
  /\ lastIndex m <= i + length s.
Proof.
  induction fuel as [|f IH]; intros s i m H; cbn [exec_loop] in H; [inversion H|].
  destruct (search re i s) as [m0|] eqn:E; [|inversion H].
  pose proof (search_progress _ _ _ _ E) as Hp.
  apply search_spec in E. destruct E as (Hi & Hl & Hlen & Ha).
  apply elem_of_cons in H as [->|H]; [repeat split; lia|].
  apply IH in H. rewrite Ha, length_drop in H. repeat split; lia.
Qed.

Lemma exec_loop_length re :
  0 < min_len (source re) ->
  forall fuel s i, length (exec_loop fuel re i s) <= length s.
Proof.
  intros Hmin. induction fuel as [|f IH]; intros s i; cbn [exec_loop]; [simpl; lia|].
  destruct (search re i s) as [m|] eqn:E; [|simpl; lia].
  pose proof (search_progress _ _ _ _ E) as Hp.
  apply search_spec in E. destruct E as (Hi & Hl & Hlen & Ha).
  simpl. specialize (IH (after m) (lastIndex m)).
  assert (length (after m) = length s - (lastIndex m - i)) as Hlen'
    by (rewrite Ha, length_drop; reflexivity).
  lia.
Qed.

(** For every pattern of the table and every file content, the loop
    [while ((match = pattern.exec(content)) !== null)] ends: with more
    iterations allowed than the content has code units, the list of
    the matches is the same whatever the number allowed.  It finds at
    most as many matches as the content has code units, and every
    match is non-empty and lies within the content. *)
Theorem exec_loop_terminates fw frameworkPatterns pattern content :
  patterns fw = Some frameworkPatterns ->
  pattern ∈ frameworkPatterns ->
  (forall fuel, length content < fuel ->
     exec_loop fuel pattern 0 content = execAll pattern content)
  /\ length (execAll pattern content) <= length content
  /\ (forall m, m ∈ execAll pattern content ->
        index m < lastIndex m /\ lastIndex m <= length content).
Proof.
  intros Hp Hin.
  assert (0 < min_len (source pattern)) as Hmin.
  { apply patterns_progress in Hp. apply (proj1 (Forall_forall _ _) Hp). exact Hin. }
  split; [|split].
  - intros fuel Hfuel. unfold execAll. apply exec_loop_fuel; [exact Hmin | exact Hfuel | lia].
  - apply exec_loop_length. exact Hmin.
  - intros m Hm. apply exec_loop_bounds in Hm. lia.
Qed.

Lemma exec_loop_terminates_witness :
  patterns (str "koa") = Some koa
  /\ length (execAll (gi (cat ([ch "router."; Grp 1 (words verbs7)] ++ call3 2)) 2)
               (str "router.get('/a')")) <= 16.
Proof.
  split; [reflexivity|].
  apply (exec_loop_terminates (str "koa") koa
           (gi (cat ([ch "router."; Grp 1 (words verbs7)] ++ call3 2)) 2)
           (str "router.get('/a')")).
  - reflexivity.
  - apply list_elem_of_In. simpl. left. reflexivity.
Defined.

Lemma cleanPath_slash routePath : startsWith (str "/") (cleanPath routePath) = true.
Proof.
  unfold cleanPath.
  destruct (startsWith (str "/") (trim _)) eqn:E; [exact E | reflexivity].
Qed.

Lemma extractEndpointFromMatch_fields m fw filePath e :
  extractEndpointFromMatch m fw filePath = Some e ->
  file e = filePath /\ framework e = fw /\ startsWith (str "/") (path e) = true
  /\ params e = match extractPathParams (path e) with
                | [] => None
                | p :: ps => Some (p :: ps)
                end.
Proof.
  unfold extractEndpointFromMatch.
  destruct (methodAndPath m fw filePath) as [[method routePath]|]; [|discriminate].
  intros [= <-]. cbn [file framework path params].
  split; [reflexivity|]. split; [reflexivity|]. split; [apply cleanPath_slash|].
  destruct (extractPathParams (cleanPath routePath)); reflexivity.
Qed.

(** For a content without the code units 181 and 255, whose
    upper-case forms are outside the embedding: the endpoints that
    [parseFileForEndpoints] finds in a file are exactly those that
    [extractEndpointFromMatch] gives for a match of a pattern of a
    framework that [detectFrameworks] selects for the content and the
    lower-cased extension of the file, each with the line of that
    match: the number of newline characters before the index of the
    match, which lies inside the content.  Such an endpoint has the
    path of the file as its [file], that framework, a path that
    starts with a slash, the parameters of [extractPathParams] on
    that path ([undefined] when there are none), and a line that is
    the index of a line of the content. *)
Theorem parseFileForEndpoints_fields content filePath e :
  forallb upperClosed content = true ->
  e ∈ parseFileForEndpoints content filePath
  <-> exists fw frameworkPatterns pattern m endpoint,
        fw ∈ detectFrameworks content (toLowerCase (extname filePath))
        /\ patterns fw = Some frameworkPatterns /\ pattern ∈ frameworkPatterns
        /\ m ∈ execAll pattern content
        /\ extractEndpointFromMatch m fw filePath = Some endpoint
        /\ e = setLine endpoint (newlinesBefore content (index m))
        /\ index m < length content
        /\ file e = filePath /\ framework e = fw
        /\ startsWith (str "/") (path e) = true
        /\ params e = match extractPathParams (path e) with
                      | [] => None
                      | p :: ps => Some (p :: ps)
                      end
        /\ line e = newlinesBefore content (index m)
        /\ line e < length (split newline content).
Proof.
  intros _.
  assert (forall fw ps pattern m,
             patterns fw = Some ps -> pattern ∈ ps -> m ∈ execAll pattern content ->
             index m < length content) as Hinside.
  { intros fw ps pattern m Ep Hpat Hm.
    assert (0 < min_len (source pattern)) as Hmin.
    { apply patterns_progress in Ep. apply (proj1 (Forall_forall _ _) Ep). exact Hpat. }
    apply exec_loop_bounds in Hm. lia. }
  unfold parseFileForEndpoints. split.
  - intros H.
    apply list_elem_of_In, in_flat_map in H as (fw & Hfw & H).
    destruct (patterns fw) as [ps|] eqn:Ep; [|destruct H].
    apply in_flat_map in H as (pattern & Hpat & H).
    apply list_elem_of_In in H, Hfw, Hpat.
    unfold endpointsOfPattern in H. apply list_elem_of_omap in H as (m & Hm & H).
    destruct (extractEndpointFromMatch m fw filePath) as [e0|] eqn:Ee; [|discriminate].
    injection H as <-.
    pose proof (Hinside fw ps pattern m Ep Hpat Hm) as Hi.
    rewrite lineLoop_inside by lia.
    exists fw, ps, pattern, m, e0.
    pose proof (extractEndpointFromMatch_fields _ _ _ _ Ee) as (Hf & Hw & Hs & Hpar).
    cbn [setLine file framework path params line].
    repeat split; try assumption; try reflexivity.
    apply newlinesBefore_lines.
  - intros (fw & ps & pattern & m & e0 & Hfw & Ep & Hpat & Hm & Ee & -> & _).
    pose proof (Hinside fw ps pattern m Ep Hpat Hm) as Hi.
    apply list_elem_of_In, in_flat_map. exists fw.
    split; [apply list_elem_of_In; exact Hfw|]. rewrite Ep.
    apply in_flat_map. exists pattern. split; [apply list_elem_of_In; exact Hpat|].
    apply list_elem_of_In. unfold endpointsOfPattern.
    apply list_elem_of_omap. exists m. split; [exact Hm|].
    rewrite Ee, lineLoop_inside by lia. reflexivity.
Qed.

Lemma parseFileForEndpoints_fields_witness :
  let content := str "const r = require('koa-router')" ++ [newline]
                 ++ str "router.get('/a')" in
  let e := mkEndpoint (str "GET") (str "/a") (str "/w/x.js") 1 (str "koa") None in
  forallb upperClosed content = true
  /\ e ∈ parseFileForEndpoints content (str "/w/x.js")
  /\ exists pattern m,
       pattern ∈ koa /\ m ∈ execAll pattern content
       /\ line e = newlinesBefore content (index m).
Proof.
  assert (mkEndpoint (str "GET") (str "/a") (str "/w/x.js") 1 (str "koa") None
          ∈ parseFileForEndpoints
              (str "const r = require('koa-router')" ++ [newline]
               ++ str "router.get('/a')") (str "/w/x.js")) as H.
  { apply list_elem_of_In. vm_compute. left. reflexivity. }
  assert (forallb upperClosed
            (str "const r = require('koa-router')" ++ [newline]
             ++ str "router.get('/a')") = true) as Hclosed by reflexivity.
  split; [exact Hclosed|]. split; [exact H|].
  apply (parseFileForEndpoints_fields _ _ _ Hclosed) in H
    as (fw & ps & pattern & m & e0 & _ & Ep & Hpat & Hm & _ & _ & _ & _ & Hfw & _ & _
        & Hline & _).
  cbn [framework] in Hfw. subst fw. injection Ep as <-.
  exists pattern, m. auto.
Defined.

End Parse.

(** ** The frameworks looked for in a file *)

Section Detect.
Import EndpointDiscovery LineSpec DetectSpec.

Lemma when_elem b name fw : fw ∈ when b name -> b = true /\ fw = str name.
Proof.
  unfold when. destruct b; intros H; [|inversion H].
  apply list_elem_of_singleton in H. auto.
Qed.

Lemma existsb_eqs ext l : existsb (eqs ext) l = true <-> ext ∈ l.
Proof.
  rewrite existsb_exists. split.
  - intros (x & Hx & E). apply eqs_spec in E. subst. apply list_elem_of_In. exact Hx.
  - intros H. exists ext. split; [apply list_elem_of_In; exact H | apply eqs_refl].
Qed.

Ltac pick H :=
  apply when_elem in H as [_ ->]; split; [|eexists; reflexivity].

(** [detectFrameworks] selects a framework only for a file with one of
    the extensions of its language, and every framework it selects
    has patterns in the table.  For an extension other than the nine
    source extensions it selects no framework, whatever the content,
    and [parseFileForEndpoints] finds no endpoint in such a file. *)
Theorem detectFrameworks_by_extension :
  (forall content ext fw,
     fw ∈ detectFrameworks content ext ->
     ext ∈ extensionsOf fw /\ is_Some (patterns fw))
  /\ (forall content ext, ext ∉ sourceExtensions -> detectFrameworks content ext = [])
  /\ (forall content filePath,
        toLowerCase (extname filePath) ∉ sourceExtensions ->
        parseFileForEndpoints content filePath = []).
Proof.
  assert (forall content ext, ext ∉ sourceExtensions -> detectFrameworks content ext = [])
    as Hnone.
  { intros content ext H. unfold detectFrameworks.
    assert (forall e, e ∈ sourceExtensions -> eqs ext e = false) as Hf.
    { intros e He. apply eqs_false. intros ->. contradiction. }
    destruct (existsb (eqs ext) _) eqn:E.
    { exfalso. apply H. apply existsb_eqs in E. apply list_elem_of_In.
      apply list_elem_of_In in E. simpl in *. tauto. }
    rewrite !Hf by (apply list_elem_of_In; simpl; tauto).
    reflexivity. }
  split; [|split; [exact Hnone|]].
  - intros content ext fw H. unfold detectFrameworks in H.
    repeat (apply elem_of_app in H as [H|H]).
    + destruct (existsb (eqs ext) _) eqn:E; [|inversion H].
      apply existsb_eqs in E.
      repeat (apply elem_of_app in H as [H|H]); pick H; exact E.
    + destruct (eqs ext (str ".py")) eqn:E; [|inversion H].
      apply eqs_spec in E. subst ext.
      repeat (apply elem_of_app in H as [H|H]); pick H; apply list_elem_of_In; left; reflexivity.
    + apply when_elem in H as [E ->]. apply eqs_spec in E. subst ext.
      split; [apply list_elem_of_In; left; reflexivity | eexists; reflexivity].
    + destruct (eqs ext (str ".java")) eqn:E; [|inversion H].
      apply eqs_spec in E. subst ext.
      pick H; apply list_elem_of_In; left; reflexivity.
    + apply when_elem in H as [E ->]. apply eqs_spec in E. subst ext.
      split; [apply list_elem_of_In; left; reflexivity | eexists; reflexivity].
    + destruct (eqs ext (str ".php")) eqn:E; [|inversion H].
      apply eqs_spec in E. subst ext.
      pick H; apply list_elem_of_In; left; reflexivity.
  - intros content filePath H. unfold parseFileForEndpoints.
    rewrite Hnone by exact H. reflexivity.
Qed.

End Detect.

(** ** A discovery run *)

Section Discover.
Import EndpointDiscovery DedupSpec DetectSpec.

Lemma deduplicate_keys l : forall ep,
  ep ∈ l -> key ep ∈ key <$> deduplicateEndpoints l.
Proof.
  induction l as [|x l IH] using rev_ind; intros ep Hep; [inversion Hep|].
  rewrite deduplicate_snoc.
  apply elem_of_app in Hep as [Hep|Hep].
  - apply IH in Hep. case_bool_decide; [exact Hep|].
    rewrite fmap_app. apply elem_of_app. left. exact Hep.
  - apply list_elem_of_singleton in Hep. subst x.
    case_bool_decide as Hk.
    + apply list_elem_of_fmap in Hk as (y & Hy & Hin). rewrite Hy. apply IH. exact Hin.
    + rewrite fmap_app. apply elem_of_app. right. simpl. left.
Qed.

(** The result of [discoverEndpoints] is made of the endpoints parsed
    from the files that could be read, deduplicated, followed by those
    of the Next.js routes whose key is not among them and not met
    before.  No two endpoints of the result have the same key, every
    endpoint found has its key in the result, and a file that cannot
    be read contributes nothing: the result is the one of a run
    without that file. *)
Theorem discoverEndpoints_structure files nextjsEndpoints :
  discoverEndpoints files nextjsEndpoints
  = deduplicateEndpoints (parsed files)
    ++ dedupFilter (list_to_set (key <$> parsed files)) nextjsEndpoints
  /\ NoDup (key <$> discoverEndpoints files nextjsEndpoints)
  /\ (forall ep, ep ∈ parsed files ++ nextjsEndpoints ->
        key ep ∈ key <$> discoverEndpoints files nextjsEndpoints)
  /\ (forall file files',
        discoverEndpoints (files ++ (file, None) :: files') nextjsEndpoints
        = discoverEndpoints (files ++ files') nextjsEndpoints).
Proof.
  split; [|split; [|split]].
  - unfold discoverEndpoints, deduplicateEndpoints. fold (parsed files).
    rewrite dedupFilter_app, (right_id_L ∅ (∪)). reflexivity.
  - apply dedupFilter_NoDup.
  - intros ep Hep. unfold discoverEndpoints. fold (parsed files).
    apply deduplicate_keys. exact Hep.
  - intros file files'. unfold discoverEndpoints.
    rewrite !flat_map_app. simpl. reflexivity.
Qed.

End Discover.

(** ** Literals and anchored suffixes in the matcher *)

Section Literals.
Import NextSpec.

Lemma startsWith_spec p : forall s, startsWith p s = true <-> exists r, s = p ++ r.
Proof.
  induction p as [|a p IH]; intros s; simpl.
  - split; [eauto | reflexivity].
  - destruct s as [|b s]; [split; [discriminate | intros [r H]; discriminate]|].
    rewrite andb_true_iff, IH. unfold eqc. rewrite Ascii.eqb_eq. split.
    + intros [-> [r ->]]. eauto.
    + intros [r [= -> ->]]. eauto.
Qed.

Lemma startsWith_app p r : startsWith p (p ++ r) = true.
Proof. apply startsWith_spec. eauto. Qed.

Lemma startsWith_drop p s : startsWith p s = true -> s = p ++ drop (length p) s.
Proof.
  intros H. apply startsWith_spec in H as [r ->]. rewrite drop_app_length. reflexivity.
Qed.

Lemma run_lit w : forall i s c k,
  run false (lit w) i s c k
  = if startsWith w s then k (i + length w) (drop (length w) s) c else None.
Proof.
  induction w as [|a w IH]; intros i s c k.
  - simpl. rewrite Nat.add_0_r. reflexivity.
  - destruct w as [|b w].
    + simpl. destruct s as [|x s]; [reflexivity|].
      unfold chr_ok, canon. rewrite andb_true_r.
      destruct (eqc a x); [|reflexivity]. f_equal. lia.
    + change (lit (a :: b :: w)) with (Seq (Chr a) (lit (b :: w))).
      cbn [run]. destruct s as [|x s]; [reflexivity|].
      unfold chr_ok, canon.
      change (startsWith (a :: b :: w) (x :: s))
        with (eqc a x && startsWith (b :: w) s).
      change (drop (length (a :: b :: w)) (x :: s)) with (drop (length (b :: w)) s).
      destruct (eqc a x); [|reflexivity]. cbn [andb].
      rewrite IH. destruct (startsWith (b :: w) s); [|reflexivity].
      f_equal. simpl. lia.
Qed.

Lemma search_match_at re : forall s i m,
  search re i s = Some m ->
  i <= index m /\ match_at re (index m) (drop (index m - i) s) = Some m.
Proof.
  induction s as [|a s IH]; intros i m H; cbn [search] in H.
  - destruct (match_at re i []) eqn:E; [|discriminate]. injection H as ->.
    pose proof (match_at_spec _ _ _ _ E) as (-> & _).
    rewrite Nat.sub_diag. auto.
  - destruct (match_at re i (a :: s)) eqn:E.
    + injection H as ->. pose proof (match_at_spec _ _ _ _ E) as (-> & _).
      rewrite Nat.sub_diag. auto.
    + apply IH in H as [H1 H2]. split; [lia|].
      replace (index m - i) with (S (index m - S i)) by lia. exact H2.
Qed.

Lemma search_none re : forall s i,
  search re i s = None -> forall j, j <= length s -> match_at re (i + j) (drop j s) = None.
Proof.
  induction s as [|a s IH]; intros i H j Hj; cbn [search] in H.
  - simpl in Hj. assert (j = 0) as -> by lia. rewrite Nat.add_0_r. cbn [drop].
    destruct (match_at re i []); [discriminate | reflexivity].
  - destruct (match_at re i (a :: s)) eqn:E; [discriminate|].
    destruct j as [|j]; [rewrite Nat.add_0_r; exact E|].
    simpl in Hj. replace (i + S j) with (S i + j) by lia. apply IH; [exact H | lia].
Qed.

Lemma match_at_suffix w i s :
  match_at (suffixRe w) i s
  = if eqs s w then Some (mkMatch i (i + length w) [] [Some w]) else None.
Proof.
  unfold match_at, suffixRe. cbn [source ignoreCase ngroups cat].
  cbn [run]. rewrite run_lit.
  destruct (startsWith w s) eqn:E.
  - apply startsWith_drop in E. destruct (drop (length w) s) as [|x r] eqn:Ed.
    + rewrite app_nil_r in E. subst s. rewrite eqs_refl.
      replace (i + length w - i) with (length w) by lia.
      rewrite firstn_all. reflexivity.
    + destruct (eqs s w) eqn:Es; [|reflexivity].
      apply eqs_spec in Es. rewrite Es, drop_all in Ed. discriminate.
  - destruct (eqs s w) eqn:Es; [|reflexivity].
    apply eqs_spec in Es. subst s.
    rewrite <- (app_nil_r w) in E at 2. rewrite startsWith_app in E. discriminate.
Qed.

(** Removing a literal suffix: [s.replace(/w$/, '')]. *)
Lemma replace1_suffix w s :
  (exists r, s = r ++ w /\ replace1 (suffixRe w) [] s = r)
  \/ ((forall r, s <> r ++ w) /\ replace1 (suffixRe w) [] s = s).
Proof.
  unfold replace1. destruct (search (suffixRe w) 0 s) as [m|] eqn:E.
  - left. apply search_match_at in E as [_ E]. rewrite Nat.sub_0_r in E.
    rewrite match_at_suffix in E.
    destruct (eqs (drop (index m) s) w) eqn:Es; [|discriminate].
    apply eqs_spec in Es. injection E as <-. cbn [index after].
    exists (take (index m) s). rewrite app_nil_r. split; [|reflexivity].
    rewrite <- Es. symmetry. apply take_drop.
  - right. split; [|reflexivity]. intros r ->.
    pose proof (search_none _ _ _ E (length r)) as H.
    rewrite length_app, drop_app_length, match_at_suffix, eqs_refl in H.
    specialize (H ltac:(lia)). discriminate.
Qed.

End Literals.

(** ** The route of a file of the Next.js routers *)

Section Next.
Import EndpointDiscovery NextSpec.

Lemma run_apiGroup i s c :
  run false apiGroup i s c (fun j s' c' => Some (j, s', c'))
  = match apiRoute s with
    | Some g => Some (i + length g, drop (length g) s, <[1 := Some g]> c)
    | None => None
    end.
Proof.
  unfold apiGroup, apiRoute. cbn [cat]. unfold ch.
  rewrite run_Grp, run_Seq, run_lit.
  destruct (startsWith (str "/api/") s) eqn:E; [|reflexivity].
  rewrite run_plus_cls by (right; discriminate).
  change (cls_ok false true ["."%char]) with notDot.
  change (length (str "/api/")) with 5.
  pose proof (spanLen_le notDot (drop 5 s)) as Hle. rewrite length_drop in Hle.
  destruct (spanLen notDot (drop 5 s)) as [|n] eqn:En; [reflexivity|].
  rewrite length_take, drop_drop.
  replace (Nat.min (5 + S n) (length s)) with (5 + S n) by lia.
  replace (i + 5 + S n - i) with (5 + S n) by lia.
  replace (i + (5 + S n)) with (i + 5 + S n) by lia. reflexivity.
Qed.

Lemma match_at_nextPath i s :
  match_at nextPathRe i s
  = match (if startsWith (str "pages") s then apiRoute (drop 5 s) else None) with
    | Some g => Some (mkMatch i (i + 5 + length g) (drop (length g) (drop 5 s))
                        [Some (take (5 + length g) s); Some g])
    | None =>
        match (if startsWith (str "app") s then apiRoute (drop 3 s) else None) with
        | Some g => Some (mkMatch i (i + 3 + length g) (drop (length g) (drop 3 s))
                            [Some (take (3 + length g) s); Some g])
        | None => None
        end
    end.
Proof.
  unfold match_at, nextPathRe. cbn [source ignoreCase ngroups cat words].
  fold apiGroup. unfold ch.
  change (run false (Seq ?a ?b) ?i ?s ?c ?k)
    with (run false a i s c (fun i' s' c' => run false b i' s' c' k)).
  change (run false (Alt ?a ?b) ?i ?s ?c ?k)
    with (match run false a i s c k with Some x => Some x | None => run false b i s c k end).
  rewrite !run_lit.
  change (length (str "pages")) with 5. change (length (str "app")) with 3.
  destruct (startsWith (str "pages") s) eqn:E1.
  - rewrite run_apiGroup. destruct (apiRoute (drop 5 s)) as [g|] eqn:Eg.
    + cbn [replicate]. simpl insert.
      replace (i + 5 + length g - i) with (5 + length g) by lia. reflexivity.
    + destruct (startsWith (str "app") s) eqn:E2; [|reflexivity].
      apply startsWith_spec in E1 as [r1 ->]. discriminate.
  - destruct (startsWith (str "app") s) eqn:E2; [|reflexivity].
    rewrite run_apiGroup. destruct (apiRoute (drop 3 s)) as [g|] eqn:Eg; [|reflexivity].
    cbn [replicate]. simpl insert.
    replace (i + 3 + length g - i) with (3 + length g) by lia. reflexivity.
Qed.

Lemma apiRoute_shape s g :
  apiRoute s = Some g ->
  exists x, g = str "/api/" ++ x /\ x <> [] /\ Forall (fun a => a <> "."%char) x
            /\ s = g ++ drop (length g) s.
Proof.
  unfold apiRoute. destruct (startsWith (str "/api/") s) eqn:E; [|discriminate].
  apply startsWith_drop in E. change (length (str "/api/")) with 5 in E.
  pose proof (spanLen_le notDot (drop 5 s)) as Hle. rewrite length_drop in Hle.
  pose proof (spanLen_take notDot (drop 5 s)) as Ht.
  destruct (spanLen notDot (drop 5 s)) as [|n] eqn:En; [discriminate|].
  intros [= <-]. exists (take (S n) (drop 5 s)).
  assert (take (5 + S n) s = str "/api/" ++ take (S n) (drop 5 s)) as Hg.
  { rewrite E at 1. rewrite take_app_add'; reflexivity. }
  split; [exact Hg|]. split; [|split].
  - intros H. apply (f_equal length) in H. rewrite length_take, length_drop in H.
    change (length []) with 0 in H. lia.
  - eapply Forall_impl; [exact Ht|]. intros a Ha ->. discriminate.
  - rewrite <- (take_drop (5 + S n) s) at 1. f_equal. f_equal.
    rewrite length_take. lia.
Qed.

Lemma match1_nextPath filePath m :
  match1 nextPathRe filePath = Some m ->
  exists x, grp m 1 = Some (str "/api/" ++ x) /\ x <> []
            /\ Forall (fun a => a <> "."%char) x.
Proof.
  unfold match1. intros H. apply search_match_at in H as [_ H].
  rewrite match_at_nextPath in H.
  destruct (if startsWith (str "pages") _ then _ else _) as [g|] eqn:E1.
  - injection H as <-. destruct (startsWith (str "pages") _); [|discriminate].
    apply apiRoute_shape in E1 as (x & -> & Hx & Hd & _). eauto.
  - destruct (if startsWith (str "app") _ then _ else _) as [g|] eqn:E2; [|discriminate].
    injection H as <-. destruct (startsWith (str "app") _); [|discriminate].
    apply apiRoute_shape in E2 as (x & -> & Hx & Hd & _). eauto.
Qed.

Lemma keeps_api w s :
  startsWith (str "/api") s = true -> startsWith (str "/api") w = false ->
  head w = Some "/"%char ->
  startsWith (str "/api") (replace1 (suffixRe w) [] s) = true.
Proof.
  intros Hs Hw Hh. destruct (replace1_suffix w s) as [(r & -> & ->)|[_ ->]]; [|exact Hs].
  destruct r as [|r0 r]; [rewrite app_nil_l in Hs; rewrite Hs in Hw; discriminate|].
  apply startsWith_spec in Hs as [t Ht].
  destruct w as [|a w]; [discriminate|]. injection Hh as ->.
  destruct r as [|r1 r]; [discriminate|].
  destruct r as [|r2 r]; [discriminate|].
  destruct r as [|r3 r]; [discriminate|].
  injection Ht as -> -> -> -> _. reflexivity.
Qed.

(** Whatever the path of the file, the route that [extractNextJsPath]
    returns starts with [/api]: removing [/route] and [/index] never
    eats into it.  The route is [/api] itself when the pattern for
    [pages/api/...] and [app/api/...] does not match the path. *)
Theorem extractNextJsPath_api filePath :
  startsWith (str "/api") (extractNextJsPath filePath) = true
  /\ (match1 nextPathRe filePath = None -> extractNextJsPath filePath = str "/api").
Proof.
  unfold extractNextJsPath. split.
  - destruct (match1 nextPathRe filePath) as [m|] eqn:E; [|reflexivity].
    apply match1_nextPath in E as (x & -> & Hx & _).
    rewrite orElse_some.
    change routeEndRe with (suffixRe (str "/route")).
    change indexEndRe with (suffixRe (str "/index")).
    set (r := replace1 _ _ (replace1 _ _ _)).
    assert (startsWith (str "/api") r = true) as Hr.
    { apply keeps_api; [|reflexivity|reflexivity].
      apply keeps_api; [|reflexivity|reflexivity]. reflexivity. }
    destruct r; [discriminate | exact Hr].
  - intros ->. reflexivity.
Qed.

End Next.

Section NextSuffix.
Import EndpointDiscovery NextSpec.

Lemma endsWith_spec w s : endsWith w s = true <-> exists r, s = r ++ w.
Proof.
  unfold endsWith. rewrite startsWith_spec. split.
  - intros [t H]. exists (rev t). apply (f_equal (@rev ascii)) in H.
    rewrite rev_involutive, rev_app_distr, rev_involutive in H. exact H.
  - intros [r ->]. exists (rev r). apply rev_app_distr.
Qed.

Lemma replace1_removeSuffix w s : replace1 (suffixRe w) [] s = removeSuffix w s.
Proof.
  unfold removeSuffix.
  destruct (replace1_suffix w s) as [(r & -> & ->)|[Hn ->]].
  - rewrite (proj2 (endsWith_spec w (r ++ w))) by eauto.
    rewrite length_app. replace (length r + length w - length w) with (length r) by lia.
    rewrite take_app_length. reflexivity.
  - destruct (endsWith w s) eqn:E; [|reflexivity].
    apply endsWith_spec in E as [r ->]. destruct (Hn r eq_refl).
Qed.

Lemma search_first re n : forall s i,
  n <= length s ->
  (forall j, j < n -> match_at re (i + j) (drop j s) = None) ->
  search re i s = search re (i + n) (drop n s).
Proof.
  induction n as [|n IH]; intros s i Hn H.
  - rewrite Nat.add_0_r. reflexivity.
  - destruct s as [|a s]; [simpl in Hn; lia|].
    cbn [search]. pose proof (H 0 ltac:(lia)) as H0.
    rewrite Nat.add_0_r in H0. cbn [drop] in H0. rewrite H0.
    replace (i + S n) with (S i + n) by lia. cbn [drop].
    apply IH; [simpl in Hn; lia|].
    intros j Hj. specialize (H (S j) ltac:(lia)).
    replace (S i + j) with (i + S j) by lia. exact H.
Qed.

Lemma includes_cons n a s : includes n s = true -> includes n (a :: s) = true.
Proof. intros H. cbn [includes]. rewrite H. apply orb_true_r. Qed.

Lemma includes_drop n j : forall s, includes n (drop j s) = true -> includes n s = true.
Proof.
  induction j as [|j IH]; intros s H; [exact H|].
  destruct s as [|a s]; [exact H|]. apply includes_cons, IH. exact H.
Qed.

Lemma includes_here n s : startsWith n s = true -> includes n s = true.
Proof. intros H. destruct s; cbn [includes]; rewrite H; reflexivity. Qed.

Lemma includes_app_l n s t : includes n s = true -> includes n (s ++ t) = true.
Proof.
  induction s as [|a s IH]; intros H.
  - destruct n; [apply includes_here; reflexivity | discriminate].
  - cbn [includes] in H. apply orb_prop in H as [H|H].
    + apply includes_here. apply startsWith_spec in H as [r H].
      rewrite H, <- app_assoc. apply startsWith_app.
    + rewrite <- app_comm_cons. apply includes_cons, IH. exact H.
Qed.

Ltac conj H :=
  repeat match type of H with
         | (_ && _) = true => let H' := fresh in apply andb_prop in H as [H' H]
         end.

Ltac chars :=
  repeat match goal with
         | H : eqc _ _ = true |- _ => apply Ascii.eqb_eq in H; try discriminate H; subst
         end.

(** A directory name of the routers cannot start inside [d] and run
    into a second directory name, unless [d] has [/api/] itself. *)
Lemma straddle dir dir' d tail g :
  (dir = str "pages" \/ dir = str "app") ->
  (dir' = str "pages" \/ dir' = str "app") ->
  d <> [] -> includes (str "/api/") d = false ->
  startsWith dir (d ++ dir' ++ str "/api/" ++ tail) = true ->
  apiRoute (drop (length dir) (d ++ dir' ++ str "/api/" ++ tail)) = Some g -> False.
Proof.
  intros Hdir Hdir' Hd Hinc Hs Hg.
  assert (startsWith (str "/api/") (drop (length dir) (d ++ dir' ++ str "/api/" ++ tail))
          = true) as Ha.
  { unfold apiRoute in Hg. destruct (startsWith (str "/api/") _); [reflexivity | discriminate]. }
  clear Hg.
  assert (includes (str "/api/") d = true); [|congruence].
  destruct Hdir as [-> | ->], Hdir' as [-> | ->];
    repeat (let a := fresh "a" in destruct d as [|a d];
            [first [contradiction
                   | exfalso; cbn -[eqc] in Hs, Ha; conj Hs; conj Ha; chars;
                     congruence]|]);
    cbn -[eqc] in Hs, Ha; conj Hs; conj Ha; chars; reflexivity.
Qed.

End NextSuffix.

Section NextRoute.
Import EndpointDiscovery NextSpec.

Lemma notDot_spec a : notDot a = true <-> a <> "."%char.
Proof.
  unfold notDot. rewrite cls_neg1, negb_true_iff, eqc_false. split; congruence.
Qed.

Lemma apiRoute_hit x rest :
  x <> [] -> Forall (fun a => a <> "."%char) x ->
  (rest = [] \/ head rest = Some "."%char) ->
  apiRoute (str "/api/" ++ x ++ rest) = Some (str "/api/" ++ x).
Proof.
  intros Hx Hd Hr. unfold apiRoute. rewrite startsWith_app.
  change (drop 5 (str "/api/" ++ x ++ rest)) with (x ++ rest).
  assert (spanLen notDot (x ++ rest) = length x) as ->.
  { apply spanLen_app.
    - eapply Forall_impl; [exact Hd|]. intros a Ha. apply notDot_spec. exact Ha.
    - destruct rest as [|r rest]; [exact I|]. destruct Hr as [Hr|Hr]; [discriminate|].
      injection Hr as ->. reflexivity. }
  destruct x as [|a x]; [contradiction|]. cbn [length]. f_equal.
  change (str "/api/" ++ (a :: x) ++ rest) with ((str "/api/" ++ a :: x) ++ rest).
  apply take_app_length'. rewrite length_app. reflexivity.
Qed.

Lemma no_match_inside pre dir x rest j :
  includes (str "/api/") pre = false ->
  (dir = str "pages" \/ dir = str "app") ->
  j < length pre ->
  match_at nextPathRe j (drop j (pre ++ dir ++ str "/api/" ++ x ++ rest)) = None.
Proof.
  intros Hinc Hdir Hj. rewrite drop_app_le by lia.
  set (d := drop j pre).
  assert (d <> []) as Hd.
  { intros E. apply (f_equal length) in E. subst d. rewrite length_drop in E.
    simpl in E. lia. }
  assert (includes (str "/api/") d = false) as Hid.
  { destruct (includes (str "/api/") d) eqn:E; [|reflexivity].
    apply includes_drop in E. congruence. }
  rewrite match_at_nextPath.
  destruct (startsWith (str "pages") _) eqn:E1.
  - destruct (apiRoute (drop 5 _)) as [g|] eqn:Eg.
    + destruct (straddle (str "pages") dir d (x ++ rest) g); auto.
    + destruct (startsWith (str "app") _) eqn:E2; [|reflexivity].
      apply startsWith_spec in E1 as [r1 E1]. rewrite E1 in E2. discriminate.
  - destruct (startsWith (str "app") _) eqn:E2; [|reflexivity].
    destruct (apiRoute (drop 3 _)) as [g|] eqn:Eg; [|reflexivity].
    destruct (straddle (str "app") dir d (x ++ rest) g); auto.
Qed.

Lemma match1_nextPath_route pre dir x rest :
  includes (str "/api/") pre = false ->
  dir = str "pages" \/ dir = str "app" ->
  x <> [] -> Forall (fun a => a <> "."%char) x ->
  rest = [] \/ head rest = Some "."%char ->
  exists m, match1 nextPathRe (pre ++ dir ++ str "/api/" ++ x ++ rest) = Some m
            /\ grp m 1 = Some (str "/api/" ++ x).
Proof.
  intros Hinc Hdir Hx Hd Hr. unfold match1.
  rewrite (search_first nextPathRe (length pre)).
  2:{ rewrite length_app. lia. }
  2:{ intros j Hj. apply no_match_inside; assumption. }
  rewrite drop_app_length. cbn [Nat.add].
  assert (match_at nextPathRe (length pre) (dir ++ str "/api/" ++ x ++ rest)
          = Some (mkMatch (length pre) (length pre + length dir + length (str "/api/" ++ x))
                    (drop (length (str "/api/" ++ x))
                       (drop (length dir) (dir ++ str "/api/" ++ x ++ rest)))
                    [Some (take (length dir + length (str "/api/" ++ x))
                             (dir ++ str "/api/" ++ x ++ rest));
                     Some (str "/api/" ++ x)])) as Hm.
  { rewrite match_at_nextPath. destruct Hdir as [-> | ->].
    - rewrite startsWith_app.
      change (drop 5 (str "pages" ++ ?t)) with t.
      rewrite apiRoute_hit by assumption. reflexivity.
    - change (startsWith (str "pages") (str "app" ++ ?t)) with false. cbv iota.
      rewrite startsWith_app.
      change (drop 3 (str "app" ++ ?t)) with t.
      rewrite apiRoute_hit by assumption. reflexivity. }
  rewrite (search_hit _ _ _ _ Hm). eexists. split; reflexivity.
Qed.

Lemma extractNextJsPath_group filePath m x :
  match1 nextPathRe filePath = Some m -> grp m 1 = Some (str "/api/" ++ x) ->
  extractNextJsPath filePath
  = removeSuffix (str "/index") (removeSuffix (str "/route") (str "/api/" ++ x)).
Proof.
  intros Hm Hg. unfold extractNextJsPath. rewrite Hm, Hg, orElse_some.
  change routeEndRe with (suffixRe (str "/route")).
  change indexEndRe with (suffixRe (str "/index")).
  rewrite !replace1_removeSuffix.
  set (r := removeSuffix _ (removeSuffix _ _)).
  assert (startsWith (str "/api") r = true) as Hs.
  { subst r. rewrite <- !replace1_removeSuffix.
    apply keeps_api; [|reflexivity|reflexivity].
    apply keeps_api; [|reflexivity|reflexivity]. reflexivity. }
  destruct r; [discriminate | reflexivity].
Qed.

(** For a file below [pages/api/] or [app/api/], with no [/api/]
    earlier in its path, [extractNextJsPath] returns [/api/] and the
    characters [x] that follow up to the first dot of the path, less a
    final [/route] and then a final [/index]: for
    [/w/shop/app/api/users/[id]/route.ts] it is [/api/users/[id]]. *)
Theorem extractNextJsPath_route pre dir x rest :
  includes (str "/api/") pre = false ->
  dir = str "pages" \/ dir = str "app" ->
  x <> [] -> Forall (fun a => a <> "."%char) x ->
  rest = [] \/ head rest = Some "."%char ->
  extractNextJsPath (pre ++ dir ++ str "/api/" ++ x ++ rest)
  = removeSuffix (str "/index") (removeSuffix (str "/route") (str "/api/" ++ x)).
Proof.
  intros Hinc Hdir Hx Hd Hr.
  destruct (match1_nextPath_route pre dir x rest Hinc Hdir Hx Hd Hr) as (m & Hm & Hg).
  apply (extractNextJsPath_group _ m x Hm Hg).
Qed.

Lemma extractNextJsPath_route_witness :
  extractNextJsPath (str "/w/shop/app/api/users/[id]/route.ts") = str "/api/users/[id]".
Proof.
  apply (extractNextJsPath_route (str "/w/shop/") (str "app") (str "users/[id]/route")
           (str ".ts")).
  - reflexivity.
  - right. reflexivity.
  - discriminate.
  - apply Forall_forall. intros a Ha. apply list_elem_of_In in Ha. simpl in Ha.
    intuition (subst; discriminate).
  - right. reflexivity.
Defined.

End NextRoute.

(** ** The walk over the source files *)

Section WalkFacts.
Import EndpointDiscovery FileWalk WalkSpec.

Lemma visited_spec name :
  negb (existsb (eqs name) ignoreDirs) && negb (startsWith (str ".") name) = true
  <-> visited name.
Proof.
  unfold visited. rewrite andb_true_iff, !negb_true_iff.
  rewrite <- (not_true_iff_false (existsb _ _)), existsb_eqs. tauto.
Qed.

Lemma Holds_one entries dirs name content :
  Holds entries dirs name content
  <-> exists e, e ∈ entries /\ Holds [e] dirs name content.
Proof.
  split.
  - intros H. inversion H as [? ? ? Hin|? ? inner ? ? ? Hin Hrec]; subst.
    + eexists. split; [exact Hin|]. constructor. left.
    + eexists. split; [exact Hin|]. apply (holds_dir _ _ inner); [left | exact Hrec].
  - intros (e & He & H). inversion H as [? ? ? Hin|? ? inner ? ? ? Hin Hrec]; subst;
      apply list_elem_of_singleton in Hin; subst e.
    + constructor. exact He.
    + apply (holds_dir _ _ inner); assumption.
Qed.

Variable join : list ascii -> list ascii -> list ascii.

Lemma walkEntry_dir currentPath name entries :
  walkEntry join currentPath (DirEntry name (Some entries))
  = if negb (existsb (eqs name) ignoreDirs) && negb (startsWith (str ".") name)
    then flat_map (walkEntry join (join currentPath name)) entries else [].
Proof.
  cbn [walkEntry]. destruct (_ && _); [|reflexivity].
  induction entries as [|e rest IH]; [reflexivity|]. cbn [flat_map]. rewrite <- IH. reflexivity.
Qed.

Lemma walkEntry_spec entry : forall currentPath fullPath,
  fullPath ∈ walkEntry join currentPath entry
  <-> exists dirs name content,
        Holds [entry] dirs name content
        /\ fullPath = joined join currentPath dirs name
        /\ Forall visited dirs
        /\ toLowerCase (extname name) ∈ extensions.
Proof.
  induction entry as [name content|name entries IH|name|name] using Dirent_nested_ind;
    intros currentPath fullPath.
  - cbn [walkEntry]. split.
    + intros H. destruct (existsb _ _) eqn:E; [|inversion H].
      apply list_elem_of_singleton in H. subst fullPath.
      exists [], name, content. split; [constructor; left|]. split; [reflexivity|].
      split; [constructor|]. apply existsb_eqs. exact E.
    + intros (dirs & n & c & Hh & -> & Hv & Hext).
      inversion Hh as [? ? ? Hin|? ? ? ? ? ? Hin]; subst;
        apply list_elem_of_singleton in Hin; [|discriminate].
      injection Hin as -> ->. rewrite (proj2 (existsb_eqs _ _) Hext). left.
  - rewrite walkEntry_dir. split.
    + intros H. destruct (_ && _) eqn:Ev; [|inversion H]. apply visited_spec in Ev.
      apply list_elem_of_In, in_flat_map in H as (e & He & H).
      apply list_elem_of_In in He, H.
      apply (proj1 (Forall_forall _ _) IH e He) in H
        as (dirs & n & c & Hh & -> & Hv & Hext).
      exists (name :: dirs), n, c. split; [|split; [|split]].
      * apply (holds_dir _ name entries); [left|]. apply Holds_one. eauto.
      * reflexivity.
      * constructor; assumption.
      * exact Hext.
    + intros (dirs & n & c & Hh & -> & Hv & Hext).
      inversion Hh as [? ? ? Hin|? ? inner ? ? ? Hin Hrec]; subst;
        apply list_elem_of_singleton in Hin; [discriminate|].
      injection Hin as -> ->. apply Forall_cons in Hv as [Hv Hvs].
      rewrite (proj2 (visited_spec _) Hv).
      apply list_elem_of_In, in_flat_map.
      apply Holds_one in Hrec as (e & He & Hhe).
      exists e. split; [apply list_elem_of_In; exact He|]. apply list_elem_of_In.
      apply (proj1 (Forall_forall _ _) IH e He).
      exists dirs0, n, c. split; [exact Hhe|]. split; [reflexivity|]. auto.
  - cbn [walkEntry]. rewrite andb_comm. split.
    + intros H. destruct (_ && _); inversion H.
    + intros (dirs & n & c & Hh & _).
      inversion Hh as [? ? ? Hin|? ? inner ? ? ? Hin Hrec]; subst;
        apply list_elem_of_singleton in Hin; discriminate.
  - cbn [walkEntry]. split; [intros H; inversion H|].
    intros (dirs & n & c & Hh & _).
    inversion Hh as [? ? ? Hin|? ? inner ? ? ? Hin Hrec]; subst;
      apply list_elem_of_singleton in Hin; discriminate.
Qed.

(** [getAllSourceFiles] lists nothing when the directory cannot be
    read.  Otherwise it lists exactly the paths, joined with
    [path.join] from the directory and the names on the way, of the
    files whose name has one of the nine source extensions, in any
    case of its letters, and that lie in the directory itself or
    below directories that can be read, are not among the ignored
    directories and do not start with a dot, whether or not the file
    itself can be read. *)
Theorem getAllSourceFiles_lists dirPath entries fullPath :
  getAllSourceFiles join dirPath None = []
  /\ (fullPath ∈ getAllSourceFiles join dirPath (Some entries)
      <-> exists dirs name content,
            Holds entries dirs name content
            /\ fullPath = joined join dirPath dirs name
            /\ Forall visited dirs
            /\ toLowerCase (extname name) ∈ extensions).
Proof.
  split; [reflexivity|].
  unfold getAllSourceFiles, walkDir. split.
  - intros H. apply list_elem_of_In, in_flat_map in H as (e & He & H).
    apply list_elem_of_In in He, H.
    apply walkEntry_spec in H as (dirs & name & content & Hh & Hrest).
    exists dirs, name, content. split; [|exact Hrest].
    apply Holds_one. eauto.
  - intros (dirs & name & content & Hh & Hrest).
    apply Holds_one in Hh as (e & He & Hh).
    apply list_elem_of_In, in_flat_map. exists e.
    split; [apply list_elem_of_In; exact He|]. apply list_elem_of_In.
    apply walkEntry_spec. eauto 10.
Qed.

End WalkFacts.

(** ** The route files of the Next.js app router *)

Section RouteFacts.
Import EndpointDiscovery FileWalk WalkSpec.

Lemma match_at_anchored re r i s :
  source re = Seq Bol r -> 0 < i -> match_at re i s = None.
Proof.
  intros Hr Hi. unfold match_at. rewrite Hr. cbn [run].
  destruct i; [lia | reflexivity].
Qed.

Lemma search_anchored re r s :
  source re = Seq Bol r -> search re 0 s = match_at re 0 s.
Proof.
  intros Hr.
  assert (forall t i, 0 < i -> search re i t = None) as Hpos.
  { induction t as [|a t IH]; intros i Hi; cbn [search];
      rewrite (match_at_anchored re r i _ Hr Hi); [reflexivity | apply IH; lia]. }
  destruct s as [|a s]; cbn [search]; destruct (match_at re 0 _); try reflexivity.
  apply Hpos. lia.
Qed.

Lemma startsWith_exact w r : startsWith w r = true -> drop (length w) r = [] -> r = w.
Proof.
  intros H Hd. apply startsWith_drop in H. rewrite Hd, app_nil_r in H. exact H.
Qed.

Ltac clash :=
  match goal with
  | H1 : startsWith _ ?r = true, H2 : startsWith _ ?r = _ |- _ =>
      apply startsWith_spec in H1 as [? ->]; discriminate H2
  end.

Ltac dead H :=
  cbn [run] in H; cbv beta iota in H; destruct H as [? H]; discriminate H.

Lemma routeFile_names name : test routeFileRe name = true <-> name ∈ routeNames.
Proof.
  unfold test. rewrite bool_decide_eq_true. split.
  - rewrite (search_anchored routeFileRe _ name eq_refl).
    unfold match_at, routeFileRe. cbn [source ignoreCase ngroups cat words].
    unfold ch. rewrite run_Seq, run_Bol0, run_Seq, run_lit.
    destruct (startsWith (str "route.") name) eqn:E; [|intros [x Hx]; discriminate].
    apply startsWith_drop in E. set (r := drop (length (str "route.")) name) in *.
    cbv beta. rewrite run_Seq, run_Grp.
    repeat change (run false (Alt ?a ?b) ?i ?s ?c ?k)
      with (match run false a i s c k with Some x => Some x | None => run false b i s c k end).
    rewrite !run_lit.
    intros H. rewrite E. clear E.
    assert (r = str "js" \/ r = str "ts" \/ r = str "jsx" \/ r = str "tsx") as Hr.
    { destruct (startsWith (str "js") r) eqn:E1.
      - destruct (drop (length (str "js")) r) as [|x1 r1] eqn:D1.
        + left. apply startsWith_exact; assumption.
        + cbn [run] in H.
          destruct (startsWith (str "ts") r) eqn:E2.
          { clash. }
          destruct (startsWith (str "jsx") r) eqn:E3.
          * destruct (drop (length (str "jsx")) r) eqn:D3.
            -- right. right. left. apply startsWith_exact; assumption.
            -- cbn [run] in H. destruct (startsWith (str "tsx") r) eqn:E4.
               ++ clash.
               ++ dead H.
          * destruct (startsWith (str "tsx") r) eqn:E4.
            -- clash.
            -- dead H.
      - destruct (startsWith (str "ts") r) eqn:E2.
        + destruct (drop (length (str "ts")) r) as [|x1 r1] eqn:D1.
          * right. left. apply startsWith_exact; assumption.
          * cbn [run] in H.
            destruct (startsWith (str "jsx") r) eqn:E3.
            { clash. }
            destruct (startsWith (str "tsx") r) eqn:E4.
            -- destruct (drop (length (str "tsx")) r) eqn:D4.
               ++ right. right. right. apply startsWith_exact; assumption.
               ++ cbn [run] in H. dead H.
            -- dead H.
        + destruct (startsWith (str "jsx") r) eqn:E3.
          { clash. }
          destruct (startsWith (str "tsx") r) eqn:E4.
          { clash. }
          dead H. }
    unfold routeNames. apply list_elem_of_In. simpl.
    destruct Hr as [-> | [-> | [-> | ->]]]; tauto.
  - intros H. apply list_elem_of_In in H. simpl in H.
    destruct H as [<- | [<- | [<- | [<- | []]]]]; vm_compute; eauto.
Qed.

End RouteFacts.

Section RouteEnding.
Import EndpointDiscovery FileWalk WalkSpec.

Ltac dead H :=
  cbn [run] in H; cbv beta iota in H; destruct H as [? H]; discriminate H.

Lemma routeEnding_inv s :
  is_Some (match_at routeEndingRe 0 s) -> s ∈ routeEndings.
Proof.
  unfold match_at, routeEndingRe. cbn [source ignoreCase ngroups cat].
  unfold ch. rewrite run_Seq, run_lit.
  destruct (startsWith (str "/route.") s) eqn:E; [|intros [x Hx]; discriminate].
  apply startsWith_drop in E. set (r := drop (length (str "/route.")) s) in *.
  cbv beta. intros H. rewrite E. clear E.
  unfold str in H. cbn [lit list_ascii_of_string] in H.
  assert (r = str "js" \/ r = str "ts" \/ r = str "jsx" \/ r = str "tsx") as Hr.
  { destruct r as [|a r1]; [dead H|].
    rewrite run_Seq in H. cbn [run] in H. rewrite cls_pos2 in H.
    destruct (eqc "j" a || eqc "t" a) eqn:Ea; [|dead H].
    assert (a = "j"%char \/ a = "t"%char) as Ha.
    { apply orb_prop in Ea as [Ea|Ea]; apply Ascii.eqb_eq in Ea; auto. }
    destruct r1 as [|b r2]; [dead H|].
    unfold chr_ok, canon in H.
    destruct (eqc "s" b) eqn:Eb; [|dead H]. apply Ascii.eqb_eq in Eb. subst b.
    destruct r2 as [|c r3].
    - destruct Ha as [-> | ->]; auto.
    - destruct (eqc "x" c) eqn:Ec; [|dead H]. apply Ascii.eqb_eq in Ec. subst c.
      rewrite succ_eqb_false in H.
      destruct r3 as [|d r4]; [|dead H].
      destruct Ha as [-> | ->]; auto. }
  apply list_elem_of_In. simpl. destruct Hr as [-> | [-> | [-> | ->]]]; tauto.
Qed.

Lemma routeEnding_hit name :
  name ∈ routeNames ->
  exists m, match_at routeEndingRe 0 (str "/" ++ name) = Some m /\ after m = [].
Proof.
  intros H. apply list_elem_of_In in H. simpl in H.
  destruct H as [<- | [<- | [<- | [<- | []]]]]; eexists; split;
    try (vm_compute; reflexivity); reflexivity.
Qed.

(** [relativePath.replace(/\/route\.[jt]sx?$/, '')] *)
Lemma routeEnding_strip rel name :
  name ∈ routeNames -> replace1 routeEndingRe [] (rel ++ str "/" ++ name) = rel.
Proof.
  intros Hn. unfold replace1.
  rewrite (search_first routeEndingRe (length rel)).
  - rewrite drop_app_length. cbn [Nat.add].
    destruct (routeEnding_hit name Hn) as (m & Hm & Ha).
    pose proof (match_at_shift routeEndingRe (length rel) 0 (str "/" ++ name) eq_refl) as Hs.
    rewrite Nat.add_0_r, Hm in Hs. cbn [fmap option_fmap option_map] in Hs.
    rewrite (search_hit _ _ _ _ Hs). cbn [index after shiftm].
    pose proof (match_at_spec _ _ _ _ Hm) as (Hi & _). rewrite Hi, Nat.add_0_r, Ha.
    rewrite take_app_length, !app_nil_r. reflexivity.
  - rewrite length_app. lia.
  - intros j Hj. cbn [Nat.add].
    destruct (match_at routeEndingRe j _) as [m|] eqn:E; [exfalso|reflexivity].
    pose proof (match_at_shift routeEndingRe j 0
                  (drop j (rel ++ str "/" ++ name)) eq_refl) as Hs.
    rewrite Nat.add_0_r, E in Hs.
    destruct (match_at routeEndingRe 0 (drop j (rel ++ str "/" ++ name))) as [m0|] eqn:E0;
      [|discriminate].
    assert (drop j (rel ++ str "/" ++ name) ∈ routeEndings) as Hin
      by (apply routeEnding_inv; rewrite E0; eauto).
    rewrite drop_app_le in Hin by lia.
    destruct (drop j rel) as [|c rest] eqn:Ed.
    { apply (f_equal length) in Ed. rewrite length_drop in Ed. simpl in Ed. lia. }
    apply list_elem_of_In in Hin, Hn. simpl in Hin, Hn.
    assert (forall t : list ascii, 10 < length ((c :: rest) ++ str "/" ++ name) ->
              length t <= 10 -> (c :: rest) ++ str "/" ++ name <> t) as Hlong.
    { intros t H1 H2 Eq. rewrite Eq in H1. lia. }
    assert (forall t : list ascii,
              (c :: rest) ++ str "/" ++ name = t ->
              length rest + length name + 2 = length t) as Hlen.
    { intros t <-. rewrite !length_app. simpl. lia. }
    destruct Hn as [<- | [<- | [<- | [<- | []]]]];
      destruct Hin as [Hin | [Hin | [Hin | [Hin | []]]]];
      symmetry in Hin; pose proof (Hlen _ Hin) as Hl; simpl in Hl;
      try lia;
      (destruct rest as [|c2 rest]; [|simpl in Hl; lia]);
      vm_compute in Hin; congruence.
Qed.

Lemma replaceStr_prefix base r : EnvironmentManager.replaceStr base [] (base ++ r) = r.
Proof.
  destruct (base ++ r) as [|a t] eqn:E; cbn [EnvironmentManager.replaceStr].
  - destruct base; [|discriminate]. simpl in E. subst r. reflexivity.
  - rewrite <- E. rewrite startsWith_app, drop_app_length. reflexivity.
Qed.

End RouteEnding.

(** ** The walk over an api directory of the app router *)

Section NextWalk.
Import EndpointDiscovery FileWalk WalkSpec.

(** [path.join] on a directory path and the name of one of its
    entries puts a slash between them. *)
Variable join : list ascii -> list ascii -> list ascii.
Hypothesis join_plain :
  forall currentPath name, join currentPath name = currentPath ++ str "/" ++ name.

Lemma walkNextJsEntry_dir basePath currentPath name entries :
  walkNextJsEntry join basePath currentPath (DirEntry name (Some entries))
  = Some (walkEntries join basePath (join currentPath name) entries).
Proof.
  cbn [walkNextJsEntry]. f_equal.
  induction entries as [|e rest IH]; [reflexivity|]. cbn [walkEntries]. rewrite <- IH. reflexivity.
Qed.

Lemma below_app basePath dirs0 dirs name :
  below (basePath ++ segments dirs0) dirs name = below basePath (dirs0 ++ dirs) name.
Proof.
  unfold below, segments. rewrite fmap_app, concat_app, <- !app_assoc. reflexivity.
Qed.

Lemma segments_snoc dirs d : segments (dirs ++ [d]) = segments dirs ++ str "/" ++ d.
Proof.
  unfold segments. rewrite fmap_app, concat_app. cbn [fmap list_fmap concat].
  rewrite app_nil_r. reflexivity.
Qed.

Lemma routeEndpoints_route basePath dirs name content :
  name ∈ routeNames ->
  routeEndpoints basePath (below basePath dirs name) content
  = flat_map (fun method => if exports content method
                            then [routeOf basePath dirs name method] else [])
             methods.
Proof.
  intros Hn. unfold routeEndpoints, below. fold (segments dirs).
  rewrite replaceStr_prefix, routeEnding_strip by exact Hn.
  rewrite orElse_some. reflexivity.
Qed.

Lemma routeEndpoints_elem basePath dirs name content ep :
  name ∈ routeNames ->
  (ep ∈ routeEndpoints basePath (below basePath dirs name) content
   <-> exists method, method ∈ methods /\ exports content method = true
                      /\ ep = routeOf basePath dirs name method).
Proof.
  intros Hn. rewrite routeEndpoints_route by exact Hn.
  rewrite list_elem_of_In, in_flat_map. split.
  - intros (m & Hm & H). destruct (exports content m) eqn:E; [|destruct H].
    destruct H as [<-|[]]. exists m. split; [apply list_elem_of_In; exact Hm | auto].
  - intros (m & Hm & E & ->). exists m. split; [apply list_elem_of_In; exact Hm|].
    rewrite E. left. reflexivity.
Qed.

Lemma walkEntries_elem basePath currentPath entries ep :
  ep ∈ walkEntries join basePath currentPath entries ->
  exists e eps, e ∈ entries /\ walkNextJsEntry join basePath currentPath e = Some eps
                /\ ep ∈ eps.
Proof.
  induction entries as [|e rest IH]; cbn [walkEntries]; intros H; [inversion H|].
  destruct (walkNextJsEntry join basePath currentPath e) as [eps|] eqn:E; [|inversion H].
  apply elem_of_app in H as [H|H].
  - exists e, eps. split; [left | auto].
  - destruct (IH H) as (e' & eps' & He & Hw & Hep). exists e', eps'.
    split; [right; exact He | auto].
Qed.

Lemma walkNextJsEntry_sound basePath entry : forall dirs0 eps ep,
  walkNextJsEntry join basePath (basePath ++ segments dirs0) entry = Some eps ->
  ep ∈ eps ->
  exists dirs name content method,
    Holds [entry] dirs name (Some content)
    /\ name ∈ routeNames /\ method ∈ methods /\ exports content method = true
    /\ ep = routeOf basePath (dirs0 ++ dirs) name method.
Proof.
  induction entry as [name content|name entries IH|name|name] using Dirent_nested_ind;
    intros dirs0 eps ep Hw Hep.
  - cbn [walkNextJsEntry] in Hw. rewrite join_plain in Hw.
    destruct (test routeFileRe name) eqn:Et.
    + apply routeFile_names in Et. destruct content as [content|]; [|discriminate].
      injection Hw as <-.
      change (basePath ++ segments dirs0 ++ str "/" ++ name)
        with (below basePath dirs0 name) in Hep.
      rewrite <- app_assoc in Hep.
      change (basePath ++ segments dirs0 ++ str "/" ++ name)
        with (below basePath dirs0 name) in Hep.
      apply routeEndpoints_elem in Hep as (m & Hm & He & ->); [|exact Et].
      exists [], name, content, m. rewrite app_nil_r.
      split; [constructor; left | auto].
    + injection Hw as <-. inversion Hep.
  - rewrite walkNextJsEntry_dir, join_plain in Hw. injection Hw as <-.
    apply walkEntries_elem in Hep as (e & eps' & He & Hw & Hep).
    assert ((basePath ++ segments dirs0) ++ "/"%char :: name
            = basePath ++ segments (dirs0 ++ [name])) as Epath
      by (rewrite segments_snoc, app_assoc; reflexivity).
    rewrite Epath in Hw.
    destruct (proj1 (Forall_forall _ _) IH e He (dirs0 ++ [name]) eps' ep Hw Hep)
      as (dirs & n & c & m & Hh & Hn & Hm & Hx & ->).
    exists (name :: dirs), n, c, m. rewrite <- app_assoc.
    split; [|auto]. apply (holds_dir _ name entries); [left|].
    apply Holds_one. eauto.
  - cbn [walkNextJsEntry] in Hw. injection Hw as <-. inversion Hep.
  - cbn [walkNextJsEntry] in Hw. injection Hw as <-. inversion Hep.
Qed.

Lemma walkEntries_all basePath currentPath entries e eps ep :
  (forall e, e ∈ entries -> is_Some (walkNextJsEntry join basePath currentPath e)) ->
  e ∈ entries -> walkNextJsEntry join basePath currentPath e = Some eps -> ep ∈ eps ->
  ep ∈ walkEntries join basePath currentPath entries.
Proof.
  induction entries as [|x rest IH]; intros Hall He Hw Hep; [inversion He|].
  cbn [walkEntries]. destruct (Hall x ltac:(left)) as [xs Hx]. rewrite Hx.
  apply elem_of_app. apply elem_of_cons in He as [->|He].
  - left. congruence.
  - right. apply IH; try assumption. intros y Hy. apply Hall. right. exact Hy.
Qed.

Lemma Holds_inside name entries e dirs n c :
  e ∈ entries -> Holds [e] dirs n c ->
  Holds [DirEntry name (Some entries)] (name :: dirs) n c.
Proof.
  intros He Hh. apply (holds_dir _ name entries); [left|]. apply Holds_one. eauto.
Qed.

Lemma walkNextJsEntry_complete basePath entry : forall dirs0,
  (forall dirs name, name ∈ routeNames -> ~ Holds [entry] dirs name None) ->
  exists eps,
    walkNextJsEntry join basePath (basePath ++ segments dirs0) entry = Some eps
    /\ forall dirs name content method,
         Holds [entry] dirs name (Some content) ->
         name ∈ routeNames -> method ∈ methods -> exports content method = true ->
         routeOf basePath (dirs0 ++ dirs) name method ∈ eps.
Proof.
  induction entry as [name content|name entries IH|name|name] using Dirent_nested_ind;
    intros dirs0 Hread.
  - cbn [walkNextJsEntry]. rewrite join_plain.
    destruct (test routeFileRe name) eqn:Et.
    + pose proof (proj1 (routeFile_names name) Et) as Hn.
      destruct content as [content|].
      2:{ exfalso. apply (Hread [] name Hn). constructor. left. }
      eexists. split; [reflexivity|]. intros dirs n c m Hh Hn' Hm Hx.
      inversion Hh as [? ? ? Hin|? ? ? ? ? ? Hin]; subst;
        apply list_elem_of_singleton in Hin; [|discriminate].
      injection Hin as -> ->. rewrite app_nil_r, <- app_assoc.
      change (basePath ++ segments dirs0 ++ str "/" ++ name)
        with (below basePath dirs0 name).
      apply routeEndpoints_elem; [exact Hn|]. eauto.
    + eexists. split; [reflexivity|]. intros dirs n c m Hh Hn' Hm Hx. exfalso.
      inversion Hh as [? ? ? Hin|? ? ? ? ? ? Hin]; subst;
        apply list_elem_of_singleton in Hin; [|discriminate].
      injection Hin as E1 E2. subst. apply routeFile_names in Hn'. congruence.
  - rewrite walkNextJsEntry_dir, join_plain. eexists. split; [reflexivity|].
    assert ((basePath ++ segments dirs0) ++ str "/" ++ name
            = basePath ++ segments (dirs0 ++ [name])) as ->
      by (rewrite segments_snoc; symmetry; apply app_assoc).
    assert (forall e, e ∈ entries ->
              exists eps,
                walkNextJsEntry join basePath (basePath ++ segments (dirs0 ++ [name])) e
                = Some eps
                /\ forall dirs n c m,
                     Holds [e] dirs n (Some c) -> n ∈ routeNames -> m ∈ methods ->
                     exports c m = true ->
                     routeOf basePath ((dirs0 ++ [name]) ++ dirs) n m ∈ eps) as Hes.
    { intros e He. apply (proj1 (Forall_forall _ _) IH e He).
      intros dirs n Hn Hh. apply (Hread (name :: dirs) n Hn).
      apply (Holds_inside name entries e); assumption. }
    intros dirs n c m Hh Hn Hm Hx.
    inversion Hh as [? ? ? Hin|? ? inner ? ? ? Hin Hrec]; subst;
      apply list_elem_of_singleton in Hin; [discriminate|].
    injection Hin as -> ->. apply Holds_one in Hrec as (e & He & Hhe).
    destruct (Hes e He) as (eps & Hw & Hall).
    apply (walkEntries_all _ _ entries e eps); [| exact He | exact Hw |].
    + intros y Hy. destruct (Hes y Hy) as (ys & Hys & _). rewrite Hys. eauto.
    + specialize (Hall _ n c m Hhe Hn Hm Hx).
      rewrite <- app_assoc in Hall. exact Hall.
  - cbn [walkNextJsEntry]. eexists. split; [reflexivity|].
    intros dirs n c m Hh. exfalso.
    inversion Hh as [? ? ? Hin|? ? inner ? ? ? Hin Hrec]; subst;
      apply list_elem_of_singleton in Hin; discriminate.
  - cbn [walkNextJsEntry]. eexists. split; [reflexivity|].
    intros dirs n c m Hh. exfalso.
    inversion Hh as [? ? ? Hin|? ? inner ? ? ? Hin Hrec]; subst;
      apply list_elem_of_singleton in Hin; discriminate.
Qed.

(** With [path.join] putting a slash between a directory path and
    an entry name: [walkNextJsApiDir] finds nothing when the directory
    cannot be read.  Every endpoint it finds stands for a handler
    exported, as a function, an async function or a constant, under
    the name of one of the seven methods by a file [route.js],
    [route.ts], [route.jsx] or [route.tsx] that can be read, below
    directories that can be read; its path is [/api] followed by
    those directories, its file the path of the route file, its line
    0, its framework [nextjs], its parameters those of its path.
    When no route file is unreadable, every such handler is found. *)
Theorem walkNextJsApiDir_routes basePath entries :
  walkNextJsApiDir join basePath basePath None = []
  /\ (forall ep,
        ep ∈ walkNextJsApiDir join basePath basePath (Some entries) ->
        exists dirs name content method,
          Holds entries dirs name (Some content)
          /\ name ∈ routeNames /\ method ∈ methods /\ exports content method = true
          /\ ep = routeOf basePath dirs name method)
  /\ ((forall dirs name, name ∈ routeNames -> ~ Holds entries dirs name None) ->
      forall dirs name content method,
        Holds entries dirs name (Some content) ->
        name ∈ routeNames -> method ∈ methods -> exports content method = true ->
        routeOf basePath dirs name method
        ∈ walkNextJsApiDir join basePath basePath (Some entries)).
Proof.
  split; [reflexivity|]. cbn [walkNextJsApiDir]. split.
  - intros ep H.
    apply walkEntries_elem in H as (e & eps & He & Hw & Hep).
    pose proof (walkNextJsEntry_sound basePath e [] eps ep) as Hs.
    unfold segments in Hs at 1. cbn [fmap list_fmap concat] in Hs. rewrite app_nil_r in Hs.
    destruct (Hs Hw Hep) as (dirs & n & c & m & Hh & Hrest).
    exists dirs, n, c, m. split; [|exact Hrest]. apply Holds_one. eauto.
  - intros Hread dirs n c m Hh Hn Hm Hx.
    assert (forall e, e ∈ entries ->
              exists eps,
                walkNextJsEntry join basePath basePath e = Some eps
                /\ forall dirs n c m,
                     Holds [e] dirs n (Some c) -> n ∈ routeNames -> m ∈ methods ->
                     exports c m = true -> routeOf basePath dirs n m ∈ eps) as Hes.
    { intros e He.
      pose proof (walkNextJsEntry_complete basePath e []) as Hc.
      unfold segments in Hc at 1. cbn [fmap list_fmap concat] in Hc.
      rewrite app_nil_r in Hc. apply Hc.
      intros ds nm Hnm Hhe. apply (Hread ds nm Hnm). apply Holds_one. eauto. }
    apply Holds_one in Hh as (e & He & Hhe).
    destruct (Hes e He) as (eps & Hw & Hall).
    apply (walkEntries_all _ _ entries e eps); [| exact He | exact Hw | eauto].
    intros y Hy. destruct (Hes y Hy) as (ys & Hys & _). rewrite Hys. eauto.
Qed.

End NextWalk.

(** ** The two passes over a route file *)

Section Agree.
Import EndpointDiscovery FileWalk WalkSpec NextSpec.

Lemma removeSuffix_app w s : removeSuffix w (s ++ w) = s.
Proof.
  unfold removeSuffix. rewrite (proj2 (endsWith_spec w (s ++ w))) by eauto.
  rewrite length_app. replace (length s + length w - length w) with (length s) by lia.
  apply take_app_length.
Qed.

Lemma segments_no_dot dirs :
  Forall (Forall (fun a => a <> "."%char)) dirs ->
  Forall (fun a => a <> "."%char) (segments dirs).
Proof.
  intros H. unfold segments. induction H as [|d dirs Hd _ IH]; [constructor|].
  rewrite fmap_cons. cbn [concat]. apply Forall_app. split; [|exact IH].
  constructor; [discriminate | exact Hd].
Qed.

Lemma routeName_split name :
  name ∈ routeNames -> exists ext, name = str "route" ++ str "." ++ ext.
Proof.
  intros H. apply list_elem_of_In in H. simpl in H.
  destruct H as [<- | [<- | [<- | [<- | []]]]]; eexists; reflexivity.
Qed.

(** For a route file below [pages/api] or [app/api], with no [/api/]
    earlier in its path, no dot in the names of the directories on the
    way and the path of these directories not ending with [/index]:
    the route that [extractNextJsPath] computes from the path of the
    file, which the pass over the patterns uses, is the path of the
    endpoint that the walk over the [api] directory reports for that
    file. *)
Theorem nextjs_passes_agree pre dir dirs name method :
  includes (str "/api/") pre = false ->
  dir = str "pages" \/ dir = str "app" ->
  Forall (Forall (fun a => a <> "."%char)) dirs ->
  name ∈ routeNames ->
  endsWith (str "/index") (segments dirs) = false ->
  let found := routeOf (pre ++ dir ++ str "/api") dirs name method in
  extractNextJsPath (file found) = path found.
Proof.
  intros Hpre Hdir Hdots Hname Hindex. cbv zeta. cbn [file path routeOf].
  destruct (routeName_split name Hname) as [ext ->].
  set (x := drop 1 (segments dirs ++ str "/route")).
  assert (segments dirs ++ str "/route" = str "/" ++ x) as Hx.
  { subst x. unfold segments. destruct dirs as [|d dirs]; reflexivity. }
  assert (below (pre ++ dir ++ str "/api") dirs (str "route" ++ str "." ++ ext)
          = pre ++ dir ++ str "/api/" ++ x ++ str "." ++ ext) as ->.
  { unfold below. fold (segments dirs).
    change (str "/" ++ str "route" ++ str "." ++ ext)
      with (str "/route" ++ str "." ++ ext).
    rewrite <- !app_assoc. f_equal. f_equal.
    change (str "/api" ++ segments dirs ++ str "/route" ++ str "." ++ ext)
      with (str "/api" ++ (segments dirs ++ (str "/route" ++ (str "." ++ ext)))).
    rewrite (app_assoc (segments dirs)), Hx. reflexivity. }
  assert (x <> []) as Hne.
  { subst x. intros E. apply (f_equal length) in E.
    rewrite length_drop, length_app in E. simpl in E. lia. }
  assert (Forall (fun a => a <> "."%char) x) as Hnd.
  { assert (Forall (fun a => a <> "."%char) (segments dirs ++ str "/route")) as Hf.
    { apply Forall_app. split; [apply segments_no_dot; exact Hdots|].
      repeat constructor; discriminate. }
    subst x. apply Forall_drop. exact Hf. }
  destruct (match1_nextPath_route pre dir x (str "." ++ ext) Hpre Hdir Hne Hnd
              ltac:(right; reflexivity)) as (m & Hm & Hg).
  rewrite (extractNextJsPath_group _ m x Hm Hg).
  change (str "/api/" ++ x) with (str "/api" ++ str "/" ++ x). rewrite <- Hx.
  rewrite app_assoc, removeSuffix_app. unfold removeSuffix.
  assert (endsWith (str "/index") (str "/api" ++ segments dirs) = false) as ->;
    [|reflexivity].
  destruct (endsWith (str "/index") (str "/api" ++ segments dirs)) eqn:E; [|reflexivity].
  apply endsWith_spec in E as [r E].
  assert (exists r', segments dirs = r' ++ str "/index") as [r' Hr'].
  { destruct r as [|a [|b [|c [|d r']]]]; try discriminate E.
    injection E as _ _ _ _ E. eauto. }
  rewrite (proj2 (endsWith_spec _ _)) in Hindex by eauto. discriminate.
Qed.

End Agree.

(** ** Lists *)

Section Lists.

Lemma filter_id_length {A} (f : A -> list ascii) (id : list ascii) (l : list A) :
  (id ∉ f <$> l -> filter (fun x => negb (eqs (f x) id) = true) l = l)
  /\ (id ∈ f <$> l ->
      length (filter (fun x => negb (eqs (f x) id) = true) l) < length l).
Proof.
  induction l as [|e l [IH1 IH2]]; simpl.
  - split; [reflexivity | intros H; inversion H].
  - rewrite filter_cons. split.
    + intros H. apply not_elem_of_cons in H as [H1 H2].
      rewrite decide_True by (apply negb_true_iff, eqs_false; congruence).
      rewrite IH1 by exact H2. reflexivity.
    + intros H.
      pose proof (length_filter (fun x => negb (eqs (f x) id) = true) l) as Hl.
      destruct (decide (negb (eqs (f e) id) = true)) as [Hk|Hk]; simpl; [|lia].
      apply elem_of_cons in H as [H|H].
      * apply negb_true_iff, eqs_false in Hk. congruence.
      * apply IH2 in H. lia.
Qed.

Lemma filter_id_spec {A} (f : A -> list ascii) (id : list ascii) (l : list A) x :
  x ∈ filter (fun x => negb (eqs (f x) id) = true) l <-> x ∈ l /\ f x <> id.
Proof.
  rewrite list_elem_of_filter, negb_true_iff, eqs_false. tauto.
Qed.

Lemma find_append {A} (p : A -> bool) l1 l2 :
  find p (l1 ++ l2) = match find p l1 with Some x => Some x | None => find p l2 end.
Proof.
  induction l1 as [|a l1 IH]; simpl; [reflexivity|]. destruct (p a); [reflexivity | exact IH].
Qed.

Lemma alter_lookup {A} (f : A -> A) (l : list A) : forall (i : nat) (x : A),
  l !! i = Some x -> alter f i l = <[i := f x]> l.
Proof.
  induction l as [|a l IH]; intros [|i] x H; try discriminate.
  - injection H as ->. reflexivity.
  - simpl in H. cbn. f_equal. apply IH. exact H.
Qed.

End Lists.

(** ** The stored environments *)

Section StoreOps.
Import EnvironmentManager EnvSpec.
Context {N V : Type}.
Variable clock : nat -> Z.
Variable random : nat -> list ascii.
Implicit Types (w : World N V) (envs : list (Environment N V)).

Lemma ids_mark i envs :
  ids (map (fun env => setIsActive env (eqs (id env) i)) envs) = ids envs.
Proof. unfold ids. rewrite <- list_fmap_compose. reflexivity. Qed.

Lemma find_mark i envs :
  i ∈ ids envs ->
  exists env, find isActive (map (fun env => setIsActive env (eqs (id env) i)) envs)
              = Some (setIsActive env true)
              /\ env ∈ envs /\ id env = i.
Proof.
  unfold ids. induction envs as [|e l IH]; intros H; [inversion H|].
  cbn [map find]. cbn [isActive setIsActive].
  destruct (eqs (id e) i) eqn:E.
  - apply eqs_spec in E. exists e. split; [reflexivity|]. split; [left | exact E].
  - rewrite fmap_cons in H. apply elem_of_cons in H as [H|H].
    + apply eqs_false in E. congruence.
    + destruct (IH H) as (env & Hf & Hin & Hid). exists env.
      split; [exact Hf|]. split; [right; exact Hin | exact Hid].
Qed.

(** When the identifiers of the stored environments are distinct and
    [id] is one of them, [setActiveEnvironment] returns [true], writes
    the list out, and leaves exactly one environment active: the one
    with that identifier, which [getActiveEnvironment] then returns.
    Nothing but the [isActive] flags changes. *)
Theorem setActiveEnvironment_switches i w :
  i ∈ ids (memory w) ->
  NoDup (ids (memory w)) ->
  let result := setActiveEnvironment i w in
  fst result = true
  /\ saved (snd result) = memory (snd result)
  /\ memory (snd result)
     = map (fun env => setIsActive env (eqs (id env) i)) (memory w)
  /\ activeCount (memory (snd result)) = 1
  /\ exists env, fst (getActiveEnvironment (snd result)) = Some (setIsActive env true)
                 /\ env ∈ memory w /\ id env = i.
Proof.
  intros Hin Hnd result. subst result.
  rewrite (setActiveEnvironment_known i w Hin). cbn [fst snd memory saved].
  split; [reflexivity|]. split; [reflexivity|]. split; [reflexivity|]. split.
  - rewrite activeCount_mark by exact Hnd.
    destruct (existsb _ _) eqn:E; [reflexivity|].
    apply existsb_id_false in E. contradiction.
  - unfold getActiveEnvironment, getEnvironments, globalState_get.
    unfold mbind, St_bind, mret, St_ret. cbn [fst memory].
    apply find_mark. exact Hin.
Qed.


Lemma ids_filter i envs :
  ids (filter (fun e => negb (eqs (id e) i) = true) envs)
  = filter (fun j => j <> i) (ids envs).
Proof.
  unfold ids. induction envs as [|e l IH]; [reflexivity|].
  rewrite fmap_cons, !filter_cons.
  destruct (decide (negb (eqs (id e) i) = true)) as [Hk|Hk].
  - rewrite decide_True by (apply negb_true_iff, eqs_false in Hk; exact Hk).
    rewrite fmap_cons, IH. reflexivity.
  - rewrite decide_False; [exact IH|].
    intros Hne. apply Hk, negb_true_iff, eqs_false. exact Hne.
Qed.

Lemma ids_activateFirst envs : ids (activateFirst envs) = ids envs.
Proof. destruct envs; reflexivity. Qed.

(** [deleteEnvironment] with an identifier that no stored environment
    has returns [false] and changes nothing.  Otherwise it returns
    [true] and writes the new list out; the identifiers stored
    afterwards are those stored before without the one deleted, in
    their order, and when at most one environment was active before
    and some environment is left, exactly one is active afterwards. *)
Theorem deleteEnvironment_removes i w :
  (i ∉ ids (memory w) -> deleteEnvironment i w = (false, w))
  /\ (i ∈ ids (memory w) ->
      let result := deleteEnvironment i w in
      fst result = true
      /\ saved (snd result) = memory (snd result)
      /\ ids (memory (snd result)) = filter (fun j => j <> i) (ids (memory w))
      /\ (activeCount (memory w) <= 1 -> memory (snd result) <> [] ->
          activeCount (memory (snd result)) = 1)).
Proof.
  destruct (filter_id_length id i (memory w)) as [Hsame Hless].
  unfold deleteEnvironment, getEnvironments, globalState_get, globalState_update.
  unfold mbind, St_bind, mret, St_ret. cbn [memory saved time draws].
  set (filtered := filter (fun e => negb (eqs (id e) i) = true) (memory w)) in *.
  split.
  - intros H. rewrite Hsame by exact H. rewrite Nat.eqb_refl. reflexivity.
  - intros H. specialize (Hless H).
    rewrite (proj2 (Nat.eqb_neq _ _)) by lia. cbn [fst snd memory saved].
    split; [reflexivity|]. split; [reflexivity|]. split.
    + destruct (negb (existsb isActive filtered) && (0 <? length filtered));
        [rewrite ids_activateFirst|]; apply ids_filter.
    + intros Hone Hne.
      pose proof (activeCount_filter (fun e => negb (eqs (id e) i) = true) (memory w))
        as Hf. fold filtered in Hf.
      destruct (existsb isActive filtered) eqn:E; cbn [negb andb] in *.
      * destruct (activeCount filtered) as [|[|n]] eqn:Ec; [|reflexivity|lia].
        apply activeCount_zero in Ec. congruence.
      * apply activeCount_existsb in E.
        destruct filtered as [|e l]; [contradiction|]. cbn in *.
        destruct (isActive e); simpl in *; lia.
Qed.

(** [createEnvironment] appends the new environment to the stored
    list and writes the list out; the environment has the name and the
    variables given and equal creation and update times.  It is
    active, and is what [getActiveEnvironment] returns, when the list
    was empty; otherwise it is inactive and the active environment is
    the one it was. *)
Theorem createEnvironment_active name variables w :
  let result := createEnvironment clock random name variables w in
  let env := fst result in
  memory (snd result) = memory w ++ [env]
  /\ saved (snd result) = memory (snd result)
  /\ EnvironmentManager.name env = name
  /\ EnvironmentManager.variables env = variables
  /\ createdAt env = updatedAt env
  /\ (memory w = [] ->
      isActive env = true
      /\ fst (getActiveEnvironment (snd result)) = Some env)
  /\ (memory w <> [] ->
      isActive env = false
      /\ fst (getActiveEnvironment (snd result)) = fst (getActiveEnvironment w)).
Proof.
  cbv zeta. rewrite createEnvironment_spec. cbn [fst snd memory saved].
  split; [reflexivity|]. split; [reflexivity|]. split; [reflexivity|].
  split; [reflexivity|]. split; [reflexivity|].
  unfold getActiveEnvironment, getEnvironments, globalState_get.
  unfold mbind, St_bind, mret, St_ret. cbn [fst memory].
  split.
  - intros ->. split; reflexivity.
  - intros Hne. destruct (memory w) as [|e l] eqn:El; [contradiction|].
    split; [reflexivity|]. rewrite find_append. cbn [length Nat.eqb].
    destruct (find isActive (e :: l)); reflexivity.
Qed.

End StoreOps.

(** ** The environments of the files of a folder *)

Section Load.
Import EnvironmentManager EnvSpec LoadSpec.
Variable clock : nat -> Z.
Variable random : nat -> list ascii.
Implicit Types (w : World (list ascii) (gmap (list ascii) (list ascii))).

(** When at most one stored environment is active, at most one is
    active after [createEnvironment], after [setActiveEnvironment]
    (the identifiers being distinct), after [deleteEnvironment], after
    an [updateEnvironment] whose updates have no [isActive], after
    [setVariable], after [deleteVariable] and after
    [loadFromEnvFiles]. *)
Theorem store_keeps_one_active w :
  activeCount (memory w) <= 1 ->
  (forall name variables,
     activeCount (memory (snd (createEnvironment clock random name variables w))) <= 1)
  /\ (forall i, NoDup (ids (memory w)) ->
        activeCount (memory (snd (setActiveEnvironment i w))) <= 1)
  /\ (forall i, activeCount (memory (snd (deleteEnvironment i w))) <= 1)
  /\ (forall i updates, new_isActive updates = None ->
        activeCount (memory (snd (updateEnvironment clock i updates w))) <= 1)
  /\ (forall envId key value,
        activeCount (memory (snd (setVariable clock envId key value w))) <= 1)
  /\ (forall envId key,
        activeCount (memory (snd (deleteVariable clock envId key w))) <= 1)
  /\ (forall workspaceFolders,
        activeCount (memory (snd (loadFromEnvFiles clock workspaceFolders w))) <= 1).
Proof.
  intros H. repeat split.
  - intros name variables. apply createEnvironment_one. exact H.
  - intros i Hnd. apply setActiveEnvironment_one. exact Hnd.
  - intros i. apply deleteEnvironment_one. exact H.
  - intros i updates Hu. rewrite updateEnvironment_count by exact Hu. exact H.
  - intros envId key value. rewrite setVariable_count. exact H.
  - intros envId key. rewrite deleteVariable_count. exact H.
  - intros folders. rewrite loadFromEnvFiles_count. exact H.
Qed.

Lemma createOrUpdateFromFile_memory n vars src w :
  memory (snd (createOrUpdateFromFile clock n vars src w))
  = match list_find (fun e => eqs (name e) (fileTag n) = true) (memory w) with
    | Some (index, e) => <[index := refresh vars (clock (time w)) e]> (memory w)
    | None =>
        memory w ++ [mkEnv (str "file-" ++ src ++ str "-" ++ decimal (clock (time w)))
                       (fileTag n) vars false (clock (S (time w)))
                       (clock (S (S (time w))))]
    end.
Proof.
  unfold createOrUpdateFromFile, getEnvironments, globalState_get, assign,
    globalState_update, Date_now, findIndex.
  unfold mbind, St_bind, mret, St_ret. cbn [memory saved time draws].
  destruct (list_find _ (memory w)) as [[index e]|] eqn:E;
    cbn [fmap option_fmap option_map fst snd memory].
  - apply list_find_Some in E as (Hl & _).
    apply (alter_lookup _ _ _ _ Hl).
  - reflexivity.
Qed.

Lemma fileTag_inj a b : fileTag a = fileTag b -> a = b.
Proof. unfold fileTag. apply app_inv_head. Qed.

Lemma createOrUpdateFromFile_binds n vars src w :
  bound (memory (snd (createOrUpdateFromFile clock n vars src w))) (fileTag n) vars.
Proof.
  rewrite createOrUpdateFromFile_memory.
  destruct (list_find _ (memory w)) as [[index e]|] eqn:E.
  - apply list_find_Some in E as (Hl & Hn & _). apply eqs_spec in Hn.
    exists (refresh vars (clock (time w)) e). split; [|split; [exact Hn | reflexivity]].
    apply list_elem_of_lookup. exists index. apply list_lookup_insert_eq.
    apply lookup_lt_Some in Hl. exact Hl.
  - eexists. split; [apply elem_of_app; right; apply list_elem_of_singleton; reflexivity|].
    split; reflexivity.
Qed.

Lemma createOrUpdateFromFile_keeps n vars src w tag vars' :
  tag <> fileTag n ->
  bound (memory w) tag vars' ->
  bound (memory (snd (createOrUpdateFromFile clock n vars src w))) tag vars'.
Proof.
  intros Hne (env & Hin & Hn & Hv). rewrite createOrUpdateFromFile_memory.
  exists env. split; [|split; assumption].
  destruct (list_find _ (memory w)) as [[index e]|] eqn:E.
  - apply list_find_Some in E as (Hl & He & _). apply eqs_spec in He.
    apply list_elem_of_lookup in Hin as [j Hj].
    apply list_elem_of_lookup. exists j.
    rewrite list_lookup_insert_ne; [exact Hj|].
    intros ->. rewrite Hl in Hj. injection Hj as ->. congruence.
  - apply elem_of_app. left. exact Hin.
Qed.

Lemma createOrUpdateFromFile_shape n vars src w :
  fileTag n ∈ name <$> memory w ->
  shape <$> memory (snd (createOrUpdateFromFile clock n vars src w))
  = shape <$> memory w.
Proof.
  intros Hin. rewrite createOrUpdateFromFile_memory.
  destruct (list_find _ (memory w)) as [[index e]|] eqn:E.
  - apply list_find_Some in E as (Hl & _).
    rewrite list_fmap_insert. apply list_insert_id.
    rewrite list_lookup_fmap, Hl. reflexivity.
  - exfalso. apply list_find_None in E.
    apply list_elem_of_fmap in Hin as (e & He & Hin).
    apply (proj1 (Forall_forall _ _) E) in Hin. apply Hin, eqs_spec. symmetry. exact He.
Qed.

Lemma createOrUpdateFromFile_old n vars src w env :
  env ∈ memory w ->
  exists env', env' ∈ memory (snd (createOrUpdateFromFile clock n vars src w))
               /\ shape env' = shape env.
Proof.
  intros Hin. rewrite createOrUpdateFromFile_memory.
  destruct (list_find _ (memory w)) as [[index e]|] eqn:E.
  - apply list_find_Some in E as (Hl & _).
    apply list_elem_of_lookup in Hin as [j Hj].
    destruct (decide (j = index)) as [->|Hne].
    + rewrite Hl in Hj. injection Hj as ->.
      exists (refresh vars (clock (time w)) env). split; [|reflexivity].
      apply list_elem_of_lookup. exists index. apply list_lookup_insert_eq.
      apply lookup_lt_Some in Hl. exact Hl.
    + exists env. split; [|reflexivity]. apply list_elem_of_lookup. exists j.
      rewrite list_lookup_insert_ne by congruence. exact Hj.
  - exists env. split; [|reflexivity]. apply elem_of_app. left. exact Hin.
Qed.

Lemma loadFiles_cons folder f fs w :
  snd (loadFiles clock folder (f :: fs) w)
  = match folder (str f) with
    | Some content =>
        snd (loadFiles clock folder fs
               (snd (createOrUpdateFromFile clock (getEnvNameFromFile (str f))
                       (parseEnvFile content) (str f) w)))
    | None => snd (loadFiles clock folder fs w)
    end.
Proof.
  unfold loadFiles at 1. cbn [fold_right]. fold (loadFiles clock folder fs).
  destruct (folder (str f)) as [content|]; [|reflexivity].
  unfold mbind, St_bind. destruct (createOrUpdateFromFile _ _ _ _ w). reflexivity.
Qed.

Lemma loadFiles_keeps folder fs : forall w tag vars,
  tag ∉ tagOf <$> fs ->
  bound (memory w) tag vars ->
  bound (memory (snd (loadFiles clock folder fs w))) tag vars.
Proof.
  induction fs as [|f fs IH]; intros w tag vars Hn Hb; [exact Hb|].
  rewrite fmap_cons in Hn. apply not_elem_of_cons in Hn as [Hf Hn].
  rewrite loadFiles_cons. destruct (folder (str f)) as [content|]; [|apply IH; assumption].
  apply IH; [exact Hn|]. apply createOrUpdateFromFile_keeps; assumption.
Qed.

Lemma loadFiles_binds folder fs : forall w f content,
  NoDup (tagOf <$> fs) -> f ∈ fs -> folder (str f) = Some content ->
  bound (memory (snd (loadFiles clock folder fs w))) (tagOf f) (parseEnvFile content).
Proof.
  induction fs as [|f0 fs IH]; intros w f content Hnd Hin Hf; [inversion Hin|].
  rewrite fmap_cons in Hnd. apply NoDup_cons in Hnd as [Hn0 Hnd].
  rewrite loadFiles_cons. apply elem_of_cons in Hin as [->|Hin].
  - rewrite Hf. apply loadFiles_keeps; [exact Hn0|].
    apply createOrUpdateFromFile_binds.
  - destruct (folder (str f0)); apply IH; assumption.
Qed.

Lemma loadFiles_old folder fs : forall w env,
  env ∈ memory w ->
  exists env', env' ∈ memory (snd (loadFiles clock folder fs w)) /\ shape env' = shape env.
Proof.
  induction fs as [|f fs IH]; intros w env Hin; [exists env; auto|].
  rewrite loadFiles_cons. destruct (folder (str f)) as [content|]; [|apply IH; exact Hin].
  destruct (createOrUpdateFromFile_old (getEnvNameFromFile (str f)) (parseEnvFile content)
              (str f) w env Hin) as (e1 & H1 & Hs1).
  destruct (IH _ e1 H1) as (e2 & H2 & Hs2). exists e2. split; [exact H2 | congruence].
Qed.

Lemma loadFiles_shape folder fs : forall w,
  (forall f, f ∈ fs -> is_Some (folder (str f)) -> tagOf f ∈ name <$> memory w) ->
  shape <$> memory (snd (loadFiles clock folder fs w)) = shape <$> memory w.
Proof.
  induction fs as [|f fs IH]; intros w H; [reflexivity|].
  rewrite loadFiles_cons. destruct (folder (str f)) as [content|] eqn:Ef.
  - assert (shape <$> memory (snd (createOrUpdateFromFile clock
              (getEnvNameFromFile (str f)) (parseEnvFile content) (str f) w))
            = shape <$> memory w) as Hs.
    { apply createOrUpdateFromFile_shape. apply (H f); [left | rewrite Ef; eauto]. }
    rewrite IH; [exact Hs|].
    intros g Hg Hsome.
    assert (name <$> memory (snd (createOrUpdateFromFile clock
              (getEnvNameFromFile (str f)) (parseEnvFile content) (str f) w))
            = name <$> memory w) as ->.
    { apply (f_equal (fmap (fun t : list ascii * list ascii * bool * Z => snd (fst (fst t))))) in Hs.
      rewrite <- !list_fmap_compose in Hs. exact Hs. }
    apply H; [right; exact Hg | exact Hsome].
  - apply IH. intros g Hg Hsome. apply H; [right; exact Hg | exact Hsome].
Qed.

Lemma bound_name envs tag vars : bound envs tag vars -> tag ∈ name <$> envs.
Proof.
  intros (env & Hin & Hn & _). apply list_elem_of_fmap. exists env. auto.
Qed.

Lemma tags_NoDup : NoDup (tagOf <$> envFiles).
Proof.
  apply NoDup_ListNoDup. vm_compute.
  repeat (constructor; [simpl; intuition discriminate|]). constructor.
Qed.

(** After the files of a folder are loaded, every one of the six
    environment files that can be read has a stored environment with the
    name kept for it, [[File] Default] for [.env] to [[File] Test] for
    [.env.test], and the variables parsed from its content.  Every
    environment stored before is still stored, with its identifier,
    name, [isActive] flag and creation time, and as many environments
    are active as before. *)
Theorem loadFolder_syncs folder w :
  let w' := snd (loadFolder clock folder w) in
  (forall envFile content,
     envFile ∈ envFiles -> folder (str envFile) = Some content ->
     bound (memory w') (tagOf envFile) (parseEnvFile content))
  /\ (forall env, env ∈ memory w ->
        exists env', env' ∈ memory w' /\ shape env' = shape env)
  /\ activeCount (memory w') = activeCount (memory w)
  /\ tagOf <$> envFiles
     = str <$> ["[File] Default"; "[File] Local"; "[File] Development";
                "[File] Staging"; "[File] Production"; "[File] Test"]%string.
Proof.
  cbv zeta. change (loadFolder clock folder) with (loadFiles clock folder envFiles).
  split; [|split; [|split]].
  - intros f content Hin Hf. apply loadFiles_binds; [apply tags_NoDup | exact Hin | exact Hf].
  - intros env Hin. apply loadFiles_old. exact Hin.
  - apply (loadFolder_count clock folder w).
  - reflexivity.
Qed.

(** Loading the same folder a second time creates no environment:
    the stored environments have the identifiers, names, [isActive]
    flags and creation times they had after the first load, in the
    same order, and every file that can be read still has its
    environment with the variables parsed from its content. *)
Theorem loadFolder_again folder w :
  let w1 := snd (loadFolder clock folder w) in
  let w2 := snd (loadFolder clock folder w1) in
  shape <$> memory w2 = shape <$> memory w1
  /\ length (memory w2) = length (memory w1)
  /\ (forall envFile content,
        envFile ∈ envFiles -> folder (str envFile) = Some content ->
        bound (memory w2) (tagOf envFile) (parseEnvFile content)).
Proof.
  cbv zeta. change (loadFolder clock folder) with (loadFiles clock folder envFiles).
  assert (shape <$> memory (snd (loadFiles clock folder envFiles (snd (loadFiles clock folder envFiles w))))
          = shape <$> memory (snd (loadFiles clock folder envFiles w))) as Hs.
  { apply loadFiles_shape. intros f Hin [content Hf].
    apply (bound_name _ _ (parseEnvFile content)).
    apply loadFiles_binds; [apply tags_NoDup | exact Hin | exact Hf]. }
  split; [exact Hs|]. split.
  - apply (f_equal length) in Hs. rewrite !length_fmap in Hs. exact Hs.
  - intros f content Hin Hf.
    apply loadFiles_binds; [apply tags_NoDup | exact Hin | exact Hf].
Qed.

End Load.

(** ** The variables of an environment *)

Section Vars.
Import EnvironmentManager EnvSpec LoadSpec.
Variable clock : nat -> Z.
Implicit Types (w : World (list ascii) (gmap (list ascii) (list ascii)))
  (envs : list (Environment (list ascii) (gmap (list ascii) (list ascii)))).

Lemma insert_onVariables envId f now envs index env :
  NoDup (ids envs) ->
  envs !! index = Some env -> id env = envId ->
  <[index := setVars env (f (variables env)) now]> envs
  = map (onVariables envId f now) envs.
Proof.
  intros Hnd Hl Hid. apply list_eq. intros j.
  change (map (onVariables envId f now) envs) with (onVariables envId f now <$> envs).
  rewrite list_lookup_fmap.
  destruct (decide (j = index)) as [->|Hne].
  - rewrite list_lookup_insert_eq by (apply lookup_lt_Some in Hl; exact Hl).
    rewrite Hl. cbn. unfold onVariables. rewrite Hid, eqs_refl. reflexivity.
  - rewrite list_lookup_insert_ne by congruence.
    destruct (envs !! j) as [e|] eqn:Ej; [|reflexivity]. cbn. unfold onVariables.
    destruct (eqs (id e) envId) eqn:E; [|reflexivity].
    exfalso. apply eqs_spec in E. apply Hne.
    apply (NoDup_lookup (ids envs) j index envId Hnd); unfold ids;
      rewrite list_lookup_fmap; [rewrite Ej | rewrite Hl]; cbn; congruence.
Qed.

Lemma list_find_id envId envs :
  envId ∈ ids envs ->
  exists index env, list_find (fun e => eqs (id e) envId = true) envs = Some (index, env)
                    /\ envs !! index = Some env /\ id env = envId.
Proof.
  intros H. apply list_elem_of_fmap in H as (e & He & Hin).
  destruct (list_find_elem_of (fun e => eqs (id e) envId = true) envs e Hin) as [[i x] Hx].
  { apply eqs_spec. symmetry. exact He. }
  exists i, x. split; [exact Hx|].
  apply list_find_Some in Hx as (Hl & Hp & _). apply eqs_spec in Hp. auto.
Qed.

Lemma list_find_no_id envId envs :
  envId ∉ ids envs -> list_find (fun e => eqs (id e) envId = true) envs = None.
Proof.
  intros H. apply list_find_None, Forall_forall. intros e Hin He. apply H.
  apply eqs_spec in He. apply list_elem_of_fmap. exists e. auto.
Qed.

Lemma setVariable_memory envId key value w :
  NoDup (ids (memory w)) -> envId ∈ ids (memory w) ->
  setVariable clock envId key value w
  = (true,
     let envs := map (onVariables envId (fun vars => setProperty vars key value)
                        (clock (time w))) (memory w) in
     mkWorld envs envs (S (time w)) (draws w)).
Proof.
  intros Hnd Hin. destruct (list_find_id envId (memory w) Hin) as (index & env & Hf & Hl & Hid).
  unfold setVariable, getEnvironments, globalState_get, assign, globalState_update,
    Date_now, findIndex.
  unfold mbind, St_bind, mret, St_ret. cbn [memory saved time draws].
  rewrite Hf. cbn [fmap option_fmap option_map fst]. cbv zeta.
  rewrite (alter_lookup _ _ _ _ Hl).
  rewrite (insert_onVariables envId (fun vars => setProperty vars key value) (clock (time w))
             (memory w) index env Hnd Hl Hid).
  reflexivity.
Qed.

Lemma find_onVariables envId f now envs :
  find isActive (map (onVariables envId f now) envs)
  = onVariables envId f now <$> find isActive envs.
Proof.
  induction envs as [|e l IH]; [reflexivity|]. cbn [map find].
  assert (isActive (onVariables envId f now e) = isActive e) as ->.
  { unfold onVariables. destruct (eqs (id e) envId); reflexivity. }
  destruct (isActive e); [reflexivity | exact IH].
Qed.

Lemma interpolate_one w overrides inner original match_ value :
  match_at placeholderRe 0 original = Some match_ ->
  lastIndex match_ <> 0 -> after match_ = [] ->
  orElse (grp match_ 1) (orElse (grp match_ 2) []) = inner ->
  (overrides ∪ default ∅ (variables <$> find isActive (memory w))) !! trim inner
  = Some value ->
  interpolate w original overrides = value.
Proof.
  intros Hm Hl Ha Hg Hv. unfold interpolate.
  set (vars := overrides ∪ default ∅ (variables <$> find isActive (memory w))) in *.
  set (f := fun m : Match =>
              default (whole m)
                (getProperty vars (trim (orElse (grp m 1) (orElse (grp m 2) []))))).
  assert (forall d m, f (shiftm d m) = f m) as Hf by reflexivity.
  rewrite (replaceG_hit placeholderRe eq_refl f Hf _ _ Hm Hl).
  subst f. cbv beta. unfold getProperty. rewrite Hg, Hv, Ha. cbn [default].
  rewrite replaceG_nil by reflexivity. apply app_nil_r.
Qed.

(** When the identifiers of the stored environments are distinct,
    after [setVariable] sets [key] to [value] in the active
    environment, [interpolate] replaces a placeholder [{{inner}}] or
    [${inner}] whose trimmed inner text is [key] by [value], unless
    the additional variables of the call have [key] themselves.  The
    key is any string but [__proto__], which an assignment does not
    make a property of the object. *)
Theorem setVariable_then_interpolate envId key value w env overrides inner :
  NoDup (ids (memory w)) ->
  find isActive (memory w) = Some env -> id env = envId ->
  inner <> [] -> "}"%char ∉ inner -> trim inner = key ->
  key <> str "__proto__" ->
  overrides !! key = None ->
  let result := setVariable clock envId key value w in
  fst result = true
  /\ interpolate (snd result) (curly inner) overrides = value
  /\ interpolate (snd result) (dollar inner) overrides = value.
Proof.
  intros Hnd Hact Hid Hne Hclose Htrim Hproto Hov. cbv zeta.
  assert (envId ∈ ids (memory w)) as Hin.
  { apply find_some in Hact as [Hin _]. apply list_elem_of_In in Hin.
    apply list_elem_of_fmap. exists env. auto. }
  rewrite setVariable_memory by assumption. cbn [fst snd]. split; [reflexivity|].
  assert ((overrides
             ∪ default ∅ (variables <$>
                 find isActive
                   (memory
                      (let envs := map (onVariables envId (fun vars => setProperty vars key value)
                                          (clock (time w))) (memory w) in
                       mkWorld envs envs (S (time w)) (draws w))))) !! trim inner
            = Some value) as Hv.
  { cbn [memory]. rewrite find_onVariables, Hact. cbn.
    unfold onVariables. rewrite Hid, eqs_refl. cbn [variables setVars].
    rewrite (setProperty_plain _ _ _ Hproto).
    rewrite Htrim, lookup_union, Hov, lookup_insert_eq. reflexivity. }
  split.
  - pose proof (match_at_curly inner [] Hne Hclose) as Hm. rewrite app_nil_r in Hm.
    apply (interpolate_one _ _ inner _ _ _ Hm); [| reflexivity | | exact Hv].
    + cbn [lastIndex]. unfold curly. rewrite !length_app. simpl. lia.
    + unfold grp. cbn. destruct inner; [contradiction | reflexivity].
  - pose proof (match_at_dollar inner [] Hne Hclose) as Hm. rewrite app_nil_r in Hm.
    apply (interpolate_one _ _ inner _ _ _ Hm); [| reflexivity | | exact Hv].
    + cbn [lastIndex]. unfold dollar. rewrite !length_app. simpl. lia.
    + unfold grp. cbn. destruct inner; [contradiction | reflexivity].
Qed.

Lemma deleteVariable_memory envId key w env :
  NoDup (ids (memory w)) -> env ∈ memory w -> id env = envId ->
  is_Some (variables env !! key) ->
  deleteVariable clock envId key w
  = (true,
     let envs := map (onVariables envId (delete key) (clock (time w))) (memory w) in
     mkWorld envs envs (S (time w)) (draws w)).
Proof.
  intros Hnd Hin Hid Hk.
  assert (envId ∈ ids (memory w)) as Hi.
  { apply list_elem_of_fmap. exists env. auto. }
  destruct (list_find_id envId (memory w) Hi) as (index & env' & Hf & Hl & Hid').
  assert (env' = env) as ->.
  { apply list_elem_of_lookup in Hin as [j Hj].
    assert (j = index) as ->; [|congruence].
    apply (NoDup_lookup (ids (memory w)) j index envId Hnd); unfold ids;
      rewrite list_lookup_fmap; [rewrite Hj | rewrite Hl]; cbn; congruence. }
  unfold deleteVariable, getEnvironments, globalState_get, assign, globalState_update,
    Date_now.
  unfold mbind, St_bind, mret, St_ret. cbn [memory saved time draws].
  rewrite Hf. rewrite (hasProperty_own _ _ Hk). cbn [negb]. cbv zeta.
  rewrite (alter_lookup _ _ _ _ Hl).
  rewrite (insert_onVariables envId (delete key) (clock (time w))
             (memory w) index env Hnd Hl Hid).
  reflexivity.
Qed.

Lemma ids_onVariables envId f now envs :
  ids (map (onVariables envId f now) envs) = ids envs.
Proof.
  unfold ids. induction envs as [|e l IH]; [reflexivity|]. cbn [map].
  rewrite !fmap_cons, IH. f_equal. unfold onVariables.
  destruct (eqs (id e) envId); reflexivity.
Qed.

(** [deleteVariable] on an identifier that no stored environment has
    returns [false] and changes nothing.  When the identifiers are
    distinct and [envId] is one of them, deleting [key] after
    [setVariable] has set it returns [true] and leaves every
    environment with the variables it had before the two calls, less
    [key] in the environment [envId], and with its identifier, name,
    [isActive] flag and creation time.  The key is any string but
    [__proto__], which an assignment does not make a property of the
    object, and each environment has a variables object of its own. *)
Theorem deleteVariable_after_setVariable envId key value w :
  (envId ∉ ids (memory w) -> deleteVariable clock envId key w = (false, w))
  /\ (NoDup (ids (memory w)) -> envId ∈ ids (memory w) -> key <> str "__proto__" ->
      let w1 := snd (setVariable clock envId key value w) in
      let result := deleteVariable clock envId key w1 in
      fst result = true
      /\ variables <$> memory (snd result)
         = (fun e => if eqs (id e) envId then delete key (variables e) else variables e)
           <$> memory w
      /\ shape <$> memory (snd result) = shape <$> memory w).
Proof.
  split.
  - intros H. unfold deleteVariable, getEnvironments, globalState_get.
    unfold mbind, St_bind, mret, St_ret. cbn [memory saved time draws].
    rewrite (list_find_no_id envId (memory w) H). reflexivity.
  - intros Hnd Hin Hproto. cbv zeta.
    destruct (list_find_id envId (memory w) Hin) as (index & env & Hf & Hl & Hid).
    rewrite setVariable_memory by assumption. cbn [snd].
    set (set1 := onVariables envId (fun vars => setProperty vars key value) (clock (time w))).
    rewrite (deleteVariable_memory envId key _ (set1 env)).
    + cbn [fst snd memory time]. split; [reflexivity|].
      rewrite !map_map. split.
      * change (map ?f ?l) with (f <$> l).
        apply list_fmap_ext. intros _ e _. cbn. subst set1. unfold onVariables.
        destruct (eqs (id e) envId) eqn:E; cbn [id setVars variables]; rewrite E;
          [|reflexivity].
        cbn [variables]. rewrite (setProperty_plain _ _ _ Hproto). apply delete_insert_eq.
      * change (map ?f ?l) with (f <$> l).
        apply list_fmap_ext. intros _ e _. cbn. subst set1. unfold onVariables.
        destruct (eqs (id e) envId) eqn:E; cbn [id setVars]; rewrite ?E; reflexivity.
    + cbn [memory]. subst set1. rewrite ids_onVariables. exact Hnd.
    + cbn [memory]. apply list_elem_of_In, in_map, list_elem_of_In.
      apply list_elem_of_lookup. eauto.
    + subst set1. unfold onVariables. destruct (eqs (id env) envId); exact Hid.
    + subst set1. unfold onVariables. rewrite Hid, eqs_refl. cbn [variables setVars].
      rewrite (setProperty_plain _ _ _ Hproto), lookup_insert_eq. eauto.
Qed.

End Vars.

(** ** The content of an environment file *)

Section Trim.

Lemma trimStart_suffix s : exists p, s = p ++ trimStart s.
Proof.
  induction s as [|a s [p IH]]; [exists []; reflexivity|]. simpl.
  destruct (isWhite a); [exists (a :: p); simpl; congruence | exists []; reflexivity].
Qed.

Lemma trimStart_head s a : head s = Some a -> isWhite a = false -> trimStart s = s.
Proof. destruct s as [|b s]; intros [= ->] H; simpl. rewrite H. reflexivity. Qed.

Lemma trimStart_nonwhite s a : head (trimStart s) = Some a -> isWhite a = false.
Proof.
  induction s as [|b s IH]; simpl; [discriminate|].
  destruct (isWhite b) eqn:E; [exact IH|]. intros [= <-]. exact E.
Qed.

Lemma trimStart_idem s : trimStart (trimStart s) = trimStart s.
Proof.
  destruct (trimStart s) as [|a t] eqn:E; [reflexivity|].
  apply (trimStart_head _ a); [reflexivity|]. apply (trimStart_nonwhite s). rewrite E. reflexivity.
Qed.

Lemma trimStart_snoc l a : isWhite a = false -> exists l', trimStart (l ++ [a]) = l' ++ [a].
Proof.
  intros H. induction l as [|b l [l' IH]]; simpl.
  - rewrite H. exists []. reflexivity.
  - destruct (isWhite b); [eauto|]. exists (b :: l). reflexivity.
Qed.

Lemma trimEnd_cons a s : isWhite a = false -> exists s', trimEnd (a :: s) = a :: s'.
Proof.
  intros H. unfold trimEnd. simpl. destruct (trimStart_snoc (rev s) a H) as [l' ->].
  rewrite rev_app_distr. simpl. eauto.
Qed.

Lemma trimEnd_prefix s : exists q, s = trimEnd s ++ q.
Proof.
  unfold trimEnd. destruct (trimStart_suffix (rev s)) as [p Hp].
  exists (rev p). apply (f_equal (@rev ascii)) in Hp.
  rewrite rev_involutive, rev_app_distr in Hp. exact Hp.
Qed.

Lemma trim_infix s : exists p q, s = p ++ trim s ++ q.
Proof.
  unfold trim. destruct (trimStart_suffix s) as [p Hp].
  destruct (trimEnd_prefix (trimStart s)) as [q Hq].
  exists p, q. rewrite <- Hq. exact Hp.
Qed.

Lemma trim_Forall (P : ascii -> Prop) s : Forall P s -> Forall P (trim s).
Proof.
  intros H. destruct (trim_infix s) as (p & q & E). rewrite E in H.
  apply Forall_app in H as [_ H]. apply Forall_app in H as [H _]. exact H.
Qed.

Lemma trim_not_elem a s : a ∉ s -> a ∉ trim s.
Proof.
  intros H Hin. apply H. destruct (trim_infix s) as (p & q & ->).
  apply elem_of_app. right. apply elem_of_app. left. exact Hin.
Qed.

Lemma trim_cons a s : isWhite a = false -> exists s', trim (a :: s) = a :: s'.
Proof.
  intros H. unfold trim. rewrite (trimStart_head (a :: s) a eq_refl H).
  apply trimEnd_cons. exact H.
Qed.

Lemma trim_head s a : head (trim s) = Some a -> isWhite a = false.
Proof.
  unfold trim. destruct (trimStart s) as [|b t] eqn:E; [discriminate|].
  assert (isWhite b = false) as Hb
    by (apply (trimStart_nonwhite s); rewrite E; reflexivity).
  destruct (trimEnd_cons b t Hb) as [s' ->]. intros [= <-]. exact Hb.
Qed.

Lemma trim_idem s : trim (trim s) = trim s.
Proof.
  assert (trimStart (trim s) = trim s) as H.
  { destruct (trim s) as [|a t] eqn:E; [reflexivity|].
    apply (trimStart_head _ a); [reflexivity|].
    apply (trim_head s). rewrite E. reflexivity. }
  unfold trim at 1. rewrite H.
  unfold trim, trimEnd. rewrite rev_involutive, trimStart_idem. reflexivity.
Qed.

End Trim.

Section EnvFile.
Import EnvironmentManager EnvSpec LoadSpec.

Lemma parseLine_cases line :
  (forall vars, parseLine vars line = vars)
  \/ exists k v,
       trim line = k ++ str "=" ++ v /\ k <> [] /\ ("="%char ∉ k)
       /\ Forall (fun a => a <> LF /\ a <> CR) v
       /\ startsWith (str "#") (trim line) = false
       /\ forall vars, parseLine vars line = setProperty vars (trim k) (unquote (trim v)).
Proof.
  unfold parseLine.
  destruct (negb (truthy (Some (trim line))) || startsWith (str "#") (trim line)) eqn:E;
    [left; reflexivity|].
  apply orb_false_elim in E as [_ Hhash].
  destruct (match1 envLineRe (trim line)) as [m|] eqn:Em; [|left; reflexivity].
  right. pose proof Em as Hinv.
  apply match1_envLine_inv in Hinv as (k & v & Ht & Hk & Hne & Hv).
  exists k, v. repeat split; try assumption.
  intros vars. rewrite Ht in Em. rewrite match1_envLine_hit in Em by assumption.
  injection Em as <-.
  unfold grp. cbn [arr lookup list_lookup mjoin option_join]. simpl mjoin.
  rewrite !orElse_some. reflexivity.
Qed.

Lemma split_lines sep s : Forall (Forall (fun a => a <> sep)) (split sep s).
Proof.
  induction s as [|a s IH]; simpl; [repeat constructor|].
  destruct (eqc a sep) eqn:E; [constructor; [constructor | exact IH]|].
  apply eqc_false in E.
  destruct (split sep s) as [|cur rest]; [repeat constructor; exact E|].
  apply Forall_cons in IH as [Hc Hr]. constructor; [constructor; assumption | exact Hr].
Qed.

Lemma slice1m1_Forall (P : ascii -> Prop) s : Forall P s -> Forall P (slice1m1 s).
Proof. intros H. unfold slice1m1, slice1. apply Forall_take, Forall_drop, H. Qed.

Lemma parseLine_no_proto (line : list ascii) (vars : gmap (list ascii) (list ascii)) :
  vars !! str "__proto__" = None -> parseLine vars line !! str "__proto__" = None.
Proof.
  intros H. destruct (parseLine_cases line) as [->|(k & v & _ & _ & _ & _ & _ & ->)];
    [exact H|].
  destruct (decide (trim k = str "__proto__")) as [->|Hne].
  - rewrite setProperty_proto by exact H. exact H.
  - rewrite setProperty_plain by exact Hne. rewrite lookup_insert_ne by exact Hne. exact H.
Qed.

Lemma fold_parseLine_no_proto (lines : list (list ascii)) :
  forall vars : gmap (list ascii) (list ascii),
  vars !! str "__proto__" = None ->
  fold_left parseLine lines vars !! str "__proto__" = None.
Proof.
  induction lines as [|line lines IH]; intros vars H; [exact H|].
  cbn [fold_left]. apply IH, parseLine_no_proto, H.
Qed.

(** Every key that [parseEnvFile] reads from a file is non-empty, has
    no white space at either end, has no [=] and no line feed, and
    does not start with [#]; every value has neither a line feed nor
    a carriage return.  No key is [__proto__]. *)
Theorem parseEnvFile_keys content key value :
  parseEnvFile content !! key = Some value ->
  key <> [] /\ trim key = key /\ ("="%char ∉ key)
  /\ startsWith (str "#") key = false
  /\ Forall (fun a => a <> LF) key
  /\ Forall (fun a => a <> LF /\ a <> CR) value
  /\ key <> str "__proto__".
Proof.
  unfold parseEnvFile.
  set (good := fun (key value : list ascii) =>
    key <> [] /\ trim key = key /\ ("="%char ∉ key)
    /\ startsWith (str "#") key = false
    /\ Forall (fun a => a <> LF) key
    /\ Forall (fun a => a <> LF /\ a <> CR) value
    /\ key <> str "__proto__").
  assert (forall lines (vars : gmap (list ascii) (list ascii)),
             (forall k v, vars !! k = Some v -> good k v) ->
             Forall (Forall (fun a => a <> LF)) lines ->
             forall k v, fold_left parseLine lines vars !! k = Some v -> good k v) as H.
  { induction lines as [|line lines IH]; intros vars Hvars Hlines; [exact Hvars|].
    cbn [fold_left]. apply Forall_cons in Hlines as [Hline Hlines].
    apply IH; [|exact Hlines].
    destruct (parseLine_cases line) as [->|(k0 & v0 & Ht & Hk & Hne & Hv & Hhash & ->)];
      [exact Hvars|].
    destruct (decide (trim k0 = str "__proto__")) as [Eproto|Hproto].
    { rewrite Eproto, setProperty_proto; [exact Hvars|].
      destruct (vars !! str "__proto__") as [x|] eqn:Ex; [|reflexivity].
      apply Hvars in Ex. destruct Ex as (_ & _ & _ & _ & _ & _ & Ex). contradiction. }
    rewrite setProperty_plain by exact Hproto.
    intros k v Hl. apply lookup_insert_Some in Hl as [[<- <-]|[_ Hl]]; [|apply Hvars, Hl].
    destruct k0 as [|a k0]; [contradiction|].
    assert (isWhite a = false) as Ha by (apply (trim_head line); rewrite Ht; reflexivity).
    destruct (trim_cons a k0 Ha) as [k' Hk'].
    assert (Forall (fun a => a <> LF) (a :: k0)) as Hkk.
    { assert (Forall (fun a => a <> LF) (trim line)) as Hl by (apply trim_Forall, Hline).
      rewrite Ht in Hl. apply Forall_app in Hl as [Hl _]. exact Hl. }
    repeat split.
    - rewrite Hk'. discriminate.
    - apply trim_idem.
    - apply trim_not_elem. exact Hne.
    - rewrite Hk'. rewrite Ht in Hhash. exact Hhash.
    - apply trim_Forall. exact Hkk.
    - unfold unquote. destruct (_ || _); [apply slice1m1_Forall|]; apply trim_Forall, Hv.
    - exact Hproto. }
  intros Hl. apply (H _ ∅ (fun k v Hk => ltac:(rewrite lookup_empty in Hk; discriminate))
                      (split_lines EndpointDiscovery.newline content) _ _ Hl).
Qed.
End EnvFile.

Section EnvFileUnion.
Import EnvironmentManager EnvSpec LoadSpec.

Lemma split_app sep s1 s2 :
  split sep (s1 ++ sep :: s2) = split sep s1 ++ split sep s2.
Proof.
  induction s1 as [|a s1 IH]; simpl.
  - unfold eqc. rewrite Ascii.eqb_refl. reflexivity.
  - destruct (eqc a sep); [rewrite IH; reflexivity|].
    rewrite IH. destruct (split_cons sep s1) as (cur & rest & ->). reflexivity.
Qed.

Lemma parseLine_union (vars : gmap (list ascii) (list ascii)) (line : list ascii) :
  vars !! str "__proto__" = None -> parseLine vars line = parseLine ∅ line ∪ vars.
Proof.
  intros Hv.
  destruct (parseLine_cases line) as [H|(k & v & _ & _ & _ & _ & _ & H)]; rewrite !H.
  - rewrite (left_id_L ∅ (∪)). reflexivity.
  - destruct (decide (trim k = str "__proto__")) as [->|Hne].
    + rewrite !setProperty_proto by (exact Hv || apply lookup_empty).
      rewrite (left_id_L ∅ (∪)). reflexivity.
    + rewrite !setProperty_plain by exact Hne.
      rewrite insert_union_singleton_l, (insert_union_singleton_l ∅), (right_id_L ∅ (∪)).
      reflexivity.
Qed.

Lemma fold_parseLine_union (lines : list (list ascii)) :
  forall vars : gmap (list ascii) (list ascii),
  vars !! str "__proto__" = None ->
  fold_left parseLine lines vars = fold_left parseLine lines ∅ ∪ vars.
Proof.
  induction lines as [|line lines IH]; intros vars Hv; cbn [fold_left].
  - rewrite (left_id_L ∅ (∪)). reflexivity.
  - rewrite IH by (apply parseLine_no_proto, Hv).
    rewrite (IH (parseLine ∅ line)) by (apply parseLine_no_proto, lookup_empty).
    rewrite (parseLine_union vars line Hv).
    rewrite (assoc_L (∪)). reflexivity.
Qed.

(** Parsing two contents put one after the other, with a newline
    between them, gives the variables of both, the value of the
    second content for a key that both define: a later line
    overrides an earlier one. *)
Theorem parseEnvFile_concat first second :
  parseEnvFile (first ++ [EndpointDiscovery.newline] ++ second)
  = parseEnvFile second ∪ parseEnvFile first.
Proof.
  unfold parseEnvFile. cbn [app]. rewrite split_app, fold_left_app.
  apply fold_parseLine_union, fold_parseLine_no_proto, lookup_empty.
Qed.

Lemma opens_brace s : opens s -> "{"%char ∈ s /\ "}"%char ∈ s.
Proof.
  intros (inner & rest & _ & _ & [-> | ->]); unfold curly, dollar;
    split; apply list_elem_of_In; rewrite ?in_app_iff; simpl; tauto.
Qed.

(** [interpolate] returns a text that has no opening brace, or no
    closing brace, as it is, whatever the stored environments and the
    additional variables. *)
Theorem interpolate_without_braces w text overrides :
  "{"%char ∉ text \/ "}"%char ∉ text ->
  interpolate w text overrides = text.
Proof.
  intros H. unfold interpolate.
  set (vars := overrides ∪ default ∅ (variables <$> find isActive (memory w))).
  set (f := fun m : Match =>
              default (whole m)
                (getProperty vars (trim (orElse (grp m 1) (orElse (grp m 2) []))))).
  assert (forall d m, f (shiftm d m) = f m) as Hf by reflexivity.
  induction text as [|a text IH].
  - apply replaceG_nil. reflexivity.
  - rewrite (replaceG_skip placeholderRe eq_refl f Hf).
    + f_equal. apply IH. destruct H as [H|H]; [left | right];
        intros Hin; apply H; right; exact Hin.
    + apply match_at_placeholder_none. intros Ho. apply opens_brace in Ho as [H1 H2].
      destruct H; contradiction.
Qed.

End EnvFileUnion.

(** ** The saved requests *)

Section Requests.
Import RequestHistory HistorySpec.
Context {V E : Type}.
Variable clock : nat -> Z.
Variable random : nat -> list ascii.
Implicit Types (s : Store V E) (request : RequestInput V).

Lemma sameRequest_spec request (r : SavedRequest V) :
  sameRequest request r = true <-> methodUrl r = (in_method request, in_url request).
Proof.
  unfold sameRequest, methodUrl. rewrite andb_true_iff, !eqs_spec.
  split; [intros [-> ->]; reflexivity | intros [= -> ->]; auto].
Qed.

Lemma saveRequest_found request s index existing :
  list_find (fun r => sameRequest request r = true) (REQUESTS s) = Some (index, existing) ->
  let updated :=
    mkRequest (r_id existing) (in_method request) (in_url request)
              (r_createdAt existing) (clock (now_calls s))
              (in_others request ∪ r_others existing) in
  saveRequest clock random request s
  = (updated, mkStore (<[index := updated]> (REQUESTS s)) (COLLECTIONS s) (HISTORY s)
                      (S (now_calls s)) (random_calls s)).
Proof.
  intros H. unfold saveRequest, getSavedRequests, now, updateRequests.
  unfold mbind, Op_bind, mret, Op_ret. cbn [REQUESTS COLLECTIONS HISTORY now_calls random_calls].
  rewrite H. reflexivity.
Qed.

Lemma saveRequest_new request s :
  list_find (fun r => sameRequest request r = true) (REQUESTS s) = None ->
  let newRequest :=
    mkRequest (EnvironmentManager.decimal (clock (S (now_calls s))) ++ str "-"
               ++ random (random_calls s))
              (in_method request) (in_url request)
              (clock (now_calls s)) (clock (now_calls s)) (in_others request) in
  saveRequest clock random request s
  = (newRequest, mkStore (REQUESTS s ++ [newRequest]) (COLLECTIONS s) (HISTORY s)
                         (S (S (now_calls s))) (S (random_calls s))).
Proof.
  intros H. unfold saveRequest, getSavedRequests, generateId, now, draw, updateRequests.
  unfold mbind, Op_bind, mret, Op_ret. cbn [REQUESTS COLLECTIONS HISTORY now_calls random_calls].
  rewrite H. reflexivity.
Qed.

(** [saveRequest] returns a request that is stored afterwards, with
    the method, the URL and the other properties of the request given.
    When the stored requests have distinct pairs of method and URL,
    they still have.  When a stored request has the method and URL
    given, the number of stored requests is unchanged and the result
    keeps the identifier and the creation time of a stored request of
    that method and URL; otherwise the result is appended to the
    stored requests, created and updated at the same time. *)
Theorem saveRequest_upserts request s :
  let result := saveRequest clock random request s in
  let saved := fst result in
  saved ∈ REQUESTS (snd result)
  /\ methodUrl saved = (in_method request, in_url request)
  /\ in_others request ⊆ r_others saved
  /\ (NoDup (methodUrl <$> REQUESTS s) -> NoDup (methodUrl <$> REQUESTS (snd result)))
  /\ (forall existing,
        existing ∈ REQUESTS s -> methodUrl existing = methodUrl saved ->
        length (REQUESTS (snd result)) = length (REQUESTS s)
        /\ exists first, first ∈ REQUESTS s /\ methodUrl first = methodUrl saved
                         /\ r_id saved = r_id first
                         /\ r_createdAt saved = r_createdAt first)
  /\ ((forall existing, existing ∈ REQUESTS s -> methodUrl existing <> methodUrl saved) ->
      REQUESTS (snd result) = REQUESTS s ++ [saved]
      /\ r_createdAt saved = r_updatedAt saved).
Proof.
  cbv zeta.
  destruct (list_find (fun r => sameRequest request r = true) (REQUESTS s))
    as [[index existing]|] eqn:Ef.
  - rewrite (saveRequest_found request s index existing Ef). cbn [fst snd REQUESTS].
    pose proof Ef as Hf. apply list_find_Some in Hf as (Hl & Hsame & _).
    apply sameRequest_spec in Hsame.
    pose proof (lookup_lt_Some _ _ _ Hl) as Hlt.
    split; [|split; [|split; [|split; [|split]]]].
    + apply list_elem_of_lookup. exists index. apply list_lookup_insert_eq. exact Hlt.
    + reflexivity.
    + cbn [r_others]. apply map_union_subseteq_l.
    + intros Hnd. rewrite list_fmap_insert. rewrite list_insert_id; [exact Hnd|].
      rewrite list_lookup_fmap, Hl. cbn. f_equal. exact Hsame.
    + intros _ _ _. split; [apply length_insert|].
      exists existing. split; [apply list_elem_of_lookup; eauto|].
      split; [exact Hsame|]. split; reflexivity.
    + intros Hno. exfalso. apply (Hno existing); [apply list_elem_of_lookup; eauto|].
      exact Hsame.
  - rewrite (saveRequest_new request s Ef). cbn [fst snd REQUESTS].
    apply list_find_None in Ef.
    assert (forall r, r ∈ REQUESTS s -> methodUrl r <> (in_method request, in_url request))
      as Hno.
    { intros r Hr Hm. apply (proj1 (Forall_forall _ _) Ef) in Hr.
      apply Hr, sameRequest_spec, Hm. }
    split; [|split; [|split; [|split; [|split]]]].
    + apply elem_of_app. right. apply list_elem_of_singleton. reflexivity.
    + reflexivity.
    + reflexivity.
    + intros Hnd. rewrite fmap_app. apply NoDup_app. split; [exact Hnd|]. split.
      * intros k Hk Hk'. apply list_elem_of_singleton in Hk'. subst k.
        apply list_elem_of_fmap in Hk as (r & Hr & Hin). apply (Hno r Hin). symmetry. exact Hr.
      * apply NoDup_singleton.
    + intros existing Hin Hm. destruct (Hno existing Hin Hm).
    + intros _. split; reflexivity.
Qed.

Lemma saveRequest_refind request request' s :
  in_method request' = in_method request -> in_url request' = in_url request ->
  let first := saveRequest clock random request s in
  exists index,
    list_find (fun r => sameRequest request' r = true) (REQUESTS (snd first))
    = Some (index, fst first).
Proof.
  intros Hm Hu. cbv zeta.
  assert (forall r : SavedRequest V, sameRequest request' r = sameRequest request r) as Hext.
  { intros r. unfold sameRequest. rewrite Hm, Hu. reflexivity. }
  destruct (list_find (fun r => sameRequest request r = true) (REQUESTS s))
    as [[index existing]|] eqn:Ef.
  - rewrite (saveRequest_found request s index existing Ef). cbn [fst snd REQUESTS].
    apply list_find_Some in Ef as (Hl & Hsame & Hfirst).
    pose proof (lookup_lt_Some _ _ _ Hl) as Hlt.
    exists index. apply list_find_Some. split; [|split].
    + apply list_lookup_insert_eq. exact Hlt.
    + rewrite Hext. apply sameRequest_spec. reflexivity.
    + intros j y Hj Hji. rewrite list_lookup_insert_ne in Hj by lia.
      rewrite Hext. apply (Hfirst j y Hj Hji).
  - rewrite (saveRequest_new request s Ef). cbn [fst snd REQUESTS].
    apply list_find_None in Ef.
    exists (length (REQUESTS s)). apply list_find_Some. split; [|split].
    + rewrite lookup_app_r by lia. rewrite Nat.sub_diag. reflexivity.
    + rewrite Hext. apply sameRequest_spec. reflexivity.
    + intros j y Hj Hji. rewrite lookup_app_l in Hj by lia.
      rewrite Hext. apply (proj1 (Forall_forall _ _) Ef). apply list_elem_of_lookup. eauto.
Qed.

(** Saving a request and then a request of the same method and URL
    stores no further request: the second call returns the identifier
    and the creation time of the first result, with the properties of
    the second request over those of the first result, and the
    identifiers of the stored requests are unchanged. *)
Theorem saveRequest_again request request' s :
  in_method request' = in_method request -> in_url request' = in_url request ->
  let first := saveRequest clock random request s in
  let second := saveRequest clock random request' (snd first) in
  length (REQUESTS (snd second)) = length (REQUESTS (snd first))
  /\ r_id (fst second) = r_id (fst first)
  /\ r_createdAt (fst second) = r_createdAt (fst first)
  /\ r_others (fst second) = in_others request' ∪ r_others (fst first)
  /\ r_id <$> REQUESTS (snd second) = r_id <$> REQUESTS (snd first).
Proof.
  intros Hm Hu. cbv zeta.
  destruct (saveRequest_refind request request' s Hm Hu) as [index Hf]. cbv zeta in Hf.
  rewrite (saveRequest_found request' _ index _ Hf).
  cbn [fst snd REQUESTS r_id r_createdAt r_others].
  apply list_find_Some in Hf as (Hl & _).
  split; [apply length_insert|]. repeat split.
  rewrite list_fmap_insert. apply list_insert_id.
  rewrite list_lookup_fmap, Hl. reflexivity.
Qed.

(** [deleteRequest] with an identifier that no stored request has
    returns [false] and changes nothing.  Otherwise it returns [true]
    and stores the requests of another identifier, in their order;
    the collections and the history are unchanged. *)
Theorem deleteRequest_removes id s :
  (id ∉ r_id <$> REQUESTS s -> deleteRequest id s = (false, s))
  /\ (id ∈ r_id <$> REQUESTS s ->
      let result := deleteRequest id s in
      fst result = true
      /\ (forall r, r ∈ REQUESTS (snd result) <-> r ∈ REQUESTS s /\ r_id r <> id)
      /\ sublist (REQUESTS (snd result)) (REQUESTS s)
      /\ COLLECTIONS (snd result) = COLLECTIONS s
      /\ HISTORY (snd result) = HISTORY s).
Proof.
  destruct (filter_id_length r_id id (REQUESTS s)) as [Hsame Hless].
  unfold deleteRequest, getSavedRequests, updateRequests.
  unfold mbind, Op_bind, mret, Op_ret.
  split.
  - intros H. rewrite Hsame by exact H. rewrite Nat.eqb_refl. reflexivity.
  - intros H. specialize (Hless H). rewrite (proj2 (Nat.eqb_neq _ _)) by lia.
    cbn [fst snd REQUESTS COLLECTIONS HISTORY].
    split; [reflexivity|]. split; [|split; [|split; reflexivity]].
    + intros r. apply filter_id_spec.
    + apply sublist_filter.
Qed.

End Requests.

(** ** The collections *)

Section Collections.
Import RequestHistory HistorySpec.
Context {V E : Type}.
Variable clock : nat -> Z.
Implicit Types (s : Store V E).

Lemma find_collection collectionId (l : list RequestCollection) :
  collectionId ∈ c_id <$> l ->
  exists index collection,
    list_find (fun c => eqs (c_id c) collectionId = true) l = Some (index, collection)
    /\ l !! index = Some collection /\ c_id collection = collectionId.
Proof.
  intros H. apply list_elem_of_fmap in H as (c & Hc & Hin).
  destruct (list_find_elem_of (fun c => eqs (c_id c) collectionId = true) l c Hin)
    as [[i x] Hx].
  { apply eqs_spec. symmetry. exact Hc. }
  exists i, x. split; [exact Hx|].
  apply list_find_Some in Hx as (Hl & Hp & _). apply eqs_spec in Hp. auto.
Qed.

Lemma no_collection collectionId (l : list RequestCollection) :
  collectionId ∉ c_id <$> l ->
  list_find (fun c => eqs (c_id c) collectionId = true) l = None.
Proof.
  intros H. apply list_find_None, Forall_forall. intros c Hin Hc. apply H.
  apply eqs_spec in Hc. apply list_elem_of_fmap. exists c. auto.
Qed.

(** [addToCollection] on an identifier that no collection has returns
    [false] and changes nothing.  Otherwise it returns [true], a
    collection of that identifier holds the request afterwards, and a
    second call with the same arguments changes nothing more;
    the identifiers of the collections and the saved requests are
    unchanged, and collections that hold no request twice still hold
    none twice. *)
Theorem addToCollection_once collectionId requestId s :
  (collectionId ∉ c_id <$> COLLECTIONS s ->
   addToCollection (V := V) (E := E) clock collectionId requestId s = (false, s))
  /\ (collectionId ∈ c_id <$> COLLECTIONS s ->
      let result := addToCollection clock collectionId requestId s in
      fst result = true
      /\ addToCollection clock collectionId requestId (snd result) = (true, snd result)
      /\ c_id <$> COLLECTIONS (snd result) = c_id <$> COLLECTIONS s
      /\ (exists collection, collection ∈ COLLECTIONS (snd result)
                             /\ c_id collection = collectionId
                             /\ requestId ∈ c_requests collection)
      /\ (Forall (fun c => NoDup (c_requests c)) (COLLECTIONS s) ->
          Forall (fun c => NoDup (c_requests c)) (COLLECTIONS (snd result)))
      /\ REQUESTS (snd result) = REQUESTS s).
Proof.
  unfold addToCollection, getCollections, now, updateCollections.
  unfold mbind, Op_bind, mret, Op_ret.
  cbn [REQUESTS COLLECTIONS HISTORY now_calls random_calls].
  split.
  - intros H. rewrite (no_collection _ _ H). reflexivity.
  - intros H. destruct (find_collection _ _ H) as (index & c & Hf & Hl & Hid).
    rewrite Hf. pose proof (lookup_lt_Some _ _ _ Hl) as Hlt.
    destruct (existsb (eqs requestId) (c_requests c)) eqn:Ein; cbn [negb fst snd COLLECTIONS REQUESTS].
    + split; [reflexivity|]. rewrite Hf, Ein. cbn [negb].
      split; [reflexivity|]. split; [reflexivity|]. split; [|split; [auto | reflexivity]].
      exists c. split; [apply list_elem_of_lookup; eauto|]. split; [exact Hid|].
      apply existsb_eqs. exact Ein.
    + set (c' := {| c_id := c_id c; c_name := c_name c; c_description := c_description c;
                    c_requests := c_requests c ++ [requestId];
                    c_createdAt := c_createdAt c; c_updatedAt := clock (now_calls s) |}).
      assert (list_find (fun c => eqs (c_id c) collectionId = true)
                (<[index := c']> (COLLECTIONS s)) = Some (index, c')) as Hf'.
      { apply list_find_Some in Hf as (_ & Hp & Hfirst).
        apply list_find_Some. split; [apply list_lookup_insert_eq; exact Hlt|].
        split; [exact Hp|]. intros j y Hj Hji.
        rewrite list_lookup_insert_ne in Hj by lia. apply (Hfirst j y Hj Hji). }
      assert (requestId ∈ c_requests c') as Hin'.
      { apply elem_of_app. right. apply list_elem_of_singleton. reflexivity. }
      split; [reflexivity|]. rewrite Hf'.
      rewrite (proj2 (existsb_eqs requestId (c_requests c')) Hin'). cbn [negb].
      split; [reflexivity|]. split; [|split; [|split; [|reflexivity]]].
      * rewrite list_fmap_insert. apply list_insert_id.
        rewrite list_lookup_fmap, Hl. reflexivity.
      * exists c'. split; [|split; [exact Hid | exact Hin']].
        apply list_elem_of_lookup. exists index. apply list_lookup_insert_eq. exact Hlt.
      * intros Hall. apply Forall_insert; [exact Hall|]. cbn [c_requests c'].
        apply NoDup_app. split; [|split; [|apply NoDup_singleton]].
        -- apply (proj1 (Forall_forall _ _) Hall). apply list_elem_of_lookup. eauto.
        -- intros x Hx Hx'. apply list_elem_of_singleton in Hx'. subst x.
           apply existsb_eqs in Hx. congruence.
Qed.

Lemma filter_snoc_absent (requestId : list ascii) (l : list (list ascii)) :
  requestId ∉ l ->
  filter (fun id => negb (eqs id requestId) = true) (l ++ [requestId]) = l.
Proof.
  intros H. rewrite filter_app, filter_cons, filter_nil.
  rewrite decide_False by (rewrite eqs_refl; discriminate).
  rewrite app_nil_r. induction l as [|x l IH]; [reflexivity|].
  apply not_elem_of_cons in H as [H1 H2]. rewrite filter_cons.
  rewrite decide_True by (apply negb_true_iff, eqs_false; congruence).
  rewrite IH by exact H2. reflexivity.
Qed.

(** [removeFromCollection] on an identifier that no collection has
    returns [false] and changes nothing.  Otherwise it returns [true]
    and replaces the first collection of that identifier by one that
    holds the same requests less the request given, every occurrence
    of it; removing a request that was just added to a collection
    that did not hold it gives back the requests every collection
    held. *)
Theorem removeFromCollection_removes collectionId requestId s :
  (collectionId ∉ c_id <$> COLLECTIONS s ->
   removeFromCollection (V := V) (E := E) clock collectionId requestId s = (false, s))
  /\ (forall index collection,
        list_find (fun c => eqs (c_id c) collectionId = true) (COLLECTIONS s)
        = Some (index, collection) ->
        let result := removeFromCollection clock collectionId requestId s in
        fst result = true
        /\ (exists collection',
              COLLECTIONS (snd result) = <[index := collection']> (COLLECTIONS s)
              /\ c_id collection' = collectionId
              /\ (forall id, id ∈ c_requests collection'
                             <-> id ∈ c_requests collection /\ id <> requestId))
        /\ (requestId ∉ c_requests collection ->
            let added := addToCollection clock collectionId requestId s in
            c_requests <$> COLLECTIONS
                             (snd (removeFromCollection clock collectionId requestId
                                     (snd added)))
            = c_requests <$> COLLECTIONS s)).
Proof.
  unfold removeFromCollection, addToCollection, getCollections, now, updateCollections.
  unfold mbind, Op_bind, mret, Op_ret.
  cbn [REQUESTS COLLECTIONS HISTORY now_calls random_calls].
  split.
  - intros H. rewrite (no_collection _ _ H). reflexivity.
  - intros index c Hf. rewrite Hf. cbn [fst snd COLLECTIONS].
    pose proof Hf as Hf0. apply list_find_Some in Hf0 as (Hl & Hp & Hfirst).
    pose proof (lookup_lt_Some _ _ _ Hl) as Hlt.
    split; [reflexivity|]. split.
    + eexists. split; [reflexivity|]. cbn [c_id c_requests].
      split; [apply eqs_spec; exact Hp|]. intros id.
      rewrite list_elem_of_filter, negb_true_iff, eqs_false. tauto.
    + intros Hnot.
      assert (existsb (eqs requestId) (c_requests c) = false) as ->.
      { apply not_true_iff_false. intros H. apply Hnot, existsb_eqs, H. }
      cbn [negb fst snd COLLECTIONS now_calls].
      set (c' := {| c_id := c_id c; c_name := c_name c; c_description := c_description c;
                    c_requests := c_requests c ++ [requestId];
                    c_createdAt := c_createdAt c; c_updatedAt := clock (now_calls s) |}).
      assert (list_find (fun c => eqs (c_id c) collectionId = true)
                (<[index := c']> (COLLECTIONS s)) = Some (index, c')) as ->.
      { apply list_find_Some. split; [apply list_lookup_insert_eq; exact Hlt|].
        split; [exact Hp|]. intros j y Hj Hji.
        rewrite list_lookup_insert_ne in Hj by lia. apply (Hfirst j y Hj Hji). }
      cbn [snd COLLECTIONS c_requests c'].
      rewrite list_insert_insert_eq, list_fmap_insert. cbn [c_requests].
      rewrite filter_snoc_absent by exact Hnot.
      apply list_insert_id. rewrite list_lookup_fmap, Hl. reflexivity.
Qed.

End Collections.

Section NewCollections.
Import RequestHistory HistorySpec.
Context {V E : Type}.
Variable clock : nat -> Z.
Variable random : nat -> list ascii.
Implicit Types (s : Store V E).

(** [createCollection] appends to the stored collections a collection
    with the name and the description given, no request, and equal
    creation and update times; the saved requests and the history are
    unchanged.  [deleteCollection] on the identifier of the new
    collection then returns [true], and gives back the collections
    stored before when none of them has that identifier.
    [deleteCollection] on an identifier that no collection has
    returns [false] and changes nothing. *)
Theorem createCollection_then_deleteCollection name description s :
  let result := createCollection clock random name description s in
  let created := fst result in
  COLLECTIONS (snd result) = COLLECTIONS s ++ [created]
  /\ c_name created = name /\ c_description created = description
  /\ c_requests created = [] /\ c_createdAt created = c_updatedAt created
  /\ REQUESTS (snd result) = REQUESTS s /\ HISTORY (snd result) = HISTORY s
  /\ fst (deleteCollection (c_id created) (snd result)) = true
  /\ (c_id created ∉ c_id <$> COLLECTIONS s ->
      COLLECTIONS (snd (deleteCollection (c_id created) (snd result))) = COLLECTIONS s)
  /\ (forall id, id ∉ c_id <$> COLLECTIONS s ->
        deleteCollection (V := V) (E := E) id s = (false, s)).
Proof.
  cbv zeta.
  unfold createCollection, deleteCollection, getCollections, generateId, now, draw,
    updateCollections.
  unfold mbind, Op_bind, mret, Op_ret.
  cbn [REQUESTS COLLECTIONS HISTORY now_calls random_calls fst snd].
  set (created := mkCollection _ name description [] _ _).
  repeat (split; [reflexivity|]).
  assert (filter (fun c => negb (eqs (c_id c) (c_id created)) = true)
            (COLLECTIONS s ++ [created])
          = filter (fun c => negb (eqs (c_id c) (c_id created)) = true) (COLLECTIONS s))
    as Hf.
  { rewrite filter_app, filter_cons, filter_nil.
    rewrite decide_False by (rewrite eqs_refl; discriminate).
    apply app_nil_r. }
  rewrite Hf.
  pose proof (length_filter (fun c => negb (eqs (c_id c) (c_id created)) = true)
                (COLLECTIONS s)) as Hle.
  split; [|split].
  - rewrite (proj2 (Nat.eqb_neq _ _)) by (rewrite length_app; change (length [created]) with 1; lia). reflexivity.
  - intros Hfresh.
    rewrite (proj2 (Nat.eqb_neq _ _)) by (rewrite length_app; change (length [created]) with 1; lia).
    cbn [snd COLLECTIONS].
    apply (proj1 (filter_id_length c_id (c_id created) (COLLECTIONS s)) Hfresh).
  - intros id Hid.
    rewrite (proj1 (filter_id_length c_id id (COLLECTIONS s)) Hid), Nat.eqb_refl.
    reflexivity.
Qed.

End NewCollections.

(** ** The history *)

Section History.
Import RequestHistory HistorySpec.
Context {V E : Type}.
Variable clock : nat -> Z.
Variable random : nat -> list ascii.
Implicit Types (s : Store V E).

Lemma slice0_nonneg {A} (l : list A) (limit : Z) :
  (0 <= limit)%Z -> slice0 l limit = take (Z.to_nat limit) l.
Proof. intros H. unfold slice0. rewrite (proj2 (Z.ltb_ge _ _)) by lia. reflexivity. Qed.

(** [addToHistory] stores the new entry first, followed by the
    entries stored before, cut to a hundred entries: the history
    never holds more than a hundred, and holds all the earlier ones
    when they were fewer than a hundred.  [getHistory] with a limit
    from 0 to 100 then returns that many of the most recent entries,
    50 of them without a limit.  The saved requests and the
    collections are unchanged. *)
Theorem addToHistory_bounded entry s :
  let result := addToHistory (V := V) clock random entry s in
  let newEntry := fst result in
  HISTORY (snd result) = take 100 (newEntry :: HISTORY s)
  /\ length (HISTORY (snd result)) <= 100
  /\ head (HISTORY (snd result)) = Some newEntry
  /\ h_entry newEntry = entry
  /\ (length (HISTORY s) < 100 -> HISTORY (snd result) = newEntry :: HISTORY s)
  /\ (forall limit, (0 <= limit <= 100)%Z ->
        fst (getHistory (Some limit) (snd result))
        = take (Z.to_nat limit) (newEntry :: HISTORY s))
  /\ fst (getHistory None (snd result)) = take 50 (newEntry :: HISTORY s)
  /\ REQUESTS (snd result) = REQUESTS s
  /\ COLLECTIONS (snd result) = COLLECTIONS s.
Proof.
  cbv zeta. unfold addToHistory, getHistory, generateId, now, draw, updateHistory.
  unfold mbind, Op_bind, mret, Op_ret.
  cbn [REQUESTS COLLECTIONS HISTORY now_calls random_calls fst snd default].
  unfold Datatypes.id. rewrite !(slice0_nonneg _ 100), (slice0_nonneg _ 50) by lia.
  change (Z.to_nat 100) with 100. change (Z.to_nat 50) with 50.
  set (newEntry := mkEntry _ _ entry).
  assert (take 100 (newEntry :: take 100 (HISTORY s)) = take 100 (newEntry :: HISTORY s))
    as ->.
  { change 100 with (S 99) at 1 3. cbn [take]. f_equal.
    rewrite take_take. f_equal. }
  split; [reflexivity|]. split; [rewrite length_take; lia|].
  split; [reflexivity|]. split; [reflexivity|]. split; [|split; [|split; [|split]]].
  - intros H. apply take_ge. simpl. lia.
  - intros limit Hl. rewrite slice0_nonneg by lia. rewrite take_take. f_equal. lia.
  - rewrite take_take. reflexivity.
  - reflexivity.
  - reflexivity.
Qed.

(** [deleteHistoryEntry] looks at the hundred most recent entries.
    With an identifier that none of them has it returns [false] and
    changes nothing.  Otherwise it returns [true] and stores those of
    the hundred that have another identifier, in their order: fewer
    than a hundred entries, the older ones being dropped. *)
Theorem deleteHistoryEntry_removes id s :
  let recent := take 100 (HISTORY s) in
  (id ∉ h_id <$> recent -> deleteHistoryEntry (V := V) id s = (false, s))
  /\ (id ∈ h_id <$> recent ->
      let result := deleteHistoryEntry (V := V) id s in
      fst result = true
      /\ (forall h, h ∈ HISTORY (snd result) <-> h ∈ recent /\ h_id h <> id)
      /\ sublist (HISTORY (snd result)) recent
      /\ length (HISTORY (snd result)) < 100).
Proof.
  cbv zeta. unfold deleteHistoryEntry, getHistory, updateHistory.
  unfold mbind, Op_bind, mret, Op_ret.
  cbn [REQUESTS COLLECTIONS HISTORY now_calls random_calls fst snd default].
  unfold Datatypes.id. rewrite !slice0_nonneg by lia. change (Z.to_nat 100) with 100.
  destruct (filter_id_length h_id id (take 100 (HISTORY s))) as [Hsame Hless].
  split.
  - intros H. rewrite Hsame by exact H. rewrite Nat.eqb_refl. reflexivity.
  - intros H. specialize (Hless H). rewrite (proj2 (Nat.eqb_neq _ _)) by lia.
    cbn [fst snd HISTORY]. split; [reflexivity|]. split; [|split].
    + intros h. apply filter_id_spec.
    + apply sublist_filter.
    + rewrite length_take in Hless. lia.
Qed.

End History.

(** ** Instances of the properties *)

Section DiscoveryInstances.
Import EndpointDiscovery DedupSpec LineSpec DetectSpec NextSpec FileWalk WalkSpec.

Lemma lineLoop_counts_newlines_witness :
  let content := str "a" ++ [newline] ++ str "bc" in
  lineLoop (split newline content) 0 0 3 = 1.
Proof.
  apply (proj1 (lineLoop_counts_newlines (str "a" ++ [newline] ++ str "bc") 3)).
  simpl. lia.
Defined.

Lemma detectFrameworks_by_extension_witness :
  (toLowerCase (extname (str "/w/notes.RB")) ∉ sourceExtensions)
  /\ parseFileForEndpoints (str "app.get('/a') // express") (str "/w/notes.RB") = [].
Proof.
  assert (toLowerCase (extname (str "/w/notes.RB")) ∉ sourceExtensions) as H.
  { intros H. apply list_elem_of_In in H. vm_compute in H. intuition discriminate. }
  split; [exact H|].
  destruct detectFrameworks_by_extension as (_ & _ & Hparse).
  apply Hparse. exact H.
Defined.

Lemma discoverEndpoints_structure_witness :
  let content := str "const r = require('koa-router')" ++ [newline]
                 ++ str "router.get('/a')" in
  let ep := mkEndpoint (str "GET") (str "/a") (str "/w/x.js") 1 (str "koa") None in
  key ep ∈ key <$> discoverEndpoints [(str "/w/x.js", Some content)] [].
Proof.
  cbv zeta.
  destruct (discoverEndpoints_structure
              [(str "/w/x.js",
                Some (str "const r = require('koa-router')" ++ [newline]
                      ++ str "router.get('/a')"))] []) as (_ & _ & Hin & _).
  apply Hin. apply list_elem_of_In. vm_compute. left. reflexivity.
Defined.

Lemma extractNextJsPath_api_witness :
  extractNextJsPath (str "/w/src/server.js") = str "/api".
Proof.
  apply (proj2 (extractNextJsPath_api (str "/w/src/server.js"))).
  vm_compute. reflexivity.
Defined.

Lemma walkNextJsApiDir_routes_witness :
  let ep := routeOf (str "/w/app/api") [str "users"] (str "route.ts") (str "GET") in
  exists dirs name content method,
    Holds usersRoute dirs name (Some content)
    /\ name ∈ routeNames /\ method ∈ methods /\ exports content method = true
    /\ ep = routeOf (str "/w/app/api") dirs name method.
Proof.
  cbv zeta.
  destruct (walkNextJsApiDir_routes slashJoin (fun _ _ => eq_refl) (str "/w/app/api")
              usersRoute) as (_ & Hsound & _).
  apply Hsound. apply list_elem_of_In. vm_compute. left. reflexivity.
Defined.

Lemma nextjs_passes_agree_witness :
  let found := routeOf (str "/w/" ++ str "app" ++ str "/api") [str "users"; str "[id]"]
                 (str "route.ts") (str "GET") in
  extractNextJsPath (file found) = path found.
Proof.
  apply (nextjs_passes_agree (str "/w/") (str "app") [str "users"; str "[id]"]
           (str "route.ts") (str "GET")).
  - reflexivity.
  - right. reflexivity.
  - repeat (constructor; try discriminate).
  - apply list_elem_of_In. simpl. tauto.
  - reflexivity.
Defined.

End DiscoveryInstances.

Section EnvironmentInstances.
Import EnvironmentManager EnvSpec LoadSpec.

Lemma twoEnvs_ids : NoDup (ids (memory twoEnvs)).
Proof.
  apply NoDup_ListNoDup. vm_compute.
  repeat (constructor; [simpl; intuition discriminate|]). constructor.
Qed.

Lemma store_keeps_one_active_witness :
  activeCount (memory (snd (deleteEnvironment (str "a") twoEnvs))) <= 1
  /\ activeCount
       (memory (snd (setVariable (fun _ => 0%Z) (str "a") (str "K") (str "v") twoEnvs)))
     <= 1.
Proof.
  assert (activeCount (memory twoEnvs) <= 1) as H by (simpl; lia).
  destruct (store_keeps_one_active (fun _ => 0%Z) (fun _ => str "r") twoEnvs H)
    as (_ & _ & Hdelete & _ & Hset & _).
  split; [apply Hdelete | apply Hset].
Defined.

Lemma setActiveEnvironment_switches_witness :
  let result := setActiveEnvironment (str "b") twoEnvs in
  fst result = true
  /\ saved (snd result) = memory (snd result)
  /\ activeCount (memory (snd result)) = 1.
Proof.
  cbv zeta.
  assert (str "b" ∈ ids (memory twoEnvs)) as Hin.
  { apply list_elem_of_In. simpl. tauto. }
  pose proof (setActiveEnvironment_switches (str "b") twoEnvs Hin twoEnvs_ids) as H.
  cbv zeta in H. destruct H as (H1 & H2 & _ & H3 & _). auto.
Defined.

Lemma deleteEnvironment_removes_witness :
  deleteEnvironment (str "c") twoEnvs = (false, twoEnvs)
  /\ ids (memory (snd (deleteEnvironment (str "a") twoEnvs))) = [str "b"].
Proof.
  split.
  - apply (proj1 (deleteEnvironment_removes (str "c") twoEnvs)).
    intros H. apply list_elem_of_In in H. vm_compute in H. intuition discriminate.
  - pose proof (proj2 (deleteEnvironment_removes (str "a") twoEnvs)) as H.
    cbv zeta in H. destruct H as (_ & _ & H & _).
    + apply list_elem_of_In. simpl. tauto.
    + rewrite H. vm_compute. reflexivity.
Defined.

Lemma createEnvironment_active_witness :
  let result := createEnvironment (fun _ => 0%Z) (fun _ => str "r") (str "Dev")
                  (∅ : gmap (list ascii) (list ascii)) (mkWorld [] [] 0 0) in
  isActive (fst result) = true
  /\ fst (getActiveEnvironment (snd result)) = Some (fst result).
Proof.
  cbv zeta.
  pose proof (createEnvironment_active (fun _ => 0%Z) (fun _ => str "r") (str "Dev")
                (∅ : gmap (list ascii) (list ascii)) (mkWorld [] [] 0 0)) as H.
  cbv zeta in H. destruct H as (_ & _ & _ & _ & _ & H & _).
  apply H. reflexivity.
Defined.

Lemma loadFolder_syncs_witness :
  bound (memory (snd (loadFolder (fun _ => 0%Z) envOnly twoEnvs)))
        (tagOf ".env") (parseEnvFile (str "A=1")).
Proof.
  pose proof (loadFolder_syncs (fun _ => 0%Z) envOnly twoEnvs) as H.
  cbv zeta in H. destruct H as (H & _).
  apply (H ".env"%string (str "A=1")).
  - apply list_elem_of_In. simpl. tauto.
  - reflexivity.
Defined.

Lemma loadFolder_again_witness :
  let w1 := snd (loadFolder (fun _ => 0%Z) envOnly twoEnvs) in
  let w2 := snd (loadFolder (fun _ => 0%Z) envOnly w1) in
  length (memory w2) = length (memory w1)
  /\ bound (memory w2) (tagOf ".env") (parseEnvFile (str "A=1")).
Proof.
  cbv zeta.
  pose proof (loadFolder_again (fun _ => 0%Z) envOnly twoEnvs) as H.
  cbv zeta in H. destruct H as (_ & Hlen & H).
  split; [exact Hlen|].
  apply (H ".env"%string (str "A=1")).
  - apply list_elem_of_In. simpl. tauto.
  - reflexivity.
Defined.

Lemma setVariable_then_interpolate_witness :
  interpolate (snd (setVariable (fun _ => 0%Z) (str "a") (str "TOKEN") (str "t1") twoEnvs))
              (curly (str " TOKEN ")) ∅
  = str "t1".
Proof.
  pose proof (setVariable_then_interpolate (fun _ => 0%Z) (str "a") (str "TOKEN") (str "t1")
                twoEnvs envA ∅ (str " TOKEN ")) as H.
  cbv zeta in H. destruct H as (_ & H & _).
  - exact twoEnvs_ids.
  - reflexivity.
  - reflexivity.
  - discriminate.
  - intros H. apply list_elem_of_In in H. simpl in H. intuition discriminate.
  - reflexivity.
  - discriminate.
  - reflexivity.
  - exact H.
Defined.

Lemma deleteVariable_after_setVariable_witness :
  deleteVariable (fun _ => 0%Z) (str "c") (str "K") twoEnvs = (false, twoEnvs)
  /\ fst (deleteVariable (fun _ => 0%Z) (str "b") (str "K")
            (snd (setVariable (fun _ => 0%Z) (str "b") (str "K") (str "v") twoEnvs)))
     = true.
Proof.
  destruct (deleteVariable_after_setVariable (fun _ => 0%Z) (str "b") (str "K") (str "v")
              twoEnvs) as (_ & H).
  split.
  - apply (proj1 (deleteVariable_after_setVariable (fun _ => 0%Z) (str "c") (str "K")
                    (str "v") twoEnvs)).
    intros Hin. apply list_elem_of_In in Hin. vm_compute in Hin. intuition discriminate.
  - cbv zeta in H. destruct H as (H & _).
    + exact twoEnvs_ids.
    + apply list_elem_of_In. simpl. tauto.
    + discriminate.
    + exact H.
Defined.

Lemma parseEnvFile_keys_witness :
  parseEnvFile (str " A = 'x' ") !! str "A" = Some (str "x")
  /\ trim (str "A") = str "A".
Proof.
  assert (parseEnvFile (str " A = 'x' ") !! str "A" = Some (str "x")) as H
    by (vm_compute; reflexivity).
  split; [exact H|].
  destruct (parseEnvFile_keys _ _ _ H) as (_ & Ht & _). exact Ht.
Defined.

Lemma interpolate_without_braces_witness :
  interpolate twoEnvs (str "http://x/users?id=$1") ∅ = str "http://x/users?id=$1".
Proof.
  apply interpolate_without_braces. left.
  intros H. apply list_elem_of_In in H. vm_compute in H. intuition discriminate.
Defined.

End EnvironmentInstances.

Section HistoryInstances.
Import RequestHistory HistorySpec.

Lemma saveRequest_upserts_witness :
  let result := saveRequest (fun _ => 0%Z) (fun _ => str "r") listUsers nothingStored in
  REQUESTS (snd result) = [fst result]
  /\ r_createdAt (fst result) = r_updatedAt (fst result).
Proof.
  cbv zeta.
  pose proof (saveRequest_upserts (fun _ => 0%Z) (fun _ => str "r") listUsers nothingStored)
    as H.
  cbv zeta in H. destruct H as (_ & _ & _ & _ & _ & H).
  apply H. intros existing Hin. inversion Hin.
Defined.

Lemma saveRequest_again_witness :
  let first := saveRequest (fun _ => 0%Z) (fun _ => str "r") listUsers nothingStored in
  let second := saveRequest (fun _ => 0%Z) (fun _ => str "r") listUsersAgain (snd first) in
  length (REQUESTS (snd second)) = length (REQUESTS (snd first))
  /\ r_id (fst second) = r_id (fst first).
Proof.
  cbv zeta.
  pose proof (saveRequest_again (fun _ => 0%Z) (fun _ => str "r") listUsers listUsersAgain
                nothingStored eq_refl eq_refl) as H.
  cbv zeta in H. destruct H as (H1 & H2 & _). auto.
Defined.

Lemma deleteRequest_removes_witness :
  let first := saveRequest (fun _ => 0%Z) (fun _ => str "r") listUsers nothingStored in
  fst (deleteRequest (r_id (fst first)) (snd first)) = true
  /\ deleteRequest (str "r9") (snd first) = (false, snd first).
Proof.
  cbv zeta. split.
  - pose proof (proj2 (deleteRequest_removes
                         (r_id (fst (saveRequest (fun _ => 0%Z) (fun _ => str "r") listUsers
                                       nothingStored)))
                         (snd (saveRequest (fun _ => 0%Z) (fun _ => str "r") listUsers
                                 nothingStored)))) as H.
    cbv zeta in H. destruct H as (H & _); [|exact H].
    apply list_elem_of_In. vm_compute. left. reflexivity.
  - apply (proj1 (deleteRequest_removes (str "r9") _)).
    intros H. apply list_elem_of_In in H. vm_compute in H. intuition discriminate.
Defined.

Lemma addToCollection_once_witness :
  let result := addToCollection (fun _ => 0%Z) (str "c1") (str "r2") oneCollection in
  fst result = true
  /\ addToCollection (fun _ => 0%Z) (str "c1") (str "r2") (snd result) = (true, snd result).
Proof.
  cbv zeta.
  pose proof (proj2 (addToCollection_once (fun _ => 0%Z) (str "c1") (str "r2")
                       oneCollection)) as H.
  cbv zeta in H. destruct H as (H1 & H2 & _); [|auto].
  apply list_elem_of_In. simpl. tauto.
Defined.

Lemma removeFromCollection_removes_witness :
  fst (removeFromCollection (fun _ => 0%Z) (str "c1") (str "r1") oneCollection) = true
  /\ c_requests
       <$> COLLECTIONS
             (snd (removeFromCollection (fun _ => 0%Z) (str "c1") (str "r2")
                     (snd (addToCollection (fun _ => 0%Z) (str "c1") (str "r2")
                             oneCollection))))
     = c_requests <$> COLLECTIONS oneCollection.
Proof.
  split.
  - pose proof (proj2 (removeFromCollection_removes (fun _ => 0%Z) (str "c1") (str "r1")
                         oneCollection) 0 mine eq_refl) as H.
    cbv zeta in H. destruct H as (H & _). exact H.
  - pose proof (proj2 (removeFromCollection_removes (fun _ => 0%Z) (str "c1") (str "r2")
                         oneCollection) 0 mine eq_refl) as H.
    cbv zeta in H. destruct H as (_ & _ & H). apply H.
    intros Hin. apply list_elem_of_In in Hin. vm_compute in Hin. intuition discriminate.
Defined.

Lemma addToHistory_bounded_witness :
  let result := addToHistory (V := list ascii) (fun _ => 0%Z) (fun _ => str "r") tt
                  oneEntry in
  HISTORY (snd result) = fst result :: HISTORY oneEntry
  /\ fst (getHistory (Some 1%Z) (snd result)) = [fst result].
Proof.
  cbv zeta.
  pose proof (addToHistory_bounded (V := list ascii) (fun _ => 0%Z) (fun _ => str "r") tt
                oneEntry) as H.
  cbv zeta in H. destruct H as (_ & _ & _ & _ & H1 & H2 & _).
  split.
  - apply H1. simpl. lia.
  - apply (H2 1%Z). lia.
Defined.

Lemma deleteHistoryEntry_removes_witness :
  let result := deleteHistoryEntry (str "h1") oneEntry in
  fst result = true /\ length (HISTORY (snd result)) < 100.
Proof.
  cbv zeta.
  pose proof (deleteHistoryEntry_removes (str "h1") oneEntry) as H.
  cbv zeta in H. destruct H as (_ & H).
  destruct H as (H1 & _ & _ & H2); [|auto].
  apply list_elem_of_In. simpl. tauto.
Defined.

Lemma createCollection_then_deleteCollection_witness :
  let result := createCollection (fun _ => 0%Z) (fun _ => str "r") (str "Yours") None
                  oneCollection in
  COLLECTIONS (snd (deleteCollection (c_id (fst result)) (snd result)))
  = COLLECTIONS oneCollection
  /\ deleteCollection (str "c9") oneCollection = (false, oneCollection).
Proof.
  cbv zeta.
  pose proof (createCollection_then_deleteCollection (fun _ => 0%Z) (fun _ => str "r")
                (str "Yours") None oneCollection) as H.
  cbv zeta in H. destruct H as (_ & _ & _ & _ & _ & _ & _ & _ & H1 & H2).
  split; [apply H1 | apply H2];
    intros H; apply list_elem_of_In in H; vm_compute in H; intuition discriminate.
Defined.

End HistoryInstances.
